(** * xwd: the AcrossLite (".puz") decoder, its checksum verifier and the
      grid-numbering model, embedded from the Go sources.

    Conventions of the embedding.
    - A Go [string] and the contents of a [[]byte] are [list byte]; [len] is
      the byte length, as in Go.
    - Go's [int] is [Z]; every [int] the code computes is a length, an index
      or a count bounded by the size of its input, so no 64-bit wrap-around
      occurs.  [uint16] is a [Z] whose wrap-around is written out.
    - A run-time panic (index or slice bound out of range) is [None]; a
      function that can panic returns an [option].
    - A Go [error] result is a value of type [error]; [nil] is [None] in an
      [option error]. *)

From Stdlib Require Import ZArith List Strings.Byte String DecimalString
  Sorted Lia.
From stdpp Require Import base option list gmap sorting.

#[local] Open Scope Z_scope.

(** ** Go prelude *)

Abbreviation byte := Byte.byte.

#[global] Instance byte_eq_decision : EqDecision byte := Byte.byte_eq_dec.

(** [uint16(b)], [int(b)] for a byte [b]. *)
Definition byteZ (b : byte) : Z := Z.of_N (Byte.to_N b).

(** A Go string literal without escapes. *)
Definition bytesOf (s : string) : list byte := list_byte_of_string s.

(** A byte literal. *)
Definition byteOf (n : Z) : byte :=
  default x00 (Byte.of_N (Z.to_N n)).

(** [len(x)] *)
Definition len {A} (l : list A) : Z := Z.of_nat (length l).

(** [x[i]]: panics unless [0 <= i < len(x)]. *)
Definition index {A} (l : list A) (i : Z) : option A :=
  if i <? 0 then None else l !! Z.to_nat i.

(** Truncation of a sum to [uint16]. *)
Definition wrap16 (x : Z) : Z := x mod 65536.

Definition is_uint16 (x : Z) : Prop := 0 <= x < 65536.

(** The error values the packages return. *)
Inductive error :=
| EOF                   (* io.EOF *)
| ErrUnexpectedEOF      (* io.ErrUnexpectedEOF *)
| ErrScrambled          (* "no support yet for scrambled puzzles" *)
| ErrChecksums          (* "checksums aren't correct" *)
| ErrNotAcrossLite      (* "this doesn't look like an Across Lite formatted puzzle" *)
| NoProviderFound       (* var NoProviderFound *)
| OutOfBounds           (* var OutOfBounds *)
| ErrGridRows           (* "grid should contain as many rows as the puzzle" *)
| ErrGridCols (i : Z).  (* "grid rows should contain as many columns as the
                           puzzle (failed at row i)" *)

#[global] Instance error_eq_decision : EqDecision error.
Proof. solve_decision. Defined.

(** Sequencing of computations that may panic. *)
Notation "'do' x <- m ; k" :=
  (match m with Some x => k | None => None end)
  (at level 10, x name, m at level 100, k at level 200,
   format "'[v' 'do'  x  <-  m ; '/' k ']'").

(** [for i := lo; i < hi; i++ { body }] over a state [S]; a panic in the body
    ends the loop. *)
Fixpoint forRange {I S} (body : I -> S -> option S) (idx : list I) (s : S)
  : option S :=
  match idx with
  | [] => Some s
  | i :: rest => do s' <- body i s; forRange body rest s'
  end.

Definition forZ {S} (lo hi : Z) (body : Z -> S -> option S) (s : S) : option S :=
  forRange body (seqZ lo (hi - lo)) s.

(** ** The rolling checksum (func cksum) *)

Definition cksumStep (sum : Z) (b : byte) : Z :=
  let sum :=
    if negb (Z.land sum 1 =? 0)
    then wrap16 (Z.shiftr sum 1 + 0x8000)
    else Z.shiftr sum 1 in
  wrap16 (sum + byteZ b).

Definition cksum (data : list byte) (sum : Z) : Z :=
  fold_left cksumStep data sum.

(** ** The puzzle model (type Puzzle, SetSolution, Cell) *)

Record Clue := mkClue {
  Num : Z;                 (* The clue number *)
  Clue_text : list byte    (* The text of the clue (field Clue) *)
}.

#[global] Instance Clue_eq_decision : EqDecision Clue.
Proof. solve_decision. Defined.

(** const P_BLACK = "." ; the code compares against P_BLACK[0]. *)
Definition P_BLACK : list byte := bytesOf ".".
Definition P_BLACK_0 : byte := default x00 (P_BLACK !! 0%nat).

Module Puzzle.

Record t := mk {
  Cols : Z;
  Rows : Z;
  Title : list byte;
  Author : list byte;
  Copyright : list byte;
  Notes : list byte;
  solution : list (list byte);
  cellCoords : gmap (Z * Z) Z;
  cluesAcross : list Clue;
  cluesDown : list Clue
}.

(** &Puzzle{} *)
Definition zero : t := mk 0 0 [] [] [] [] [] ∅ [] [].

Definition set_cellCoord (p : t) (i j c : Z) : t :=
  mk (Cols p) (Rows p) (Title p) (Author p) (Copyright p) (Notes p)
     (solution p) (<[(i, j) := c]> (cellCoords p)) (cluesAcross p) (cluesDown p).

Definition append_cluesAcross (p : t) (cl : Clue) : t :=
  mk (Cols p) (Rows p) (Title p) (Author p) (Copyright p) (Notes p)
     (solution p) (cellCoords p) (cluesAcross p ++ [cl]) (cluesDown p).

Definition append_cluesDown (p : t) (cl : Clue) : t :=
  mk (Cols p) (Rows p) (Title p) (Author p) (Copyright p) (Notes p)
     (solution p) (cellCoords p) (cluesAcross p) (cluesDown p ++ [cl]).

(** The four assignments that open the numbering in SetSolution. *)
Definition reset (p : t) (grid : list (list byte)) : t :=
  mk (Cols p) (Rows p) (Title p) (Author p) (Copyright p) (Notes p)
     grid ∅ [] [].

Definition isBlackCell (p : t) (row col : Z) : option bool :=
  do r <- index (solution p) row;
  do b <- index r col;
  Some (bool_decide (b = P_BLACK_0)).

Definition isAcrossCell (p : t) (row col : Z) : option bool :=
  do blk <- isBlackCell p row col;
  if blk then Some false else
  do opens <- (if col =? 0 then Some true else isBlackCell p row (col - 1));
  if opens then
    if col + 1 <? Cols p then
      do nxt <- isBlackCell p row (col + 1);
      if negb nxt then Some true else Some false
    else Some false
  else Some false.

Definition isDownCell (p : t) (row col : Z) : option bool :=
  do blk <- isBlackCell p row col;
  if blk then Some false else
  do opens <- (if row =? 0 then Some true else isBlackCell p (row - 1) col);
  if opens then
    if row + 1 <? Rows p then
      do nxt <- isBlackCell p (row + 1) col;
      if negb nxt then Some true else Some false
    else Some false
  else Some false.

(** [for i, r := range grid { if len(r) != p.Cols { return ... i } }]:
    the index of the first row of the wrong length, if any. *)
Fixpoint checkCols (cols : Z) (i : Z) (grid : list (list byte)) : option Z :=
  match grid with
  | [] => None
  | r :: rest =>
      if bool_decide (len r ≠ cols) then Some i else checkCols cols (i + 1) rest
  end.

(** The body of the inner loop of SetSolution, on the puzzle and the
    counter [c]. *)
Definition numberCell (i j : Z) (s : t * Z) : option (t * Z) :=
  let '(p, c) := s in
  let cellNumbered := false in
  do isA <- isAcrossCell p i j;
  let '(p, cellNumbered) :=
    if isA then (append_cluesAcross (set_cellCoord p i j c) (mkClue c []), true)
    else (p, cellNumbered) in
  do isD <- isDownCell p i j;
  let '(p, cellNumbered) :=
    if isD then
      let '(p, cellNumbered) :=
        if negb cellNumbered then (set_cellCoord p i j c, true)
        else (p, cellNumbered) in
      (append_cluesDown p (mkClue c []), cellNumbered)
    else (p, cellNumbered) in
  Some (p, if cellNumbered then c + 1 else c).

Definition SetSolution (p : t) (grid : list (list byte))
  : option (option error * t) :=
  if bool_decide (len grid ≠ Rows p) then Some (Some ErrGridRows, p) else
  match checkCols (Cols p) 0 grid with
  | Some i => Some (Some (ErrGridCols i), p)
  | None =>
      let p := reset p grid in
      do s <- forZ 0 (Rows p)
            (fun i => forZ 0 (Cols p) (fun j => numberCell i j)) (p, 0);
      Some (None, s.1)
  end.

(** type Cell *)
Record Cell_t := mkCell {
  Black : bool;
  CellNum : Z;              (* field Num *)
  Coords : Z * Z;
  CellSolution : list byte  (* field Solution *)
}.

(** [string(b)] for a byte [b]: the UTF-8 encoding of the code point [b], one
    byte below 0x80 and two bytes from there on. *)
Definition stringOfByte (b : byte) : list byte :=
  if byteZ b <? 0x80 then [b]
  else [byteOf (Z.lor 0xC0 (Z.shiftr (byteZ b) 6));
        byteOf (Z.lor 0x80 (Z.land (byteZ b) 0x3F))].

(** The method Cell(i, j int), returning a pointer to a Cell and an error. *)
Definition Cell (p : t) (i j : Z) : option (Cell_t + error) :=
  if (i <? 0) || (Rows p <=? i) || (j <? 0) || (Cols p <=? j)
  then Some (inr OutOfBounds)
  else
    let num := default (-1) (cellCoords p !! (i, j)) in
    do blk <- isBlackCell p i j;
    if negb blk then
      do r <- index (solution p) i;
      do b <- index r j;
      Some (inl (mkCell blk num (i, j) (stringOfByte b)))
    else Some (inl (mkCell blk num (i, j) [])).

End Puzzle.

(** ** Byte slices and the bytes.Buffer reader *)

(** A [[]byte]: the [len] bytes it shows and the bytes of its backing array
    between [len] and [cap]. *)
Record slice := mkSlice {
  elems : list byte;
  spare : list byte
}.

Definition cap (s : slice) : Z := len (elems s) + len (spare s).

(** [s[lo:hi]]: for a slice the upper bound is checked against the capacity;
    panics unless [0 <= lo <= hi <= cap(s)]. *)
Definition reslice (s : slice) (lo hi : Z) : option slice :=
  if (0 <=? lo) && (lo <=? hi) && (hi <=? cap s) then
    let arr := elems s ++ spare s in
    Some (mkSlice (take (Z.to_nat (hi - lo)) (drop (Z.to_nat lo) arr))
                  (drop (Z.to_nat hi) arr))
  else None.

(** [s[lo:]], that is [s[lo:len(s)]]. *)
Definition resliceFrom (s : slice) (lo : Z) : option slice :=
  reslice s lo (len (elems s)).

(** [make([]byte, len(data)); copy(dst, data)] *)
Definition copyOf (data : slice) : slice := mkSlice (elems data) [].

(** The state of a [bytes.Buffer] made by [bytes.NewBuffer(data)] is its
    unread bytes. *)
Definition reader := list byte.

(** [buf.Next(n)], for [n >= 0]: skips [n] bytes, or all of them when fewer
    are left. *)
Definition Next (n : Z) (r : reader) : reader := drop (Z.to_nat n) r.

(** [buf.Read(p)] for a destination of [len(p) > 0]: copies what is there, up
    to [len(p)] bytes, into the front of [p]; the error is io.EOF only when
    nothing is left to read. *)
Definition Buffer_Read (p : list byte) (r : reader)
  : (Z * option error) * list byte * reader :=
  match r with
  | [] => ((0, Some EOF), p, r)
  | _ =>
      let got := take (length p) r in
      ((len got, None), got ++ drop (length got) p, drop (length p) r)
  end.

(** [io.ReadFull] on the buffer, as [binary.Read] uses it for [n] bytes:
    all [n] bytes or an error (io.EOF when nothing was read, else
    io.ErrUnexpectedEOF). *)
Definition readFull (n : Z) (r : reader) : (error + list byte) * reader :=
  if len r <? n then
    (inl (match r with [] => EOF | _ => ErrUnexpectedEOF end), [])
  else (inr (take (Z.to_nat n) r), drop (Z.to_nat n) r).

(** binary.LittleEndian.Uint16 *)
Definition le16 (bs : list byte) : Z :=
  match bs with
  | [b0; b1] => Z.lor (byteZ b0) (Z.shiftl (byteZ b1) 8)
  | _ => 0
  end.

(** [binary.Read(buf, binary.LittleEndian, &x)] for [x] a uint16, a byte, and
    an array or slice of [n] bytes. *)
Definition binary_Read_uint16 (r : reader) : (error + Z) * reader :=
  match readFull 2 r with
  | (inl e, r) => (inl e, r)
  | (inr bs, r) => (inr (le16 bs), r)
  end.

Definition binary_Read_byte (r : reader) : (error + Z) * reader :=
  match readFull 1 r with
  | (inl e, r) => (inl e, r)
  | (inr bs, r) => (inr (match bs with [x] => byteZ x | _ => 0 end), r)
  end.

Definition binary_Read_bytes (n : Z) (r : reader) : (error + list byte) * reader :=
  readFull n r.

(** [buf.ReadString(delim)]: the bytes up to and including the first [delim];
    without a [delim], all that is left, and io.EOF. *)
Fixpoint ReadString (delim : byte) (r : reader) : (list byte * option error) * reader :=
  match r with
  | [] => (([], Some EOF), [])
  | x :: r' =>
      if bool_decide (x = delim) then (([x], None), r')
      else let '((out, err), rest) := ReadString delim r' in ((x :: out, err), rest)
  end.

(** func readString *)
Definition readString (r : reader) : (list byte * option error) * reader :=
  let '((out, err), r) := ReadString x00 r in
  match err with
  | Some e => ((out, Some e), r)
  | None => ((take (length out - 1) out, None), r)   (* Chop NUL off the end *)
  end.

(** func readMatrix: the rows are stored by index into a matrix made with
    [rows] empty strings; on an error the result is nil. *)
Fixpoint readMatrixRows (idx : list Z) (cols : Z) (matrix : list (list byte))
    (r : reader) : (error + list (list byte)) * reader :=
  match idx with
  | [] => (inr matrix, r)
  | i :: rest =>
      match binary_Read_bytes cols r with
      | (inl e, r) => (inl e, r)
      | (inr bs, r) => readMatrixRows rest cols (<[Z.to_nat i := bs]> matrix) r
      end
  end.

Definition readMatrix (r : reader) (rows cols : Z)
  : (error + list (list byte)) * reader :=
  readMatrixRows (seqZ 0 rows) cols (replicate (Z.to_nat rows) []) r.

(** ** Pieces shared by the two checksum verifiers

    Verify (package xwd) and verify (package puzzle) run the same statements
    over the text fields; the text cursor [c] and the running sums [cFile] and
    [cPart] are threaded as a triple.  [sumField] is the block of title,
    author and copyright (without the [c++] that follows it), [sumClues] the
    loop over the clues, [maskedOf] the array literal cMasked. *)

Definition sumField (d : slice) (s : list byte) (st : Z * Z * Z)
  : option (Z * Z * Z) :=
  let '(cFile, cPart, c) := st in
  if 0 <? len s then
    do x <- reslice d c (c + len s + 1);
    Some (cksum (elems x) cFile, cksum (elems x) cPart, c + len s)
  else Some (cFile, cPart, c).

Fixpoint sumClues (d : slice) (clues : list (list byte)) (st : Z * Z * Z)
  : option (Z * Z * Z) :=
  match clues with
  | [] => Some st
  | clue :: rest =>
      let '(cFile, cPart, c) := st in
      do x <- reslice d c (c + len clue);
      sumClues d rest
        (cksum (elems x) cFile, cksum (elems x) cPart, c + len clue + 1)
  end.

(** ICHEATED *)
Definition maskedOf (cCib cSol cGrid cPart : Z) : list Z :=
  [ Z.lxor 0x49 (Z.land cCib 0xFF);
    Z.lxor 0x43 (Z.land cSol 0xFF);
    Z.lxor 0x48 (Z.land cGrid 0xFF);
    Z.lxor 0x45 (Z.land cPart 0xFF);
    Z.lxor 0x41 (Z.shiftr (Z.land cCib 0xFF00) 8);
    Z.lxor 0x54 (Z.shiftr (Z.land cSol 0xFF00) 8);
    Z.lxor 0x45 (Z.shiftr (Z.land cGrid 0xFF00) 8);
    Z.lxor 0x44 (Z.shiftr (Z.land cPart 0xFF00) 8) ].

(** ** The AcrossLite provider (Sniff, Parse, Verify, Load, loadClues) *)

(** [x, err := read(buf); if err != nil { return err }]: on an error the
    function returns it with the record [a] as it stands. *)
Notation "'let?' ( x , r ) := m 'orelse' a 'in' k" :=
  (match m with
   | (inl e, _) => (Some e, a)
   | (inr x, r) => k
   end)
  (at level 10, x name, r name, m at level 100, a at level 9, k at level 200,
   format "'[v' 'let?'  ( x ,  r )  :=  m  'orelse'  a  'in' '/' k ']'").

Definition magic : list byte := bytesOf "ACROSS&DOWN" ++ [x00].

Module AcrossLite.

Record t := mk {
  Data : slice;
  Cols : Z;
  Rows : Z;
  Title : list byte;
  Author : list byte;
  Copyright : list byte;
  Notes : list byte;
  Grid : list (list byte);
  Solution : list (list byte);
  Clues : list (list byte);
  CksumFil : Z;
  CksumCib : Z;
  CksumMsk : list byte;   (* [8]byte *)
  CksumScr : Z
}.

(** &AcrossLite{} *)
Definition zero : t :=
  mk (mkSlice [] []) 0 0 [] [] [] [] [] [] [] 0 0 (replicate 8 x00) 0.

Definition set_Data (a : t) (v : slice) : t :=
  mk v (Cols a) (Rows a) (Title a) (Author a) (Copyright a) (Notes a) (Grid a)
     (Solution a) (Clues a) (CksumFil a) (CksumCib a) (CksumMsk a) (CksumScr a).
Definition set_Cols (a : t) (v : Z) : t :=
  mk (Data a) v (Rows a) (Title a) (Author a) (Copyright a) (Notes a) (Grid a)
     (Solution a) (Clues a) (CksumFil a) (CksumCib a) (CksumMsk a) (CksumScr a).
Definition set_Rows (a : t) (v : Z) : t :=
  mk (Data a) (Cols a) v (Title a) (Author a) (Copyright a) (Notes a) (Grid a)
     (Solution a) (Clues a) (CksumFil a) (CksumCib a) (CksumMsk a) (CksumScr a).
Definition set_Title (a : t) (v : list byte) : t :=
  mk (Data a) (Cols a) (Rows a) v (Author a) (Copyright a) (Notes a) (Grid a)
     (Solution a) (Clues a) (CksumFil a) (CksumCib a) (CksumMsk a) (CksumScr a).
Definition set_Author (a : t) (v : list byte) : t :=
  mk (Data a) (Cols a) (Rows a) (Title a) v (Copyright a) (Notes a) (Grid a)
     (Solution a) (Clues a) (CksumFil a) (CksumCib a) (CksumMsk a) (CksumScr a).
Definition set_Copyright (a : t) (v : list byte) : t :=
  mk (Data a) (Cols a) (Rows a) (Title a) (Author a) v (Notes a) (Grid a)
     (Solution a) (Clues a) (CksumFil a) (CksumCib a) (CksumMsk a) (CksumScr a).
Definition set_Notes (a : t) (v : list byte) : t :=
  mk (Data a) (Cols a) (Rows a) (Title a) (Author a) (Copyright a) v (Grid a)
     (Solution a) (Clues a) (CksumFil a) (CksumCib a) (CksumMsk a) (CksumScr a).
Definition set_Solution (a : t) (v : list (list byte)) : t :=
  mk (Data a) (Cols a) (Rows a) (Title a) (Author a) (Copyright a) (Notes a)
     (Grid a) v (Clues a) (CksumFil a) (CksumCib a) (CksumMsk a) (CksumScr a).
Definition set_Clues (a : t) (v : list (list byte)) : t :=
  mk (Data a) (Cols a) (Rows a) (Title a) (Author a) (Copyright a) (Notes a)
     (Grid a) (Solution a) v (CksumFil a) (CksumCib a) (CksumMsk a) (CksumScr a).
Definition set_CksumFil (a : t) (v : Z) : t :=
  mk (Data a) (Cols a) (Rows a) (Title a) (Author a) (Copyright a) (Notes a)
     (Grid a) (Solution a) (Clues a) v (CksumCib a) (CksumMsk a) (CksumScr a).
Definition set_CksumCib (a : t) (v : Z) : t :=
  mk (Data a) (Cols a) (Rows a) (Title a) (Author a) (Copyright a) (Notes a)
     (Grid a) (Solution a) (Clues a) (CksumFil a) v (CksumMsk a) (CksumScr a).
Definition set_CksumMsk (a : t) (v : list byte) : t :=
  mk (Data a) (Cols a) (Rows a) (Title a) (Author a) (Copyright a) (Notes a)
     (Grid a) (Solution a) (Clues a) (CksumFil a) (CksumCib a) v (CksumScr a).
Definition set_CksumScr (a : t) (v : Z) : t :=
  mk (Data a) (Cols a) (Rows a) (Title a) (Author a) (Copyright a) (Notes a)
     (Grid a) (Solution a) (Clues a) (CksumFil a) (CksumCib a) (CksumMsk a) v.

(** func (a *AcrossLite) Sniff(data []byte) bool *)
Definition Sniff (data : slice) : bool :=
  let buf := elems data in
  let buf := Next 2 buf in
  (* Magic bytes *)
  let magic0 := replicate 12 x00 in
  let '((_, err), magic1, _) := Buffer_Read magic0 buf in
  if bool_decide (err = None) && bool_decide (magic1 = magic) then true
  else false.

(** func (a *AcrossLite) Verify() bool, with the notes conditional first. *)
(** The condition of the notes conditional. *)
Definition notesIncluded (a : t) (cFile : Z) : bool :=
  bool_decide (cFile ≠ CksumFil a) && (0 <? len (Notes a)).

Definition sumNotes (a : t) (d : slice) (st : Z * Z * Z) : option (Z * Z * Z) :=
  let '(cFile, cPart, c) := st in
  if notesIncluded a cFile then
    do x <- reslice d c (c + len (Notes a) + 1);
    Some (cksum (elems x) cFile, cksum (elems x) cPart, c)
  else Some (cFile, cPart, c).

Definition Verify (a : t) : option bool :=
  let size := Cols a * Rows a in
  do dCib <- reslice (Data a) 0x2c (0x2c + 8);
  do dSol <- reslice (Data a) 0x34 (0x34 + size);
  do dGrid <- reslice (Data a) (0x34 + size) (0x34 + size + size);
  (* 8 bytes starting at the puzzle width *)
  let cCib := cksum (elems dCib) 0x0000 in
  if bool_decide (cCib ≠ CksumCib a) then Some false else
  (* Whole-file checksum *)
  let cFile := cCib in
  let cFile := cksum (elems dSol) cFile in
  let cFile := cksum (elems dGrid) cFile in
  (* Masked checksums *)
  let cSol := cksum (elems dSol) 0x0000 in
  let cGrid := cksum (elems dGrid) 0x0000 in
  let cPart := 0x0000 in
  (* The rest of the file *)
  let c := 0 in
  do d <- resliceFrom (Data a) (0x34 + size + size);
  do st <- sumField d (Title a) (cFile, cPart, c);
  let '(cFile, cPart, c) := st in
  let c := c + 1 in
  do st <- sumField d (Author a) (cFile, cPart, c);
  let '(cFile, cPart, c) := st in
  let c := c + 1 in
  do st <- sumField d (Copyright a) (cFile, cPart, c);
  let '(cFile, cPart, c) := st in
  let c := c + 1 in
  do st <- sumClues d (Clues a) (cFile, cPart, c);
  do st <- sumNotes a d st;
  let '(cFile, cPart, c) := st in
  if bool_decide (cFile ≠ CksumFil a) then Some false else
  let cMasked := maskedOf cCib cSol cGrid cPart in
  if bool_decide (cMasked ≠ (byteZ <$> CksumMsk a)) then Some false else
  Some true.

(** The clue loop of Parse. *)
Fixpoint readClues (idx : list Z) (a : t) (buf : reader)
  : (option error * t) * reader :=
  match idx with
  | [] => ((None, a), buf)
  | _ :: rest =>
      let '((str, err), buf) := readString buf in
      match err with
      | Some e => ((Some e, a), buf)
      | None => readClues rest (set_Clues a (Clues a ++ [str])) buf
      end
  end.

(** The reads of Parse, from the copy of the data to the notes field: the
    error they return, if any, and the record as they leave it. *)
Definition parseFields (a : t) (data : slice) : option error * t :=
  let a := set_Data a (copyOf data) in
  let buf := elems data in
  (* Whole-file checksum *)
  let? (v, buf) := binary_Read_uint16 buf orelse a in
  let a := set_CksumFil a v in
  (* Magic bytes *)
  let buf := Next 12 buf in
  (* Checksums *)
  let? (v, buf) := binary_Read_uint16 buf orelse a in
  let a := set_CksumCib a v in
  let? (v, buf) := binary_Read_bytes 8 buf orelse a in
  let a := set_CksumMsk a v in
  (* Version string *)
  let buf := Next 4 buf in
  (* Junk (Reserved1C) *)
  let buf := Next 2 buf in
  (* Scrambled puzzle checksum *)
  let? (v, buf) := binary_Read_uint16 buf orelse a in
  let a := set_CksumScr a v in
  (* Junk (Reserved20) *)
  let buf := Next 12 buf in
  (* Dimensions *)
  let? (cols, buf) := binary_Read_byte buf orelse a in
  let? (rows, buf) := binary_Read_byte buf orelse a in
  let a := set_Cols a cols in
  let a := set_Rows a rows in
  (* Number of clues *)
  let? (numClues, buf) := binary_Read_uint16 buf orelse a in
  (* Junk (Unknown bitmask) *)
  let buf := Next 2 buf in
  (* Scrambled tag *)
  let? (scrambled, buf) := binary_Read_uint16 buf orelse a in
  if bool_decide (scrambled ≠ 0x0000) then (Some ErrScrambled, a) else
  (* Read solution matrix *)
  let? (sol, buf) := readMatrix buf (Rows a) (Cols a) orelse (set_Solution a []) in
  let a := set_Solution a sol in
  (* Read cell grid matrix *)
  let buf := Next (Rows a * Cols a) buf in
  let '((str, err), buf) := readString buf in
  let a := set_Title a str in
  if err is Some e then (Some e, a) else
  let '((str, err), buf) := readString buf in
  let a := set_Author a str in
  if err is Some e then (Some e, a) else
  let '((str, err), buf) := readString buf in
  let a := set_Copyright a str in
  if err is Some e then (Some e, a) else
  let a := set_Clues a [] in
  let '((err, a), buf) := readClues (seqZ 0 numClues) a buf in
  if err is Some e then (Some e, a) else
  let '((str, err), buf) := readString buf in
  let a := set_Notes a str in
  (* io.EOF is allowable here and shouldn't cause an error. *)
  if bool_decide (err ≠ None) && bool_decide (err ≠ Some EOF)
  then (err, a) else
  (None, a).

(** func (a *AcrossLite) Parse(data []byte) error *)
Definition Parse (a : t) (data : slice) : option (option error * t) :=
  match parseFields a data with
  | (Some e, a) => Some (Some e, a)
  | (None, a) =>
      (* Having verified the structure of the puzzle, now check the
         checksums. *)
      do ok <- Verify a;
      if negb ok then Some (Some ErrChecksums, a) else Some (None, a)
  end.

(** [l[i].Clue = s]: panics unless [0 <= i < len(l)]. *)
Definition set_Clue_text (l : list Clue) (i : Z) (s : list byte)
  : option (list Clue) :=
  do cl <- index l i;
  Some (<[Z.to_nat i := mkClue (Num cl) s]> l).

Definition with_clues (p : Puzzle.t) (across down : list Clue) : Puzzle.t :=
  Puzzle.mk (Puzzle.Cols p) (Puzzle.Rows p) (Puzzle.Title p) (Puzzle.Author p)
    (Puzzle.Copyright p) (Puzzle.Notes p) (Puzzle.solution p)
    (Puzzle.cellCoords p) across down.

(** The body of the loop of loadClues on the puzzle and the two cursors. *)
Definition loadClue (aMax dMax : Z) (clue : list byte)
    (st : Puzzle.t * Z * Z) : option (Puzzle.t * Z * Z) :=
  let '(p, aIdx, dIdx) := st in
  if dMax <=? dIdx then
    (* We're out of down squares, so this must be an across clue *)
    do across <- set_Clue_text (Puzzle.cluesAcross p) aIdx clue;
    Some (with_clues p across (Puzzle.cluesDown p), aIdx + 1, dIdx)
  else if aMax <=? aIdx then
    (* We're out of across squares, so this must be a down clue *)
    do down <- set_Clue_text (Puzzle.cluesDown p) dIdx clue;
    Some (with_clues p (Puzzle.cluesAcross p) down, aIdx, dIdx + 1)
  else
    do cd <- index (Puzzle.cluesDown p) dIdx;
    do ca <- index (Puzzle.cluesAcross p) aIdx;
    if Num cd <? Num ca then
      do down <- set_Clue_text (Puzzle.cluesDown p) dIdx clue;
      Some (with_clues p (Puzzle.cluesAcross p) down, aIdx, dIdx + 1)
    else
      do across <- set_Clue_text (Puzzle.cluesAcross p) aIdx clue;
      Some (with_clues p across (Puzzle.cluesDown p), aIdx + 1, dIdx).

Fixpoint loadCluesLoop (aMax dMax : Z) (clues : list (list byte))
    (st : Puzzle.t * Z * Z) : option (Puzzle.t * Z * Z) :=
  match clues with
  | [] => Some st
  | clue :: rest =>
      do st <- loadClue aMax dMax clue st;
      loadCluesLoop aMax dMax rest st
  end.

(** func (a *AcrossLite) loadClues(p *Puzzle) *)
Definition loadClues (a : t) (p : Puzzle.t) : option Puzzle.t :=
  let aIdx := 0 in
  let dIdx := 0 in
  let aMax := len (Puzzle.cluesAcross p) in
  let dMax := len (Puzzle.cluesDown p) in
  do st <- loadCluesLoop aMax dMax (Clues a) (p, aIdx, dIdx);
  Some st.1.1.

(** func (a *AcrossLite) Load(p *Puzzle); the error of SetSolution is
    dropped, as in the source. *)
Definition Load (a : t) (p : Puzzle.t) : option Puzzle.t :=
  let p := Puzzle.mk (Cols a) (Rows a) (Title a) (Author a) (Copyright a)
             (Notes a) (Puzzle.solution p) (Puzzle.cellCoords p)
             (Puzzle.cluesAcross p) (Puzzle.cluesDown p) in
  do r <- Puzzle.SetSolution p (Solution a);
  loadClues a r.2.

End AcrossLite.

(** func (p *Puzzle) Load(data []byte) error, of package xwd. *)
Definition Puzzle_Load (p : Puzzle.t) (data : slice)
  : option (option error * Puzzle.t) :=
  let provider := AcrossLite.zero in
  if AcrossLite.Sniff data then
    do r <- AcrossLite.Parse provider data;
    match r with
    | (Some err, _) => Some (Some err, p)
    | (None, provider) =>
        do p <- AcrossLite.Load provider p;
        Some (None, p)
    end
  else Some (Some NoProviderFound, p).

(** ** The older decoder of package puzzle (puzzle/puzzle.go)

    Its cksum, readMatrix and readString have the same text as those of
    package xwd and are the definitions above. *)

Module Legacy.

Record t := mk {
  version : list byte;
  cols : Z;
  rows : Z;
  solution : list (list byte);
  state : list (list byte);
  title : list byte;
  author : list byte;
  copyright : list byte;
  clues : list (list byte);
  notes : list byte
}.

Record puzzleChecksums := mkSums {
  file : Z;
  cib : Z;
  masked : list byte;   (* [8]byte *)
  scrambled : Z
}.

(** &Puzzle{} and &puzzleChecksums{} *)
Definition zero : t := mk [] 0 0 [] [] [] [] [] [] [].
Definition zeroSums : puzzleChecksums := mkSums 0 0 (replicate 8 x00) 0.

Definition set_version (p : t) (v : list byte) : t :=
  mk v (cols p) (rows p) (solution p) (state p) (title p) (author p)
     (copyright p) (clues p) (notes p).
Definition set_cols (p : t) (v : Z) : t :=
  mk (version p) v (rows p) (solution p) (state p) (title p) (author p)
     (copyright p) (clues p) (notes p).
Definition set_rows (p : t) (v : Z) : t :=
  mk (version p) (cols p) v (solution p) (state p) (title p) (author p)
     (copyright p) (clues p) (notes p).
Definition set_solution (p : t) (v : list (list byte)) : t :=
  mk (version p) (cols p) (rows p) v (state p) (title p) (author p)
     (copyright p) (clues p) (notes p).
Definition set_state (p : t) (v : list (list byte)) : t :=
  mk (version p) (cols p) (rows p) (solution p) v (title p) (author p)
     (copyright p) (clues p) (notes p).
Definition set_title (p : t) (v : list byte) : t :=
  mk (version p) (cols p) (rows p) (solution p) (state p) v (author p)
     (copyright p) (clues p) (notes p).
Definition set_author (p : t) (v : list byte) : t :=
  mk (version p) (cols p) (rows p) (solution p) (state p) (title p) v
     (copyright p) (clues p) (notes p).
Definition set_copyright (p : t) (v : list byte) : t :=
  mk (version p) (cols p) (rows p) (solution p) (state p) (title p) (author p)
     v (clues p) (notes p).
Definition set_clues (p : t) (v : list (list byte)) : t :=
  mk (version p) (cols p) (rows p) (solution p) (state p) (title p) (author p)
     (copyright p) v (notes p).
Definition set_notes (p : t) (v : list byte) : t :=
  mk (version p) (cols p) (rows p) (solution p) (state p) (title p) (author p)
     (copyright p) (clues p) v.

(** The loop over the four version bytes: [rest] are the bytes from index
    [i] on, [cur] is p.version so far. *)
Fixpoint versionLoop (i : nat) (rest version cur : list byte) : list byte :=
  match rest with
  | [] => cur
  | x :: rest' =>
      if bool_decide (x = x00) then take i version
      else versionLoop (S i) rest' version version
  end.

(** The condition of the notes conditional. *)
Definition notesIncluded (p : t) : bool :=
  bool_decide (version p ≠ bytesOf "1.2") &&
  bool_decide (version p ≠ bytesOf "1.2c") &&
  (0 <? len (notes p)).

Definition sumNotes (p : t) (d : slice) (st : Z * Z * Z) : option (Z * Z * Z) :=
  let '(cFile, cPart, c) := st in
  if notesIncluded p then
    do x <- reslice d c (c + len (notes p) + 1);
    Some (cksum (elems x) cFile, cksum (elems x) cPart, c)
  else Some (cFile, cPart, c).

(** func (p *Puzzle) verify(data []byte, sum *puzzleChecksums) bool *)
Definition verify (p : t) (data : slice) (sum : puzzleChecksums) : option bool :=
  let size := cols p * rows p in
  do dCib <- reslice data 0x2c (0x2c + 8);
  do dSol <- reslice data 0x34 (0x34 + size);
  do dState <- reslice data (0x34 + size) (0x34 + size + size);
  (* 8 bytes starting at the puzzle width *)
  let cCib := cksum (elems dCib) 0x0000 in
  if bool_decide (cCib ≠ cib sum) then Some false else
  (* Whole-file checksum *)
  let cFile := cCib in
  let cFile := cksum (elems dSol) cFile in
  let cFile := cksum (elems dState) cFile in
  (* Masked checksums *)
  let cSol := cksum (elems dSol) 0x0000 in
  let cState := cksum (elems dState) 0x0000 in
  let cPart := 0x0000 in
  (* The rest of the file *)
  let c := 0 in
  do d <- resliceFrom data (0x34 + size + size);
  do st <- sumField d (title p) (cFile, cPart, c);
  let '(cFile, cPart, c) := st in
  let c := c + 1 in
  do st <- sumField d (author p) (cFile, cPart, c);
  let '(cFile, cPart, c) := st in
  let c := c + 1 in
  do st <- sumField d (copyright p) (cFile, cPart, c);
  let '(cFile, cPart, c) := st in
  let c := c + 1 in
  do st <- sumClues d (clues p) (cFile, cPart, c);
  do st <- sumNotes p d st;
  let '(cFile, cPart, c) := st in
  if bool_decide (cFile ≠ file sum) then Some false else
  let cMasked := maskedOf cCib cSol cState cPart in
  if bool_decide (cMasked ≠ (byteZ <$> masked sum)) then Some false else
  Some true.

(** The clue loop of Load. *)
Fixpoint readClues (idx : list Z) (p : t) (buf : reader)
  : (option error * t) * reader :=
  match idx with
  | [] => ((None, p), buf)
  | _ :: rest =>
      let '((str, err), buf) := readString buf in
      match err with
      | Some e => ((Some e, p), buf)
      | None => readClues rest (set_clues p (clues p ++ [str])) buf
      end
  end.

(** The reads of Load, up to the notes field: the error they return, if
    any, the puzzle as they leave it and the checksums read. *)
Definition loadFields (p : t) (data : slice)
  : option error * (t * puzzleChecksums) :=
  let sum := zeroSums in
  let buf := elems data in
  (* Whole-file checksum *)
  let? (v, buf) := binary_Read_uint16 buf orelse (p, sum) in
  let sum := mkSums v (cib sum) (masked sum) (scrambled sum) in
  (* Magic bytes *)
  let? (magicBytes, buf) := binary_Read_bytes (len magic) buf orelse (p, sum) in
  if bool_decide (magicBytes ≠ magic) then (Some ErrNotAcrossLite, (p, sum)) else
  (* Checksums *)
  let? (v, buf) := binary_Read_uint16 buf orelse (p, sum) in
  let sum := mkSums (file sum) v (masked sum) (scrambled sum) in
  let? (v, buf) := binary_Read_bytes 8 buf orelse (p, sum) in
  let sum := mkSums (file sum) (cib sum) v (scrambled sum) in
  (* Version string *)
  let? (ver, buf) := binary_Read_bytes 4 buf orelse (p, sum) in
  let p := set_version p (versionLoop 0 ver ver (version p)) in
  (* Junk? *)
  let buf := Next 2 buf in
  (* Scrambled puzzle checksum *)
  let? (v, buf) := binary_Read_uint16 buf orelse (p, sum) in
  let sum := mkSums (file sum) (cib sum) (masked sum) v in
  (* Junk? *)
  let buf := Next 12 buf in
  (* Dimensions *)
  let? (c, buf) := binary_Read_byte buf orelse (p, sum) in
  let? (r, buf) := binary_Read_byte buf orelse (p, sum) in
  let p := set_cols p c in
  let p := set_rows p r in
  (* Number of clues *)
  let? (numClues, buf) := binary_Read_uint16 buf orelse (p, sum) in
  (* Junk? *)
  let buf := Next 2 buf in
  (* Scrambled tag *)
  let? (tag, buf) := binary_Read_uint16 buf orelse (p, sum) in
  if bool_decide (tag ≠ 0x0000) then (Some ErrScrambled, (p, sum)) else
  (* Read solution matrix *)
  let? (m, buf) := readMatrix buf (rows p) (cols p) orelse (set_solution p [], sum) in
  let p := set_solution p m in
  (* Read cell state matrix *)
  let? (m, buf) := readMatrix buf (rows p) (cols p) orelse (set_state p [], sum) in
  let p := set_state p m in
  let '((str, err), buf) := readString buf in
  let p := set_title p str in
  if err is Some e then (Some e, (p, sum)) else
  let '((str, err), buf) := readString buf in
  let p := set_author p str in
  if err is Some e then (Some e, (p, sum)) else
  let '((str, err), buf) := readString buf in
  let p := set_copyright p str in
  if err is Some e then (Some e, (p, sum)) else
  let p := set_clues p [] in
  let '((err, p), buf) := readClues (seqZ 0 numClues) p buf in
  if err is Some e then (Some e, (p, sum)) else
  let '((str, err), buf) := readString buf in
  let p := set_notes p str in
  (* io.EOF is allowable here and shouldn't cause an error. *)
  if bool_decide (err ≠ None) && bool_decide (err ≠ Some EOF)
  then (err, (p, sum)) else
  (None, (p, sum)).

(** func (p *Puzzle) Load(data []byte) error *)
Definition Load (p : t) (data : slice) : option (option error * t) :=
  match loadFields p data with
  | (Some e, (p, _)) => Some (Some e, p)
  | (None, (p, sum)) =>
      (* Having verified the structure of the puzzle, now check the
         checksums. *)
      do ok <- verify p data sum;
      if negb ok then Some (Some ErrChecksums, p) else Some (None, p)
  end.

End Legacy.

(** ** The numbering rule in the words of the specification

    These definitions follow the specification, not the code: the grid is
    read through a total lookup, and a cell's number is the count of numbered
    cells that come before it in row-major order. *)

Abbreviation cell := (Z * Z)%type.

(** The cell at (row, col) is black; false outside the grid. *)
Definition blackAt (g : list (list byte)) (row col : Z) : bool :=
  match index g row with
  | Some r =>
      match index r col with
      | Some x => bool_decide (x = P_BLACK_0)
      | None => false
      end
  | None => false
  end.

(** A non-black cell starts an across entry iff (col is 0, or the cell to its
    left is black) and (col+1 is within bounds and the cell to its right is
    not black). *)
Definition startsAcross (g : list (list byte)) (cols : Z) (x : cell) : bool :=
  let '(row, col) := x in
  negb (blackAt g row col)
  && ((col =? 0) || blackAt g row (col - 1))
  && ((col + 1 <? cols) && negb (blackAt g row (col + 1))).

(** A non-black cell starts a down entry iff (row is 0, or the cell above is
    black) and (row+1 is within bounds and the cell below is not black). *)
Definition startsDown (g : list (list byte)) (rows : Z) (x : cell) : bool :=
  let '(row, col) := x in
  negb (blackAt g row col)
  && ((row =? 0) || blackAt g (row - 1) col)
  && ((row + 1 <? rows) && negb (blackAt g (row + 1) col)).

(** A numbered cell starts at least one entry. *)
Definition numbered (g : list (list byte)) (rows cols : Z) (x : cell) : bool :=
  startsAcross g cols x || startsDown g rows x.

(** Row-major order: row 0 left to right, then row 1, ... *)
Definition scanOf (rs cs : list Z) : list cell :=
  flat_map (fun i => map (fun j => (i, j)) cs) rs.

Definition scan (rows cols : Z) : list cell :=
  scanOf (seqZ 0 rows) (seqZ 0 cols).

(** A cell inside the grid. *)
Definition inGrid (rows cols : Z) (x : cell) : bool :=
  (0 <=? x.1) && (x.1 <? rows) && (0 <=? x.2) && (x.2 <? cols).

(** [x] comes before [y] in row-major order. *)
Definition before (x y : cell) : bool :=
  (x.1 <? y.1) || ((x.1 =? y.1) && (x.2 <? y.2)).

Definition lexLt (x y : cell) : Prop := before x y = true.

(** The number of a cell: how many numbered cells come before it. *)
Definition cellNumber (g : list (list byte)) (rows cols : Z) (x : cell) : Z :=
  len (List.filter (fun y => numbered g rows cols y && before y x)
         (scan rows cols)).

(** A clue slot: the cell's number and an empty text. *)
Definition slot (g : list (list byte)) (rows cols : Z) (x : cell) : Clue :=
  mkClue (cellNumber g rows cols x) [].

(** The cell-number mapping after the cells [pre] have been scanned: every
    numbered cell of [pre] with its number. *)
Definition coordsOf (g : list (list byte)) (rows cols : Z) (pre : list cell)
  : gmap cell Z :=
  list_to_map
    (map (fun x => (x, cellNumber g rows cols x))
       (List.filter (numbered g rows cols) (rev pre))).

(** The puzzle and the counter after SetSolution has scanned the cells [pre]
    of the grid [g]. *)
Definition numberedState (p : Puzzle.t) (g : list (list byte)) (pre : list cell)
  : Puzzle.t * Z :=
  let rows := Puzzle.Rows p in
  let cols := Puzzle.Cols p in
  (Puzzle.mk cols rows (Puzzle.Title p) (Puzzle.Author p) (Puzzle.Copyright p)
     (Puzzle.Notes p) g
     (coordsOf g rows cols pre)
     (map (slot g rows cols) (List.filter (startsAcross g cols) pre))
     (map (slot g rows cols) (List.filter (startsDown g rows) pre)),
   len (List.filter (numbered g rows cols) pre)).

(** The declared dimensions fit the grid. *)
Definition fits (rows cols : Z) (g : list (list byte)) : Prop :=
  len g = rows /\ Forall (fun r => len r = cols) g.

(** Strictly increasing lists of numbers. *)
Definition increasing (l : list Z) : Prop := StronglySorted Z.lt l.

(** Two grids of the same shape with their black cells at the same places. *)
Definition samePattern (g1 g2 : list (list byte)) : Prop :=
  Forall2 (Forall2 (fun x y => x = P_BLACK_0 <-> y = P_BLACK_0)) g1 g2.

(** The errors of SetSolution. *)
Definition dimensionError (e : error) : Prop :=
  e = ErrGridRows \/ exists i, e = ErrGridCols i.

(** ** The file layout and the checksums in the words of the specification

    These definitions follow the layout table and the checksum rules of the
    specification, not the code.  A [layout] holds the fields of a file in
    the order of the table; [encode] lays them out.  The scrambled tag is
    zero.  The notes are the bytes after the last clue up to the first NUL;
    [lyRest] is what follows them: [None] when the buffer ends without a NUL
    (the notes run off the end), [Some extra] for a NUL and the bytes after
    it. *)

Record layout := mkLayout {
  lyCksumFil : list byte;        (* 0x00, 2 bytes *)
  lyMagic : list byte;           (* 0x02, 12 bytes *)
  lyCksumCib : list byte;        (* 0x0E, 2 bytes *)
  lyCksumMsk : list byte;        (* 0x10, 8 bytes *)
  lyVersion : list byte;         (* 0x18, 4 bytes *)
  lyReserved1C : list byte;      (* 0x1C, 2 bytes *)
  lyCksumScr : list byte;        (* 0x1E, 2 bytes *)
  lyReserved20 : list byte;      (* 0x20, 12 bytes *)
  lyCols : byte;                 (* 0x2C *)
  lyRows : byte;                 (* 0x2D *)
  lyNumClues : list byte;        (* 0x2E, 2 bytes *)
  lyBitmask : list byte;         (* 0x30, 2 bytes *)
  lySolution : list (list byte); (* 0x34, rows of cols bytes *)
  lyState : list byte;           (* rows x cols bytes *)
  lyTitle : list byte;
  lyAuthor : list byte;
  lyCopyright : list byte;
  lyClues : list (list byte);
  lyNotes : list byte;
  lyRest : option (list byte)
}.

Definition NUL : byte := x00.

(** A run of NUL-terminated strings. *)
Definition terminated (strs : list (list byte)) : list byte :=
  flat_map (fun s => s ++ [NUL]) strs.

(** The 8 bytes at offset 0x2C: width, height, clue count, bitmask,
    scrambled tag. *)
Definition cibBytes (L : layout) : list byte :=
  [lyCols L; lyRows L] ++ lyNumClues L ++ lyBitmask L ++ [NUL; NUL].

Definition tailBytes (L : layout) : list byte :=
  lyNotes L ++ match lyRest L with None => [] | Some extra => NUL :: extra end.

Definition textBytes (L : layout) : list byte :=
  terminated [lyTitle L; lyAuthor L; lyCopyright L] ++
  terminated (lyClues L) ++ tailBytes L.

Definition headBytes (L : layout) : list byte :=
  lyCksumFil L ++ lyMagic L ++ lyCksumCib L ++ lyCksumMsk L ++ lyVersion L ++
  lyReserved1C L ++ lyCksumScr L ++ lyReserved20 L.

Definition encode (L : layout) : list byte :=
  headBytes L ++ cibBytes L ++ concat (lySolution L) ++ lyState L ++ textBytes L.

Definition nulFree (s : list byte) : Prop := NUL ∉ s.

Record wellFormed (L : layout) : Prop := mkWellFormed {
  wfCksumFil : length (lyCksumFil L) = 2%nat;
  wfMagic : length (lyMagic L) = 12%nat;
  wfCksumCib : length (lyCksumCib L) = 2%nat;
  wfCksumMsk : length (lyCksumMsk L) = 8%nat;
  wfVersion : length (lyVersion L) = 4%nat;
  wfReserved1C : length (lyReserved1C L) = 2%nat;
  wfCksumScr : length (lyCksumScr L) = 2%nat;
  wfReserved20 : length (lyReserved20 L) = 12%nat;
  wfNumClues : length (lyNumClues L) = 2%nat;
  wfBitmask : length (lyBitmask L) = 2%nat;
  wfSolution : fits (byteZ (lyRows L)) (byteZ (lyCols L)) (lySolution L);
  wfState : len (lyState L) = byteZ (lyRows L) * byteZ (lyCols L);
  wfTitle : nulFree (lyTitle L);
  wfAuthor : nulFree (lyAuthor L);
  wfCopyright : nulFree (lyCopyright L);
  wfClues : Forall nulFree (lyClues L);
  wfClueCount : le16 (lyNumClues L) = len (lyClues L);
  wfNotes : nulFree (lyNotes L)
}.

(** A text field enters a checksum only if non-empty, followed by its
    terminating NUL. *)
Definition withNUL (s : list byte) : list byte :=
  match s with [] => [] | _ => s ++ [NUL] end.

(** The text tail of the whole-file checksum before the notes: title, author,
    copyright, then each clue text without its NUL. *)
Definition textChain (L : layout) : list byte :=
  withNUL (lyTitle L) ++ withNUL (lyAuthor L) ++ withNUL (lyCopyright L) ++
  concat (lyClues L).

(** The checksums computed each from zero. *)
Definition cibSum (L : layout) : Z := cksum (cibBytes L) 0.
Definition solSum (L : layout) : Z := cksum (concat (lySolution L)) 0.
Definition stateSum (L : layout) : Z := cksum (lyState L) 0.

(** The whole-file chain up to the notes: from the CIB checksum over the
    solution, the state and the text. *)
Definition fileSumBefore (L : layout) : Z :=
  cksum (textChain L) (cksum (lyState L) (cksum (concat (lySolution L)) (cibSum L))).

(** The notes enter the chain only if that is required to make the running
    whole-file checksum match the declared value and the notes are
    non-empty. *)
Definition notesEnter (L : layout) : bool :=
  bool_decide (fileSumBefore L ≠ le16 (lyCksumFil L)) &&
  bool_decide (lyNotes L ≠ []).

(** The bytes the notes add to a chain: the text and its NUL when the notes
    are included, nothing otherwise. *)
Definition notesChain (incl : bool) (L : layout) : list byte :=
  if incl then lyNotes L ++ [NUL] else [].

(** The whole-file checksum, with or without the notes. *)
Definition fileSum (incl : bool) (L : layout) : Z :=
  cksum (notesChain incl L) (fileSumBefore L).

(** The partial checksum: the same text ranges, from zero. *)
Definition partSum (incl : bool) (L : layout) : Z :=
  cksum (textChain L ++ notesChain incl L) 0.

(** The masked checksum: "ICHEATED" against the low bytes, then the high
    bytes, of the CIB, solution, state and partial checksums. *)
Definition maskedSum (incl : bool) (L : layout) : list Z :=
  zip_with Z.lxor (byteZ <$> bytesOf "ICHEATED")
    (((fun v => v mod 256) <$> [cibSum L; solSum L; stateSum L; partSum incl L]) ++
     ((fun v => v / 256) <$> [cibSum L; solSum L; stateSum L; partSum incl L])).

(** The version string as package puzzle reads it: the four bytes up to the
    first NUL. *)
Definition versionOf (L : layout) : list byte :=
  Legacy.versionLoop 0 (lyVersion L) (lyVersion L) [].

(** The rule of package puzzle: the notes enter unless the version is "1.2"
    or "1.2c" or the notes are empty. *)
Definition notesEnterLegacy (L : layout) : bool :=
  bool_decide (versionOf L ≠ bytesOf "1.2") &&
  bool_decide (versionOf L ≠ bytesOf "1.2c") &&
  bool_decide (lyNotes L ≠ []).

(** The record Parse leaves for a file laid out as [L]. *)
Definition parsed (a : AcrossLite.t) (L : layout) : AcrossLite.t :=
  AcrossLite.mk (mkSlice (encode L) []) (byteZ (lyCols L)) (byteZ (lyRows L))
    (lyTitle L) (lyAuthor L) (lyCopyright L) (lyNotes L) (AcrossLite.Grid a)
    (lySolution L) (lyClues L) (le16 (lyCksumFil L)) (le16 (lyCksumCib L))
    (lyCksumMsk L) (le16 (lyCksumScr L)).

(** The puzzle and the checksums Load of package puzzle leaves for a file laid
    out as [L]. *)
Fixpoint rowsOf (n cols : nat) (l : list byte) : list (list byte) :=
  match n with
  | O => []
  | S n => take cols l :: rowsOf n cols (drop cols l)
  end.

Definition stateRows (L : layout) : list (list byte) :=
  rowsOf (Z.to_nat (byteZ (lyRows L))) (Z.to_nat (byteZ (lyCols L))) (lyState L).

Definition loaded (L : layout) : Legacy.t :=
  Legacy.mk (versionOf L) (byteZ (lyCols L)) (byteZ (lyRows L)) (lySolution L)
    (stateRows L) (lyTitle L) (lyAuthor L) (lyCopyright L) (lyClues L)
    (lyNotes L).

Definition loadedSums (L : layout) : Legacy.puzzleChecksums :=
  Legacy.mkSums (le16 (lyCksumFil L)) (le16 (lyCksumCib L)) (lyCksumMsk L)
    (le16 (lyCksumScr L)).

(** The smallest files: an empty grid, no clues, empty title, author and
    copyright, CIB checksum 0. *)
Definition tinyLayout (cksumFil cksumMsk version notes : list byte)
    (rest : option (list byte)) : layout :=
  mkLayout cksumFil magic [x00; x00] cksumMsk version [x00; x00] [x00; x00]
    (replicate 12 x00) x00 x00 [x00; x00] [x00; x00] [] [] [] [] [] [] notes rest.

(** Notes "x" running off the end; all checksums are those of a file without
    notes. *)
Definition layoutNotesCut : layout :=
  tinyLayout [x00; x00] (bytesOf "ICHEATED") (bytesOf "1.3" ++ [x00])
    (bytesOf "x") None.

Definition fileNotesCut : list byte := encode layoutNotesCut.

(** The same with a declared whole-file checksum of 1. *)
Definition layoutNotesCutMismatch : layout :=
  tinyLayout [x01; x00] (bytesOf "ICHEATED") (bytesOf "1.3" ++ [x00])
    (bytesOf "x") None.

Definition fileNotesCutMismatch : list byte := encode layoutNotesCutMismatch.

(** Version "1.2", notes "x" with their NUL, and the checksums of a file whose
    notes are summed: the checksum of "x" and a NUL from 0 is 0x003c. *)
Definition layoutV12Notes : layout :=
  tinyLayout [x3c; x00] (bytesOf "ICHyATED") (bytesOf "1.2" ++ [x00])
    (bytesOf "x") (Some []).


(** Version "1.3", notes "x" with their NUL, and the checksums of a file
    whose notes are not summed. *)
Definition layoutV13Plain : layout :=
  tinyLayout [x00; x00] (bytesOf "ICHEATED") (bytesOf "1.3" ++ [x00])
    (bytesOf "x") (Some []).

Definition fileV13Plain : list byte := encode layoutV13Plain.

(** A layout with another version field. *)
Definition withVersion (v : list byte) (L : layout) : layout :=
  mkLayout (lyCksumFil L) (lyMagic L) (lyCksumCib L) (lyCksumMsk L) v
    (lyReserved1C L) (lyCksumScr L) (lyReserved20 L) (lyCols L) (lyRows L)
    (lyNumClues L) (lyBitmask L) (lySolution L) (lyState L) (lyTitle L)
    (lyAuthor L) (lyCopyright L) (lyClues L) (lyNotes L) (lyRest L).

(** A file with its three declared checksums filled in as the specification
    computes them, the notes summed or not. *)
Definition u16le (v : Z) : list byte := [byteOf (v mod 256); byteOf (v / 256)].

Definition summed (incl : bool) (L : layout) : layout :=
  mkLayout (u16le (fileSum incl L)) (lyMagic L) (u16le (cibSum L))
    (byteOf <$> maskedSum incl L) (lyVersion L)
    (lyReserved1C L) (lyCksumScr L) (lyReserved20 L) (lyCols L) (lyRows L)
    (lyNumClues L) (lyBitmask L) (lySolution L) (lyState L) (lyTitle L)
    (lyAuthor L) (lyCopyright L) (lyClues L) (lyNotes L) (lyRest L).

(** A 3x3 puzzle with a title, an author, two clues and notes. *)
Definition layoutPets : layout :=
  summed true
    (mkLayout [x00; x00] magic [x00; x00] (replicate 8 x00)
       (bytesOf "1.3" ++ [x00]) [x00; x00] [x00; x00] (replicate 12 x00)
       x03 x03 (u16le 2) [x01; x00]
       (bytesOf <$> ["CAT"; "..A"; "..N"]%string) (bytesOf "---..-..-")
       (bytesOf "Pets") (bytesOf "N.N.") []
       [bytesOf "Feline"; bytesOf "Brown"] (bytesOf "a note") (Some [])).

(** Thirteen bytes: two zero bytes and "ACROSS&DOWN" without its NUL. *)
Definition fileShortMagic : list byte := [x00; x00] ++ bytesOf "ACROSS&DOWN".

(** The examples of the tests and of the specification. *)
Definition grid5 : list (list byte) :=
  bytesOf <$> ["CATCH"; ".BOA."; "MARNE"; ".T.O."; "FERNY"]%string.

Definition puzzle5 : Puzzle.t := Puzzle.mk 5 5 [] [] [] [] [] ∅ [] [].

Definition grid_ragged : list (list byte) :=
  bytesOf <$> ["CAT"; ".."; "..N"]%string.

Definition puzzle3 : Puzzle.t := Puzzle.mk 3 3 [] [] [] [] [] ∅ [] [].

Definition grid3 : list (list byte) :=
  bytesOf <$> ["CAT"; "..A"; "..N"]%string.

Definition grid3' : list (list byte) :=
  bytesOf <$> ["DOG"; "..O"; "..Z"]%string.

(** ** Tests of the source (cksum_test.go, puzzle_test.go) *)

Example TestCksum :
  cksum [] 0 = 0 /\
  cksum (byteOf <$> [1; 2; 3; 4; 5]) 0 = 0x1008 /\
  cksum (byteOf <$> [7; 7; 7; 7; 7; 7]) 0x002a = 0x700e /\
  cksum (byteOf <$> [100; 100; 100]) 0xffff = 0xc0ae.
Proof. vm_compute. done. Qed.

Example TestCell :
  match Puzzle.SetSolution puzzle5 grid5 with
  | Some (None, p) =>
    Puzzle.Cell p 0 0 = Some (inl (Puzzle.mkCell false 0 (0, 0) (bytesOf "C"))) /\
    Puzzle.Cell p 0 1 = Some (inl (Puzzle.mkCell false 1 (0, 1) (bytesOf "A"))) /\
    Puzzle.Cell p 2 0 = Some (inl (Puzzle.mkCell false 5 (2, 0) (bytesOf "M"))) /\
    Puzzle.Cell p 1 0 = Some (inl (Puzzle.mkCell true (-1) (1, 0) [])) /\
    Puzzle.Cell p 1 2 = Some (inl (Puzzle.mkCell false (-1) (1, 2) (bytesOf "O"))) /\
    Puzzle.Cell p 3 4 = Some (inl (Puzzle.mkCell true (-1) (3, 4) [])) /\
    Puzzle.Cell p 4 4 = Some (inl (Puzzle.mkCell false (-1) (4, 4) (bytesOf "Y"))) /\
    Puzzle.Cell p (-1) 4 = Some (inr OutOfBounds) /\
    Puzzle.Cell p 4 (-1) = Some (inr OutOfBounds) /\
    Puzzle.Cell p 5 4 = Some (inr OutOfBounds) /\
    Puzzle.Cell p 4 5 = Some (inr OutOfBounds)
  | _ => False
  end.
Proof. vm_compute. repeat split. Qed.

(** Load on a whole file: the clue texts go to the slots in number order. *)
Example TestLoad :
  match Puzzle_Load Puzzle.zero (mkSlice (encode layoutPets) []) with
  | Some (None, p) =>
      Puzzle.Rows p = 3 /\ Puzzle.Cols p = 3 /\
      Puzzle.Title p = bytesOf "Pets" /\ Puzzle.Author p = bytesOf "N.N." /\
      Puzzle.Notes p = bytesOf "a note" /\
      Puzzle.cluesAcross p = [mkClue 0 (bytesOf "Feline")] /\
      Puzzle.cluesDown p = [mkClue 1 (bytesOf "Brown")]
  | _ => False
  end /\
  match Legacy.Load Legacy.zero (mkSlice (encode layoutPets) []) with
  | Some (None, p) =>
      Legacy.version p = bytesOf "1.3" /\
      Legacy.state p = bytesOf <$> ["---"; "..-"; "..-"]%string
  | _ => False
  end.
Proof. vm_compute. repeat split. Qed.

(** A slice is checked against its capacity: with a spare byte behind the
    buffer, verify of package puzzle, which slices the caller's data, reads
    that byte as the NUL of notes that ran off the end, where Verify of
    package xwd, which slices its own copy, panics. *)
Example TestSpareCapacity :
  Legacy.Load Legacy.zero (mkSlice fileNotesCutMismatch []) = None /\
  match Legacy.Load Legacy.zero (mkSlice fileNotesCutMismatch [x00]) with
  | Some (Some ErrChecksums, _) => True
  | _ => False
  end /\
  AcrossLite.Parse AcrossLite.zero (mkSlice fileNotesCutMismatch [x00]) = None.
Proof. vm_compute. repeat split. Qed.

(** * The accessors, the loaders and the printer: definitions *)

(** ** The accessor Solution *)

Module PuzzleSolution.
Import Puzzle.

(** The zero value of Cell, as make([]Cell, n) fills a row. *)
Definition zeroCell : Cell_t := mkCell false 0 (0, 0) [].

(** The body of the inner loop of Solution: [rows[i][j] = *c], with the panic
    on an error of Cell. *)
Definition solutionCell (p : t) (i j : Z) (rows : list (list Cell_t))
  : option (list (list Cell_t)) :=
  do r <- Cell p i j;
  match r with
  | inr err => None
  | inl c =>
      do row <- index rows i;
      do _ <- index row j;
      Some (<[Z.to_nat i := <[Z.to_nat j := c]> row]> rows)
  end.

(** The body of the outer loop: [rows[i] = make([]Cell, p.Cols)], which
    panics on a negative length, and the inner loop. *)
Definition solutionRow (p : t) (i : Z) (rows : list (list Cell_t))
  : option (list (list Cell_t)) :=
  if Cols p <? 0 then None else
  do _ <- index rows i;
  let rows := <[Z.to_nat i := replicate (Z.to_nat (Cols p)) zeroCell]> rows in
  forZ 0 (Cols p) (solutionCell p i) rows.

(** func (p *Puzzle) Solution() [][]Cell *)
Definition Solution (p : t) : option (list (list Cell_t)) :=
  if Rows p <? 0 then None else
  let rows := replicate (Z.to_nat (Rows p)) [] in
  forZ 0 (Rows p) (solutionRow p) rows.
End PuzzleSolution.

(** The letter Cell reports for a cell. *)
Definition letterAt (g : list (list byte)) (row col : Z) : list byte :=
  match index g row with
  | Some r =>
      match index r col with
      | Some x => Puzzle.stringOfByte x
      | None => []
      end
  | None => []
  end.

(** The Cell of a cell of the grid [g]. *)
Definition cellOf (g : list (list byte)) (rows cols : Z) (x : cell) : Puzzle.Cell_t :=
  Puzzle.mkCell (blackAt g x.1 x.2)
    (if numbered g rows cols x then cellNumber g rows cols x else -1)
    x
    (if blackAt g x.1 x.2 then [] else letterAt g x.1 x.2).

(** ** Puzzles with the same header; white cells *)

(** The fields of a puzzle that SetSolution reads and keeps. *)
Definition sameHeader (p q : Puzzle.t) : Prop :=
  Puzzle.Cols p = Puzzle.Cols q /\ Puzzle.Rows p = Puzzle.Rows q /\
  Puzzle.Title p = Puzzle.Title q /\ Puzzle.Author p = Puzzle.Author q /\
  Puzzle.Copyright p = Puzzle.Copyright q /\ Puzzle.Notes p = Puzzle.Notes q.

(** A cell of the grid that is not black. *)
Definition white (p : Puzzle.t) (row col : Z) : Prop :=
  Puzzle.isBlackCell p row col = Some false.

(** ** The order in which loadClues hands out the clue texts *)

(** The fields loadClues does not write. *)
Definition sameButTexts (p q : Puzzle.t) : Prop :=
  Puzzle.Cols q = Puzzle.Cols p /\ Puzzle.Rows q = Puzzle.Rows p /\
  Puzzle.Title q = Puzzle.Title p /\ Puzzle.Author q = Puzzle.Author p /\
  Puzzle.Copyright q = Puzzle.Copyright p /\ Puzzle.Notes q = Puzzle.Notes p /\
  Puzzle.solution q = Puzzle.solution p /\ Puzzle.cellCoords q = Puzzle.cellCoords p /\
  map Num (Puzzle.cluesAcross q) = map Num (Puzzle.cluesAcross p) /\
  map Num (Puzzle.cluesDown q) = map Num (Puzzle.cluesDown p).

(** The place of a slot in the order of the clue texts: the slots of both
    lists by number, the across slot first where a cell starts both. *)
Definition acrossPos (down : list Clue) (i : nat) (ca : Clue) : nat :=
  i + length (List.filter (fun cd => Num cd <? Num ca) down).

Definition downPos (across : list Clue) (j : nat) (cd : Clue) : nat :=
  j + length (List.filter (fun ca => Num ca <=? Num cd) across).

(** A slot with the text of its place, or its own text when the texts run
    out before. *)
Definition withText (texts : list (list byte)) (pos : nat) (cl : Clue) : Clue :=
  mkClue (Num cl) (default (Clue_text cl) (texts !! pos)).

Definition assignAcross (across down : list Clue) (texts : list (list byte))
  : list Clue :=
  imap (fun i ca => withText texts (acrossPos down i ca) ca) across.

Definition assignDown (across down : list Clue) (texts : list (list byte))
  : list Clue :=
  imap (fun j cd => withText texts (downPos across j cd) cd) down.

(** Invariants of the loop of loadClues, with [ia] across slots and [id]
    down slots filled: a filled across slot has a number at most that of
    every free down slot, and a filled down slot a number below that of every
    free across slot. *)
Definition acrossFirst (A0 D0 : list Clue) (ia id : nat) : Prop :=
  forall i j ca cd, A0 !! i = Some ca -> D0 !! j = Some cd ->
    (i < ia)%nat -> (id <= j)%nat -> Num ca <= Num cd.

Definition downFirst (A0 D0 : list Clue) (ia id : nat) : Prop :=
  forall i j ca cd, A0 !! i = Some ca -> D0 !! j = Some cd ->
    (j < id)%nat -> (ia <= i)%nat -> Num cd < Num ca.

(** The state of the loop of loadClues after the texts [texts]. *)
Definition handedOut (A0 D0 : list Clue) (texts : list (list byte))
    (st : Puzzle.t * Z * Z) : Prop :=
  exists ia id : nat,
    st.1.2 = Z.of_nat ia /\ st.2 = Z.of_nat id /\
    Puzzle.cluesAcross st.1.1 = assignAcross A0 D0 texts /\
    Puzzle.cluesDown st.1.1 = assignDown A0 D0 texts /\
    length texts = (ia + id)%nat /\
    (ia <= length A0)%nat /\ (id <= length D0)%nat /\
    acrossFirst A0 D0 ia id /\ downFirst A0 D0 ia id.

(** ** The puzzle of a file *)

(** The clue slots SetSolution makes for a grid. *)
Definition acrossSlots (g : list (list byte)) (rows cols : Z) : list Clue :=
  map (slot g rows cols) (List.filter (startsAcross g cols) (scan rows cols)).

Definition downSlots (g : list (list byte)) (rows cols : Z) : list Clue :=
  map (slot g rows cols) (List.filter (startsDown g rows) (scan rows cols)).

(** The puzzle Load makes of a file laid out as [L]. *)
Definition loadedPuzzle (L : layout) : Puzzle.t :=
  let rows := byteZ (lyRows L) in
  let cols := byteZ (lyCols L) in
  let g := lySolution L in
  Puzzle.mk cols rows (lyTitle L) (lyAuthor L) (lyCopyright L) (lyNotes L) g
    (coordsOf g rows cols (scan rows cols))
    (assignAcross (acrossSlots g rows cols) (downSlots g rows cols) (lyClues L))
    (assignDown (acrossSlots g rows cols) (downSlots g rows cols) (lyClues L)).

(** ** Errors of the reads, parts of a record and of a file *)

(** The errors of a read that finds the buffer too short. *)
Definition eofError (e : error) : Prop := e = EOF \/ e = ErrUnexpectedEOF.

(** The error of a read of one or more bytes on a buffer too short for it:
    io.EOF on an empty buffer, io.ErrUnexpectedEOF otherwise. *)
Definition eofOf (r : reader) : error :=
  match r with [] => EOF | _ => ErrUnexpectedEOF end.

(** The grid and the text fields of a record are those of another. *)
Definition sameBody (a a' : AcrossLite.t) : Prop :=
  AcrossLite.Solution a' = AcrossLite.Solution a /\
  AcrossLite.Title a' = AcrossLite.Title a /\
  AcrossLite.Author a' = AcrossLite.Author a /\
  AcrossLite.Copyright a' = AcrossLite.Copyright a /\
  AcrossLite.Clues a' = AcrossLite.Clues a /\
  AcrossLite.Notes a' = AcrossLite.Notes a.

(** The bytes of a file before its notes. *)
Definition bodyBytes (L : layout) : list byte :=
  headBytes L ++ cibBytes L ++ concat (lySolution L) ++ lyState L ++
  terminated [lyTitle L; lyAuthor L; lyCopyright L] ++ terminated (lyClues L).

(** Two layouts that differ at most in the fields no checksum covers and
    Parse skips: the magic, the version, the two reserved areas and the
    scrambled checksum. *)
Definition sameChecked (L L' : layout) : Prop :=
  lyCksumFil L = lyCksumFil L' /\ lyCksumCib L = lyCksumCib L' /\
  lyCksumMsk L = lyCksumMsk L' /\ lyCols L = lyCols L' /\ lyRows L = lyRows L' /\
  lyNumClues L = lyNumClues L' /\ lyBitmask L = lyBitmask L' /\
  lySolution L = lySolution L' /\ lyState L = lyState L' /\
  lyTitle L = lyTitle L' /\ lyAuthor L = lyAuthor L' /\
  lyCopyright L = lyCopyright L' /\ lyClues L = lyClues L' /\
  lyNotes L = lyNotes L' /\ lyRest L = lyRest L'.

(** ** The grid printer of the xwd command (xwd/xwd.go) *)

(** var boxTop, boxLin, boxMid, boxBot: box-drawing characters, three bytes
    each in UTF-8. *)
Definition boxTop : list (list byte) := bytesOf <$> ["┌"; "─"; "┬"; "┐"]%string.
Definition boxLin : list (list byte) := bytesOf <$> ["│"; "█"; "│"; "│"]%string.
Definition boxMid : list (list byte) := bytesOf <$> ["├"; "─"; "┼"; "┤"]%string.
Definition boxBot : list (list byte) := bytesOf <$> ["└"; "─"; "┴"; "┘"]%string.

Definition newline : list byte := [x0a].

(** strings.Repeat(s, count) for a count that is not negative, and
    strings.Join(elems, sep) for the empty separator. *)
Definition Repeat (s : list byte) (count : nat) : list byte :=
  concat (replicate count s).

Definition Join (elems : list (list byte)) : list byte := concat elems.

(** func boxDivider(nCells int, box []string) string; make([]string, 0,
    nCells) panics on a negative capacity. *)
Definition dividerCell (box : list (list byte)) (out : list (list byte))
  : option (list (list byte)) :=
  do b2 <- index box 2;
  do b1 <- index box 1;
  Some (out ++ [Join [b2; Repeat b1 3]]).

Definition boxDivider (nCells : Z) (box : list (list byte)) : option (list byte) :=
  if nCells <? 0 then None else
  let out := [] in
  do b0 <- index box 0;
  do b1 <- index box 1;
  let out := out ++ [Join [b0; Repeat b1 3]] in
  do out <- forZ 1 (nCells - 1) (fun _ => dividerCell box) out;
  do b2 <- index box 2;
  do b1 <- index box 1;
  do b3 <- index box 3;
  let out := out ++ [Join [b2; Repeat b1 3; b3; newline]] in
  Some (Join out).

(** The decimal digits of an integer, with a minus sign when negative, and
    fmt.Sprintf("%3d", n): the digits after the blanks that fill them up to
    three characters. *)
Definition decimal (n : Z) : list byte :=
  bytesOf (NilEmpty.string_of_int (Z.to_int n)).

Definition Sprintf_3d (n : Z) : list byte :=
  let s := decimal n in replicate (3 - length s) x20 ++ s.

(** The text [cs] of a cell in boxRow. *)
Definition cellText (cell : Puzzle.Cell_t) (solution : bool) : option (list byte) :=
  let cs := bytesOf "   " in
  if Puzzle.Black cell then
    do b <- index boxLin 1; Some (Repeat b 3)
  else if solution then
    Some (Join [bytesOf " "; Puzzle.CellSolution cell; bytesOf " "])
  else if negb (Puzzle.CellNum cell =? -1) then
    Some (Sprintf_3d (Puzzle.CellNum cell + 1))
  else Some cs.

(** The body of the loop of boxRow; an error of Cell is a panic. *)
Definition boxRowCell (p : Puzzle.t) (i : Z) (solution : bool) (j : Z)
    (out : list (list byte)) : option (list (list byte)) :=
  do r <- Puzzle.Cell p i j;
  match r with
  | inr err => None
  | inl cell =>
      do cs <- cellText cell solution;
      if j =? 0 then
        do l0 <- index boxLin 0;
        do l2 <- index boxLin 2;
        Some (out ++ [Join [l0; cs; l2]])
      else if j + 1 =? Puzzle.Cols p then
        do l3 <- index boxLin 3;
        Some (out ++ [Join [cs; l3; newline]])
      else
        do l2 <- index boxLin 2;
        Some (out ++ [Join [cs; l2]])
  end.

(** func boxRow(p *xwd.Puzzle, row int, solution bool) string *)
Definition boxRow (p : Puzzle.t) (row : Z) (solution : bool) : option (list byte) :=
  let out := [] in
  let i := row in
  do out <- forZ 0 (Puzzle.Cols p) (boxRowCell p i solution) out;
  Some (Join out).

(** func printRow and func printGrid write to the standard output; the
    functions below return the bytes written. *)
Definition printRow (p : Puzzle.t) (row : Z) (solution : bool) : option (list byte) :=
  do top <- (if row =? 0 then boxDivider (Puzzle.Cols p) boxTop
             else boxDivider (Puzzle.Cols p) boxMid);
  do r <- boxRow p row solution;
  if row + 1 =? Puzzle.Rows p then
    do bot <- boxDivider (Puzzle.Cols p) boxBot;
    Some (top ++ r ++ bot)
  else Some (top ++ r).

Definition printGrid (p : Puzzle.t) (solution : bool) : option (list byte) :=
  forZ 0 (Puzzle.Rows p)
    (fun i out => do s <- printRow p i solution; Some (out ++ s)) [].

(** fmt.Sprintf("%3d", n) pads on the left and never cuts. *)
Example TestDecimal :
  Sprintf_3d 1 = bytesOf "  1" /\ Sprintf_3d 42 = bytesOf " 42" /\
  Sprintf_3d 999 = bytesOf "999" /\ Sprintf_3d 1000 = bytesOf "1000" /\
  Sprintf_3d 0 = bytesOf "  0" /\ Sprintf_3d (-5) = bytesOf " -5".
Proof. by vm_compute. Qed.

(** The box printGrid draws for the 3x3 grid, and its first row with the
    solution shown. *)
Example TestPrintGrid :
  match Puzzle.SetSolution puzzle3 grid3 with
  | Some (None, p) =>
      printGrid p false = Some (concat
        [bytesOf "┌───┬───┬───┐"; newline;
         bytesOf "│  1│   │  2│"; newline;
         bytesOf "├───┼───┼───┤"; newline;
         bytesOf "│███│███│   │"; newline;
         bytesOf "├───┼───┼───┤"; newline;
         bytesOf "│███│███│   │"; newline;
         bytesOf "└───┴───┴───┘"; newline]) /\
      boxRow p 0 true = Some (bytesOf "│ C │ A │ T │" ++ newline)
  | _ => False
  end.
Proof. by vm_compute. Qed.

(** The text of a cell, as boxRow chooses it. *)
Definition textOf (cell : Puzzle.Cell_t) (solution : bool) : list byte :=
  if Puzzle.Black cell then bytesOf "███"
  else if solution then bytesOf " " ++ Puzzle.CellSolution cell ++ bytesOf " "
  else if Puzzle.CellNum cell =? -1 then bytesOf "   "
  else Sprintf_3d (Puzzle.CellNum cell + 1).

Definition bar : list byte := bytesOf "│".

(** The piece boxRow appends for column [j]. *)
Definition rowPiece (cols : Z) (cs : Z -> list byte) (j : Z) : list byte :=
  if j =? 0 then bar ++ cs j ++ bar
  else if j + 1 =? cols then cs j ++ bar ++ newline
  else cs j ++ bar.



Definition rowLine (g : list (list byte)) (rows cols row : Z) (solution : bool)
  : list byte :=
  let cs j := textOf (cellOf g rows cols (row, j)) solution in
  if cols =? 0 then []
  else if cols =? 1 then bar ++ cs 0 ++ bar
  else bar ++ flat_map (fun j => cs j ++ bar) (seqZ 0 cols) ++ newline.


(** ** Further examples *)

(** fileV13Plain with the scrambled tag at 0x32 set to 4. *)
Definition fileScrambled : list byte := <[50%nat := x04]> fileV13Plain.

(** A record made by hand whose solution has a short row. *)
Definition recordRagged : AcrossLite.t :=
  AcrossLite.mk (mkSlice [] []) 3 3 [] [] [] [] [] grid_ragged [] 0 0
    (replicate 8 x00) 0.

(** A file with an empty grid that declares one clue. *)
Definition layoutExtraClue : layout :=
  summed false
    (mkLayout [x00; x00] magic [x00; x00] (replicate 8 x00)
       (bytesOf "1.3" ++ [x00]) [x00; x00] [x00; x00] (replicate 12 x00)
       x00 x00 (u16le 1) [x00; x00] [] [] [] [] [] [bytesOf "x"] [] (Some [])).

(** A puzzle with the clue slots of grid3, and the same with the two clues of
    layoutPets in them. *)
Definition puzzle3Numbered : Puzzle.t :=
  Puzzle.mk 3 3 [] [] [] [] grid3 ∅ [mkClue 0 []] [mkClue 1 []].

Definition puzzle3Loaded : Puzzle.t :=
  Puzzle.mk 3 3 [] [] [] [] grid3 ∅
    [mkClue 0 (bytesOf "Feline")] [mkClue 1 (bytesOf "Brown")].

(** A puzzle that has a solution already. *)
Definition puzzle5Used : Puzzle.t :=
  Puzzle.mk 5 5 [] [] [] [] grid_ragged ∅ [mkClue 7 (bytesOf "old")] [].

(** The parser accepts the file, the provider has no slot for its clue. *)
Example TestExtraClue :
  (exists a, AcrossLite.Parse AcrossLite.zero (mkSlice (encode layoutExtraClue) [])
             = Some (None, a)) /\
  Puzzle_Load Puzzle.zero (mkSlice (encode layoutExtraClue) []) = None.
Proof. split; [eexists|]; by vm_compute. Qed.

(** * Theorems *)

(** ** The rolling checksum *)

Lemma wrap16_range x : is_uint16 (wrap16 x).
Proof. unfold is_uint16, wrap16. apply Z.mod_pos_bound. lia. Qed.

Lemma cksumStep_range s x : is_uint16 (cksumStep s x).
Proof. apply wrap16_range. Qed.

Lemma cksum_nil s : cksum [] s = s.
Proof. reflexivity. Qed.

Lemma cksum_cons x data s : cksum (x :: data) s = cksum data (cksumStep s x).
Proof. reflexivity. Qed.

Lemma cksum_app A B s : cksum (A ++ B) s = cksum B (cksum A s).
Proof. unfold cksum. apply fold_left_app. Qed.

Lemma cksum_range data s : is_uint16 s -> is_uint16 (cksum data s).
Proof.
  revert s. induction data as [|x data IH]; intros s Hs; [exact Hs|].
  rewrite cksum_cons. apply IH, cksumStep_range.
Qed.

(** The step is a 16-bit rotation to the right followed by the addition of
    the byte, modulo 2^16. *)
Lemma cksumStep_rotate s x :
  is_uint16 s ->
  cksumStep s x = (s / 2 + 32768 * (s mod 2) + byteZ x) mod 65536.
Proof.
  intros Hs. unfold cksumStep, wrap16, is_uint16 in *.
  rewrite Z.shiftr_div_pow2 by lia. change (2 ^ 1) with 2.
  change 1 with (Z.ones 1) at 1. rewrite Z.land_ones by lia.
  change (2 ^ 1) with 2.
  assert (s mod 2 = 0 \/ s mod 2 = 1) as [E|E]
    by (pose proof (Z.mod_pos_bound s 2); lia); rewrite E; simpl.
  - f_equal. lia.
  - rewrite (Z.mod_small (s / 2 + 32768)); [f_equal; lia|].
    assert (0 <= s / 2 < 32768); [|lia].
    split; [apply Z.div_pos; lia | apply Z.div_lt_upper_bound; lia].
Qed.

(** C4: for every 16-bit seed, cksum of the empty sequence is the seed, cksum
    of a concatenation is the chained cksum, the result is again a 16-bit
    value, and the three concrete checksums of the specification hold. *)
Theorem cksum_laws (s : Z) (A B : list byte) :
  is_uint16 s ->
  cksum [] s = s /\
  cksum (A ++ B) s = cksum B (cksum A s) /\
  is_uint16 (cksum A s) /\
  cksum [] 0x0000 = 0x0000 /\
  cksum (byteOf <$> [1; 2; 3; 4; 5]) 0x0000 = 0x1008 /\
  cksum (byteOf <$> [100; 100; 100]) 0xffff = 0xc0ae.
Proof.
  intros Hs. split; [apply cksum_nil|]. split; [apply cksum_app|].
  split; [by apply cksum_range|]. by vm_compute.
Qed.

Lemma cksum_laws_witness :
  is_uint16 0xffff /\
  cksum [] 0xffff = 0xffff /\
  cksum ([byteOf 100] ++ (byteOf <$> [100; 100])) 0xffff
    = cksum (byteOf <$> [100; 100]) (cksum [byteOf 100] 0xffff) /\
  is_uint16 (cksum [byteOf 100] 0xffff) /\
  cksum [] 0x0000 = 0x0000 /\
  cksum (byteOf <$> [1; 2; 3; 4; 5]) 0x0000 = 0x1008 /\
  cksum (byteOf <$> [100; 100; 100]) 0xffff = 0xc0ae.
Proof.
  assert (H : is_uint16 0xffff) by (unfold is_uint16; lia).
  split; [exact H|]. exact (cksum_laws 0xffff [byteOf 100] (byteOf <$> [100; 100]) H).
Defined.

(** ** Indexing *)

Lemma index_Some {A} (l : list A) i x :
  index l i = Some x <-> 0 <= i /\ l !! Z.to_nat i = Some x.
Proof.
  unfold index. destruct (Z.ltb_spec i 0) as [Hlt|Hge].
  - split; [discriminate|]. intros [Hi _]. lia.
  - split; [intros H; split; [exact Hge|exact H]|]. intros [_ H]. exact H.
Qed.

Lemma index_range {A} (l : list A) i x : index l i = Some x -> 0 <= i < len l.
Proof.
  rewrite index_Some. intros [H0 H]. apply lookup_lt_Some in H.
  unfold len. lia.
Qed.

Lemma index_is_Some {A} (l : list A) i : 0 <= i < len l -> is_Some (index l i).
Proof.
  intros H. unfold index. destruct (Z.ltb_spec i 0); [lia|].
  apply lookup_lt_is_Some. unfold len in H. lia.
Qed.

Lemma index_None {A} (l : list A) i : index l i = None <-> i < 0 \/ len l <= i.
Proof.
  unfold index, len. destruct (Z.ltb_spec i 0) as [Hlt|Hge].
  - split; [intros _; left; exact Hlt|reflexivity].
  - rewrite lookup_ge_None. lia.
Qed.

(** ** Validation of the grid *)

Lemma checkCols_None cols i g :
  Puzzle.checkCols cols i g = None <-> Forall (fun r => len r = cols) g.
Proof.
  revert i. induction g as [|r g IH]; intros i; simpl.
  - split; [constructor|reflexivity].
  - rewrite Forall_cons. case_bool_decide as Hr.
    + split; [discriminate|]. intros [Hr' _]. contradiction.
    + rewrite IH. split; [intros H; split; [|exact H]|intros [_ H]; exact H].
      by destruct (decide (len r = cols)).
Qed.

Lemma checkCols_Some cols i0 g i :
  Puzzle.checkCols cols i0 g = Some i ->
  i0 <= i /\
  (exists r, index g (i - i0) = Some r /\ len r <> cols) /\
  Forall (fun r => len r = cols) (take (Z.to_nat (i - i0)) g).
Proof.
  revert i0. induction g as [|r g IH]; intros i0; simpl; [done|].
  case_bool_decide as Hr.
  - intros [= <-]. rewrite Z.sub_diag. simpl. split; [lia|]. split; [|constructor].
    exists r. done.
  - intros H. apply IH in H as (Hle & (r' & Hr' & Hne) & Hall).
    split; [lia|]. apply index_Some in Hr' as [? Hr'].
    replace (Z.to_nat (i - i0)) with (S (Z.to_nat (i - (i0 + 1)))) by lia.
    split.
    + exists r'. split; [|done]. apply index_Some. split; [lia|].
      replace (Z.to_nat (i - i0)) with (S (Z.to_nat (i - (i0 + 1)))) by lia. done.
    + simpl. constructor; [|done]. by destruct (decide (len r = cols)).
Qed.

Lemma SetSolution_error p grid :
  ~ fits (Puzzle.Rows p) (Puzzle.Cols p) grid ->
  exists e, Puzzle.SetSolution p grid = Some (Some e, p) /\ dimensionError e.
Proof.
  intros Hfit. unfold Puzzle.SetSolution.
  case_bool_decide as Hrows.
  { exists ErrGridRows. split; [done|by left]. }
  destruct (Puzzle.checkCols _ 0 grid) as [i|] eqn:Hc.
  { exists (ErrGridCols i). split; [done|]. right. by exists i. }
  exfalso. apply Hfit. split; [|by apply (checkCols_None _ 0)].
  by destruct (decide (len grid = Puzzle.Rows p)).
Qed.

Lemma not_fits rows cols grid :
  (len grid <> rows \/ exists r, r ∈ grid /\ len r <> cols) <-> ~ fits rows cols grid.
Proof.
  unfold fits. rewrite Forall_forall. split.
  - intros [H|(r & Hin & Hr)] [H1 H2]; [done|]. by apply Hr, H2.
  - intros H. destruct (decide (len grid = rows)) as [E|]; [|by left]. right.
    destruct (decide (Forall (fun r => len r = cols) grid)) as [F|F].
    + exfalso. apply H. split; [done|]. by apply Forall_forall.
    + apply not_Forall_Exists in F; [|intros ?; apply _].
      apply Exists_exists in F. done.
Qed.

(** ** Loops *)

Lemma forRange_app {I S} (body : I -> S -> option S) l1 l2 s :
  forRange body (l1 ++ l2) s =
  (do s' <- forRange body l1 s; forRange body l2 s').
Proof.
  revert s. induction l1 as [|i l1 IH]; intros s; simpl.
  - by destruct (forRange body l2 s).
  - destruct (body i s); [apply IH|done].
Qed.

Lemma forRange_map {I J S} (f : I -> J) (body : J -> S -> option S) l s :
  forRange body (map f l) s = forRange (fun i => body (f i)) l s.
Proof.
  revert s. induction l as [|i l IH]; intros s; simpl; [done|].
  destruct (body (f i) s); [apply IH|done].
Qed.

Lemma forRange_scanOf {S} (body : Z -> Z -> S -> option S) rs cs s :
  forRange (fun i => forRange (fun j => body i j) cs) rs s =
  forRange (fun x : cell => body x.1 x.2) (scanOf rs cs) s.
Proof.
  revert s. induction rs as [|i rs IH]; intros s; [done|].
  unfold scanOf. simpl. fold (scanOf rs cs).
  rewrite forRange_app, forRange_map. simpl.
  destruct (forRange _ cs s); [apply IH|done].
Qed.

(** ** The row-major scan *)

Lemma elem_of_scanOf rs cs (x : cell) :
  x ∈ scanOf rs cs <-> x.1 ∈ rs /\ x.2 ∈ cs.
Proof.
  unfold scanOf. rewrite list_elem_of_In, in_flat_map. split.
  - intros (i & Hi & Hx). apply in_map_iff in Hx as (j & <- & Hj).
    by rewrite !list_elem_of_In.
  - intros [Hi Hj]. exists x.1. rewrite <- list_elem_of_In. split; [done|].
    apply in_map_iff. exists x.2. rewrite <- list_elem_of_In. by destruct x.
Qed.

Lemma elem_of_scan rows cols (x : cell) :
  x ∈ scan rows cols <-> (0 <= x.1 < rows) /\ (0 <= x.2 < cols).
Proof. unfold scan. rewrite elem_of_scanOf, !elem_of_seqZ. lia. Qed.

Lemma seqZ_sorted m n : StronglySorted Z.lt (seqZ m n).
Proof.
  destruct (Z.le_gt_cases n 0) as [Hn|Hn].
  { rewrite seqZ_nil by done. constructor. }
  rewrite <- (Z2Nat.id n) by lia. generalize (Z.to_nat n) as k. clear.
  intros k. revert m. induction k as [|k IH]; intros m.
  { rewrite seqZ_nil by done. constructor. }
  rewrite seqZ_cons by lia. constructor.
  - replace (Z.pred (Z.of_nat (S k))) with (Z.of_nat k) by lia. apply IH.
  - apply Forall_seqZ. lia.
Qed.


Lemma before_spec x y :
  before x y = true <-> x.1 < y.1 \/ (x.1 = y.1 /\ x.2 < y.2).
Proof. unfold before. lia. Qed.

Lemma scanOf_sorted rs cs :
  StronglySorted Z.lt rs -> StronglySorted Z.lt cs ->
  StronglySorted lexLt (scanOf rs cs).
Proof.
  intros Hrs Hcs. induction Hrs as [|i rs Hrs IH Hi]; [constructor|].
  unfold scanOf. simpl. fold (scanOf rs cs).
  apply StronglySorted_app_2; [| |exact IH].
  - intros x1 x2 H1 H2. rewrite list_elem_of_In in H1.
    apply in_map_iff in H1 as (j & <- & _).
    apply elem_of_scanOf in H2 as [H2 _].
    rewrite Forall_forall in Hi. apply Hi in H2.
    apply before_spec. simpl. lia.
  - clear -Hcs. induction Hcs as [|j cs Hcs IH Hj]; [constructor|].
    simpl. constructor; [exact IH|].
    apply Forall_forall. intros x Hx. rewrite list_elem_of_In in Hx.
    apply in_map_iff in Hx as (j' & <- & Hj'). rewrite <- list_elem_of_In in Hj'.
    rewrite Forall_forall in Hj. apply Hj in Hj'. apply before_spec. simpl. lia.
Qed.

Lemma scan_sorted rows cols : StronglySorted lexLt (scan rows cols).
Proof. apply scanOf_sorted; apply seqZ_sorted. Qed.

(** In a scan split at [x], exactly the cells of the first part come before
    [x]. *)
Lemma scan_split_before rows cols pre x post :
  scan rows cols = pre ++ x :: post ->
  (forall y, y ∈ pre -> before y x = true) /\
  (forall y, y ∈ x :: post -> before y x = false).
Proof.
  intros Hs. pose proof (scan_sorted rows cols) as Hsorted. rewrite Hs in Hsorted.
  split.
  - intros y Hy. eapply (StronglySorted_app_1_elem_of _ _ _ y x) in Hsorted;
      [exact Hsorted|done|by left].
  - intros y Hy. apply StronglySorted_app_1_r in Hsorted.
    apply StronglySorted_cons in Hsorted as [Hx _].
    apply elem_of_cons in Hy as [->|Hy].
    + apply not_true_is_false. rewrite before_spec. lia.
    + rewrite Forall_forall in Hx. apply Hx in Hy. unfold lexLt in Hy.
      apply before_spec in Hy. apply not_true_is_false. rewrite before_spec. lia.
Qed.

Lemma filter_ext_elem {A} (f g : A -> bool) (l : list A) :
  (forall x, x ∈ l -> f x = g x) -> List.filter f l = List.filter g l.
Proof.
  intros H. apply List.filter_ext_in. intros x Hx. apply H. by apply list_elem_of_In.
Qed.

Lemma filter_none {A} (f : A -> bool) (l : list A) :
  (forall x, x ∈ l -> f x = false) -> List.filter f l = [].
Proof.
  induction l as [|x l IH]; intros H; [done|]. simpl.
  rewrite (H x) by left. apply IH. intros y Hy. apply H. by right.
Qed.

Lemma cellNumber_split g rows cols pre x post :
  scan rows cols = pre ++ x :: post ->
  cellNumber g rows cols x = len (List.filter (numbered g rows cols) pre).
Proof.
  intros Hs. destruct (scan_split_before _ _ _ _ _ Hs) as [Hpre Hpost].
  unfold cellNumber. rewrite Hs, List.filter_app.
  rewrite (filter_none _ (x :: post)).
  - rewrite app_nil_r. f_equal. apply filter_ext_elem. intros y Hy.
    rewrite (Hpre y Hy). apply andb_true_r.
  - intros y Hy. rewrite (Hpost y Hy). apply andb_false_r.
Qed.

(** ** The code's cell predicates against the specification's *)

Lemma isBlackCell_blackAt p row col blk :
  Puzzle.isBlackCell p row col = Some blk ->
  blackAt (Puzzle.solution p) row col = blk.
Proof.
  unfold Puzzle.isBlackCell, blackAt.
  destruct (index _ row) as [r|]; [|done].
  destruct (index r col) as [x|]; [|done]. congruence.
Qed.

Lemma isBlackCell_fits p row col :
  fits (Puzzle.Rows p) (Puzzle.Cols p) (Puzzle.solution p) ->
  0 <= row < Puzzle.Rows p -> 0 <= col < Puzzle.Cols p ->
  Puzzle.isBlackCell p row col = Some (blackAt (Puzzle.solution p) row col).
Proof.
  intros [Hrows Hcols] Hrow Hcol. unfold Puzzle.isBlackCell, blackAt.
  destruct (index_is_Some (Puzzle.solution p) row) as [r Hr]; [lia|].
  rewrite Hr. apply index_Some in Hr as [_ Hr].
  rewrite Forall_forall in Hcols.
  assert (len r = Puzzle.Cols p) as Hlen
    by (apply Hcols; eapply list_elem_of_lookup_2, Hr).
  destruct (index_is_Some r col) as [x Hx]; [lia|]. by rewrite Hx.
Qed.

Lemma isAcrossCell_fits p row col :
  fits (Puzzle.Rows p) (Puzzle.Cols p) (Puzzle.solution p) ->
  0 <= row < Puzzle.Rows p -> 0 <= col < Puzzle.Cols p ->
  Puzzle.isAcrossCell p row col
  = Some (startsAcross (Puzzle.solution p) (Puzzle.Cols p) (row, col)).
Proof.
  intros Hfit Hrow Hcol. unfold Puzzle.isAcrossCell, startsAcross.
  rewrite (isBlackCell_fits p row col) by done.
  destruct (blackAt _ row col); [done|]. simpl.
  destruct (Z.eqb_spec col 0) as [->|Hne]; simpl.
  - destruct (Z.ltb_spec (0 + 1) (Puzzle.Cols p)); [|done].
    rewrite isBlackCell_fits by (done || lia).
    by destruct (blackAt _ row (0 + 1)).
  - rewrite (isBlackCell_fits p row (col - 1)) by (done || lia).
    destruct (blackAt _ row (col - 1)); [|done]. simpl.
    destruct (Z.ltb_spec (col + 1) (Puzzle.Cols p)); [|done].
    rewrite isBlackCell_fits by (done || lia).
    by destruct (blackAt _ row (col + 1)).
Qed.

Lemma isDownCell_fits p row col :
  fits (Puzzle.Rows p) (Puzzle.Cols p) (Puzzle.solution p) ->
  0 <= row < Puzzle.Rows p -> 0 <= col < Puzzle.Cols p ->
  Puzzle.isDownCell p row col
  = Some (startsDown (Puzzle.solution p) (Puzzle.Rows p) (row, col)).
Proof.
  intros Hfit Hrow Hcol. unfold Puzzle.isDownCell, startsDown.
  rewrite (isBlackCell_fits p row col) by done.
  destruct (blackAt _ row col); [done|]. simpl.
  destruct (Z.eqb_spec row 0) as [->|Hne]; simpl.
  - destruct (Z.ltb_spec (0 + 1) (Puzzle.Rows p)); [|done].
    rewrite isBlackCell_fits by (done || lia).
    by destruct (blackAt _ (0 + 1) col).
  - rewrite (isBlackCell_fits p (row - 1) col) by (done || lia).
    destruct (blackAt _ (row - 1) col); [|done]. simpl.
    destruct (Z.ltb_spec (row + 1) (Puzzle.Rows p)); [|done].
    rewrite isBlackCell_fits by (done || lia).
    by destruct (blackAt _ (row + 1) col).
Qed.

(** ** The scan of SetSolution *)

Lemma filter_snoc {A} (f : A -> bool) l x :
  List.filter f (l ++ [x]) = List.filter f l ++ (if f x then [x] else []).
Proof. rewrite List.filter_app. simpl. by destruct (f x). Qed.

Lemma len_app {A} (l1 l2 : list A) : len (l1 ++ l2) = len l1 + len l2.
Proof. unfold len. rewrite length_app. lia. Qed.

#[local] Arguments Puzzle.isAcrossCell : simpl never.
#[local] Arguments Puzzle.isDownCell : simpl never.
#[local] Arguments startsAcross : simpl never.
#[local] Arguments startsDown : simpl never.
#[local] Arguments numbered : simpl never.
#[local] Arguments cellNumber : simpl never.

Lemma numberCell_step p g pre i j post :
  fits (Puzzle.Rows p) (Puzzle.Cols p) g ->
  scan (Puzzle.Rows p) (Puzzle.Cols p) = pre ++ (i, j) :: post ->
  Puzzle.numberCell i j (numberedState p g pre)
  = Some (numberedState p g (pre ++ [(i, j)])).
Proof.
  intros Hfit Hscan.
  assert ((i, j) ∈ scan (Puzzle.Rows p) (Puzzle.Cols p)) as Hin
    by (rewrite Hscan; apply elem_of_app; right; left).
  apply elem_of_scan in Hin as [Hi Hj]. simpl in Hi, Hj.
  pose proof (cellNumber_split g _ _ _ _ _ Hscan) as Hnum.
  assert (numbered g (Puzzle.Rows p) (Puzzle.Cols p) (i, j)
          = startsAcross g (Puzzle.Cols p) (i, j)
            || startsDown g (Puzzle.Rows p) (i, j)) as Hn by reflexivity.
  unfold Puzzle.numberCell, numberedState.
  rewrite isAcrossCell_fits by done. simpl.
  unfold coordsOf. rewrite rev_app_distr. simpl.
  rewrite !filter_snoc, !map_app, len_app, Hn.
  destruct (startsAcross g (Puzzle.Cols p) (i, j)) eqn:Ea;
    rewrite isDownCell_fits by done; simpl;
    destruct (startsDown g (Puzzle.Rows p) (i, j)) eqn:Ed; simpl;
    unfold slot, Puzzle.append_cluesAcross, Puzzle.append_cluesDown,
      Puzzle.set_cellCoord; simpl; rewrite ?Hnum, ?app_nil_r, ?Z.add_0_r;
    reflexivity.
Qed.

#[local] Arguments Puzzle.numberCell : simpl never.
#[local] Arguments numberedState : simpl never.

Lemma forRange_numberCell p g post : forall pre,
  fits (Puzzle.Rows p) (Puzzle.Cols p) g ->
  scan (Puzzle.Rows p) (Puzzle.Cols p) = pre ++ post ->
  forRange (fun x : cell => Puzzle.numberCell x.1 x.2) post (numberedState p g pre)
  = Some (numberedState p g (pre ++ post)).
Proof.
  induction post as [|[i j] post IH]; intros pre Hfit Hscan; simpl.
  - by rewrite app_nil_r.
  - rewrite (numberCell_step p g pre i j post) by done. cbv beta iota.
    specialize (IH (pre ++ [(i, j)]) Hfit). rewrite <- app_assoc in IH.
    apply IH, Hscan.
Qed.

Lemma SetSolution_fits p g :
  fits (Puzzle.Rows p) (Puzzle.Cols p) g ->
  Puzzle.SetSolution p g
  = Some (None, (numberedState p g (scan (Puzzle.Rows p) (Puzzle.Cols p))).1).
Proof.
  intros Hfit. pose proof Hfit as [Hrows Hcols]. unfold Puzzle.SetSolution.
  rewrite bool_decide_eq_false_2 by (intros H; apply H, Hrows).
  apply (checkCols_None _ 0) in Hcols. rewrite Hcols. simpl.
  unfold forZ. rewrite !Z.sub_0_r, forRange_scanOf.
  fold (scan (Puzzle.Rows p) (Puzzle.Cols p)).
  change (Puzzle.reset p g, 0) with (numberedState p g []).
  by rewrite (forRange_numberCell p g _ []).
Qed.

Lemma SetSolution_inv p g e p' :
  Puzzle.SetSolution p g = Some (e, p') ->
  (exists err, e = Some err /\ dimensionError err /\ p' = p /\
     ~ fits (Puzzle.Rows p) (Puzzle.Cols p) g) \/
  (e = None /\ fits (Puzzle.Rows p) (Puzzle.Cols p) g /\
   p' = (numberedState p g (scan (Puzzle.Rows p) (Puzzle.Cols p))).1).
Proof.
  intros H. destruct (decide (fits (Puzzle.Rows p) (Puzzle.Cols p) g)) as [Hfit|Hfit].
  - right. rewrite SetSolution_fits in H by done. by injection H as <- <-.
  - left. destruct (SetSolution_error p g Hfit) as (err & Herr & Hdim).
    rewrite Herr in H. injection H as <- <-. by exists err.
Qed.

(** ** The state SetSolution leaves *)

Lemma elem_of_filter_bool {A} (f : A -> bool) l x :
  x ∈ List.filter f l <-> x ∈ l /\ f x = true.
Proof. rewrite !list_elem_of_In. apply filter_In. Qed.

Lemma elem_of_rev {A} (l : list A) x : x ∈ rev l <-> x ∈ l.
Proof. rewrite !list_elem_of_In. symmetry. apply in_rev. Qed.

Lemma lookup_list_to_map_graph (f : cell -> Z) (l : list cell) (y : cell) :
  (list_to_map (map (fun x => (x, f x)) l) : gmap cell Z) !! y
  = if decide (y ∈ l) then Some (f y) else None.
Proof.
  induction l as [|x l IH].
  - change (map _ []) with (@nil (cell * Z)). rewrite list_to_map_nil, lookup_empty.
    destruct (decide (y ∈ [])) as [H|H]; [|done]. by apply elem_of_nil in H.
  - change (map (fun x => (x, f x)) (x :: l))
      with ((x, f x) :: map (fun x => (x, f x)) l).
    rewrite list_to_map_cons. cbn [fst snd]. rewrite lookup_insert, IH.
    destruct (decide (x = y)) as [->|Hne], (decide (y ∈ l)) as [H1|H1],
      (decide (y ∈ _ :: l)) as [H2|H2]; try done.
    + exfalso. apply H2. by left.
    + exfalso. apply H2. by left.
    + exfalso. apply H2. by right.
    + exfalso. apply elem_of_cons in H2 as [?|?]; congruence.
Qed.

Lemma lookup_coordsOf g rows cols l y :
  coordsOf g rows cols l !! y
  = if decide (y ∈ l /\ numbered g rows cols y = true)
    then Some (cellNumber g rows cols y) else None.
Proof.
  unfold coordsOf. rewrite lookup_list_to_map_graph.
  rewrite (decide_ext _ (y ∈ l /\ numbered g rows cols y = true)); [done|].
  by rewrite elem_of_filter_bool, elem_of_rev.
Qed.

Lemma inGrid_scan rows cols x : inGrid rows cols x = true <-> x ∈ scan rows cols.
Proof. rewrite elem_of_scan. unfold inGrid. lia. Qed.

Lemma lookup_coordsOf_scan g rows cols y :
  coordsOf g rows cols (scan rows cols) !! y
  = if inGrid rows cols y && numbered g rows cols y
    then Some (cellNumber g rows cols y) else None.
Proof.
  rewrite lookup_coordsOf. case_decide as H.
  - destruct H as [Hin ->]. apply inGrid_scan in Hin. by rewrite Hin.
  - destruct (inGrid rows cols y) eqn:Ein; [|done]. simpl.
    destruct (numbered g rows cols y) eqn:En; [|done].
    exfalso. apply H. split; [|done]. by apply inGrid_scan.
Qed.

(** ** Order of the numbers *)

Lemma len_nonneg {A} (l : list A) : 0 <= len l.
Proof. unfold len. lia. Qed.

Lemma len_cons {A} (x : A) l : len (x :: l) = len l + 1.
Proof. unfold len. simpl length. lia. Qed.

Lemma len_nil {A} : len (@nil A) = 0.
Proof. reflexivity. Qed.

Lemma cellNumber_consecutive g rows cols post : forall pre,
  scan rows cols = pre ++ post ->
  map (cellNumber g rows cols) (List.filter (numbered g rows cols) post)
  = seqZ (len (List.filter (numbered g rows cols) pre))
         (len (List.filter (numbered g rows cols) post)).
Proof.
  induction post as [|x post IH]; intros pre Hscan.
  - by rewrite seqZ_nil.
  - pose proof (cellNumber_split g _ _ _ _ _ Hscan) as Hx.
    specialize (IH (pre ++ [x])). rewrite <- app_assoc in IH.
    specialize (IH Hscan). rewrite filter_snoc, len_app in IH. simpl.
    destruct (numbered g rows cols x) eqn:En; simpl.
    + rewrite IH, Hx, len_cons, len_cons, len_nil.
      pose proof (len_nonneg (List.filter (numbered g rows cols) post)).
      rewrite (seqZ_cons _ (_ + 1)) by lia. f_equal. f_equal; lia.
    + rewrite IH, len_nil. by rewrite Z.add_0_r.
Qed.

Lemma cellNumber_increasing g rows cols (P : cell -> bool) post : forall pre,
  (forall x, P x = true -> numbered g rows cols x = true) ->
  scan rows cols = pre ++ post ->
  increasing (map (cellNumber g rows cols) (List.filter P post)) /\
  Forall (fun n => len (List.filter (numbered g rows cols) pre) <= n)
    (map (cellNumber g rows cols) (List.filter P post)).
Proof.
  induction post as [|x post IH]; intros pre HP Hscan.
  - split; constructor.
  - pose proof (cellNumber_split g _ _ _ _ _ Hscan) as Hx.
    specialize (IH (pre ++ [x]) HP). rewrite <- app_assoc in IH.
    destruct (IH Hscan) as [Hinc Hlow]. rewrite filter_snoc, len_app in Hlow.
    simpl. destruct (P x) eqn:EP; simpl.
    + rewrite (HP x EP), len_cons, len_nil in Hlow. split.
      * constructor; [done|]. eapply Forall_impl; [exact Hlow|].
        intros n Hn. simpl in Hn. lia.
      * constructor; [lia|]. eapply Forall_impl; [exact Hlow|].
        intros n Hn. simpl in Hn. lia.
    + split; [done|]. eapply Forall_impl; [exact Hlow|].
      intros n Hn. simpl in Hn.
      pose proof (len_nonneg (if numbered g rows cols x then [x] else [])). lia.
Qed.

Lemma map_Num_slot g rows cols l :
  map Num (map (slot g rows cols) l) = map (cellNumber g rows cols) l.
Proof. rewrite map_map. done. Qed.

Lemma startsAcross_numbered g rows cols x :
  startsAcross g cols x = true -> numbered g rows cols x = true.
Proof. unfold numbered. intros ->. done. Qed.

Lemma startsDown_numbered g rows cols x :
  startsDown g rows x = true -> numbered g rows cols x = true.
Proof. unfold numbered. intros ->. apply orb_true_r. Qed.

(** ** Independence of the letters *)

Lemma samePattern_blackAt g1 g2 row col :
  samePattern g1 g2 -> blackAt g1 row col = blackAt g2 row col.
Proof.
  intros H. unfold blackAt, index.
  destruct (row <? 0); [done|].
  destruct (g1 !! Z.to_nat row) as [r1|] eqn:E1.
  - destruct (Forall2_lookup_l _ _ _ _ _ H E1) as (r2 & E2 & Hr). rewrite E2.
    destruct (col <? 0); [done|].
    destruct (r1 !! Z.to_nat col) as [x1|] eqn:F1.
    + destruct (Forall2_lookup_l _ _ _ _ _ Hr F1) as (x2 & F2 & Hx). rewrite F2.
      apply bool_decide_ext. done.
    + apply Forall2_length in Hr. apply lookup_ge_None in F1.
      rewrite (lookup_ge_None_2 r2); [done|lia].
  - apply Forall2_length in H. apply lookup_ge_None in E1.
    rewrite (lookup_ge_None_2 g2); [done|lia].
Qed.

Lemma samePattern_startsAcross g1 g2 cols x :
  samePattern g1 g2 -> startsAcross g1 cols x = startsAcross g2 cols x.
Proof.
  intros H. destruct x as [row col]. unfold startsAcross.
  by rewrite !(samePattern_blackAt g1 g2).
Qed.

Lemma samePattern_startsDown g1 g2 rows x :
  samePattern g1 g2 -> startsDown g1 rows x = startsDown g2 rows x.
Proof.
  intros H. destruct x as [row col]. unfold startsDown.
  by rewrite !(samePattern_blackAt g1 g2).
Qed.

Lemma samePattern_numbered g1 g2 rows cols x :
  samePattern g1 g2 -> numbered g1 rows cols x = numbered g2 rows cols x.
Proof.
  intros H. unfold numbered.
  by rewrite (samePattern_startsAcross g1 g2), (samePattern_startsDown g1 g2).
Qed.

Lemma samePattern_cellNumber g1 g2 rows cols x :
  samePattern g1 g2 -> cellNumber g1 rows cols x = cellNumber g2 rows cols x.
Proof.
  intros H. unfold cellNumber. f_equal. apply filter_ext_elem. intros y _.
  by rewrite (samePattern_numbered g1 g2).
Qed.

Lemma samePattern_checkCols g1 g2 cols i :
  samePattern g1 g2 -> Puzzle.checkCols cols i g1 = Puzzle.checkCols cols i g2.
Proof.
  intros H. revert i. induction H as [|r1 r2 g1 g2 Hr H IH]; intros i; [done|].
  simpl. apply Forall2_length in Hr. unfold len. rewrite Hr.
  case_bool_decide; [done|apply IH].
Qed.

Lemma samePattern_fits g1 g2 rows cols :
  samePattern g1 g2 -> fits rows cols g1 -> fits rows cols g2.
Proof.
  intros H [Hrows Hcols]. split.
  - unfold len in *. by rewrite <- (Forall2_length _ _ _ H).
  - apply (checkCols_None _ 0). rewrite <- (samePattern_checkCols g1 g2) by done.
    by apply checkCols_None.
Qed.

Lemma samePattern_numberedState p1 p2 g1 g2 l :
  Puzzle.Rows p1 = Puzzle.Rows p2 -> Puzzle.Cols p1 = Puzzle.Cols p2 ->
  samePattern g1 g2 ->
  let s1 := (numberedState p1 g1 l).1 in
  let s2 := (numberedState p2 g2 l).1 in
  Puzzle.cellCoords s1 = Puzzle.cellCoords s2 /\
  Puzzle.cluesAcross s1 = Puzzle.cluesAcross s2 /\
  Puzzle.cluesDown s1 = Puzzle.cluesDown s2.
Proof.
  intros HR HC H. simpl. rewrite HR, HC.
  assert (forall x, slot g1 (Puzzle.Rows p2) (Puzzle.Cols p2) x
                  = slot g2 (Puzzle.Rows p2) (Puzzle.Cols p2) x) as Hslot
    by (intros x; unfold slot; by rewrite (samePattern_cellNumber g1 g2)).
  split; [|split].
  - apply map_eq. intros y. rewrite !lookup_coordsOf.
    by rewrite (samePattern_numbered g1 g2), (samePattern_cellNumber g1 g2).
  - rewrite (filter_ext_elem _ (startsAcross g2 (Puzzle.Cols p2)))
      by (intros; by apply samePattern_startsAcross).
    apply map_ext. done.
  - rewrite (filter_ext_elem _ (startsDown g2 (Puzzle.Rows p2)))
      by (intros; by apply samePattern_startsDown).
    apply map_ext. done.
Qed.

Lemma fits_grid5 : fits (Puzzle.Rows puzzle5) (Puzzle.Cols puzzle5) grid5.
Proof. split; [reflexivity|]. repeat constructor. Qed.

(** C1: for a puzzle of declared dimensions Rows x Cols and a grid of Rows
    strings each of length Cols, SetSolution succeeds; on the resulting puzzle
    isAcrossCell and isDownCell compute the specification's "starts an across
    entry" and "starts a down entry"; a cell has a number exactly when it is
    in the grid and starts an entry, and its number is the count of numbered
    cells before it in row-major order (one shared counter from 0, one
    increment per numbered cell); the across and the down list hold, in
    row-major order, one slot with that number and an empty text per cell
    that starts an entry of that direction.  On the 5x5 grid of the
    specification cell (0,0) gets number 0 and cell (2,0) gets number 5. *)
Theorem SetSolution_numbers_row_major (p : Puzzle.t) (grid : list (list byte)) :
  fits (Puzzle.Rows p) (Puzzle.Cols p) grid ->
  exists p',
    Puzzle.SetSolution p grid = Some (None, p') /\
    Puzzle.solution p' = grid /\
    (forall row col, inGrid (Puzzle.Rows p) (Puzzle.Cols p) (row, col) = true ->
       Puzzle.isAcrossCell p' row col
         = Some (startsAcross grid (Puzzle.Cols p) (row, col)) /\
       Puzzle.isDownCell p' row col
         = Some (startsDown grid (Puzzle.Rows p) (row, col))) /\
    (forall x,
       Puzzle.cellCoords p' !! x =
       if inGrid (Puzzle.Rows p) (Puzzle.Cols p) x
          && numbered grid (Puzzle.Rows p) (Puzzle.Cols p) x
       then Some (cellNumber grid (Puzzle.Rows p) (Puzzle.Cols p) x)
       else None) /\
    Puzzle.cluesAcross p' =
      map (slot grid (Puzzle.Rows p) (Puzzle.Cols p))
        (List.filter (startsAcross grid (Puzzle.Cols p))
           (scan (Puzzle.Rows p) (Puzzle.Cols p))) /\
    Puzzle.cluesDown p' =
      map (slot grid (Puzzle.Rows p) (Puzzle.Cols p))
        (List.filter (startsDown grid (Puzzle.Rows p))
           (scan (Puzzle.Rows p) (Puzzle.Cols p))) /\
    match Puzzle.SetSolution puzzle5 grid5 with
    | Some (None, p5) =>
        Puzzle.cellCoords p5 !! (0, 0) = Some 0 /\
        Puzzle.cellCoords p5 !! (2, 0) = Some 5
    | _ => False
    end.
Proof.
  intros Hfit. eexists. split; [by apply SetSolution_fits|].
  split; [reflexivity|]. split; [|split; [|split; [|split]]].
  - intros row col Hin. apply inGrid_scan, elem_of_scan in Hin. simpl in Hin.
    destruct Hin as [Hrow Hcol].
    split.
    + exact (isAcrossCell_fits
               (numberedState p grid (scan (Puzzle.Rows p) (Puzzle.Cols p))).1
               row col Hfit Hrow Hcol).
    + exact (isDownCell_fits
               (numberedState p grid (scan (Puzzle.Rows p) (Puzzle.Cols p))).1
               row col Hfit Hrow Hcol).
  - intros x. apply lookup_coordsOf_scan.
  - reflexivity.
  - reflexivity.
  - by vm_compute.
Qed.

Lemma SetSolution_numbers_row_major_witness :
  fits (Puzzle.Rows puzzle5) (Puzzle.Cols puzzle5) grid5 /\
  exists p',
    Puzzle.SetSolution puzzle5 grid5 = Some (None, p') /\
    Puzzle.cluesAcross p' =
      map (slot grid5 5 5) (List.filter (startsAcross grid5 5) (scan 5 5)) /\
    Puzzle.cluesDown p' =
      map (slot grid5 5 5) (List.filter (startsDown grid5 5) (scan 5 5)).
Proof.
  split; [exact fits_grid5|].
  destruct (SetSolution_numbers_row_major puzzle5 grid5 fits_grid5)
    as (p' & H1 & _ & _ & _ & H5 & H6 & _).
  exists p'. exact (conj H1 (conj H5 H6)).
Defined.

(** C7: a grid whose row count differs from Rows, or with a row whose length
    differs from Cols, makes SetSolution return a dimension error and the
    puzzle it leaves is the puzzle it was given: solution, cell numbers and
    both clue lists are untouched. *)
Theorem SetSolution_dimension_mismatch (p : Puzzle.t) (grid : list (list byte)) :
  (len grid <> Puzzle.Rows p \/ exists r, r ∈ grid /\ len r <> Puzzle.Cols p) ->
  exists e, Puzzle.SetSolution p grid = Some (Some e, p) /\ dimensionError e.
Proof. intros H. by apply SetSolution_error, not_fits. Qed.


Lemma SetSolution_dimension_mismatch_witness :
  (len grid_ragged <> Puzzle.Rows puzzle3 \/
   exists r, r ∈ grid_ragged /\ len r <> Puzzle.Cols puzzle3) /\
  exists e, Puzzle.SetSolution puzzle3 grid_ragged = Some (Some e, puzzle3) /\
            dimensionError e.
Proof.
  assert (len grid_ragged <> Puzzle.Rows puzzle3 \/
          exists r, r ∈ grid_ragged /\ len r <> Puzzle.Cols puzzle3) as H.
  { right. exists (bytesOf ".."). split; [|by vm_compute].
    right. left. }
  split; [exact H|]. exact (SetSolution_dimension_mismatch puzzle3 grid_ragged H).
Defined.

Lemma filter_isAcrossCell p :
  fits (Puzzle.Rows p) (Puzzle.Cols p) (Puzzle.solution p) ->
  List.filter (fun x : cell => bool_decide (Puzzle.isAcrossCell p x.1 x.2 = Some true))
    (scan (Puzzle.Rows p) (Puzzle.Cols p))
  = List.filter (startsAcross (Puzzle.solution p) (Puzzle.Cols p))
      (scan (Puzzle.Rows p) (Puzzle.Cols p)).
Proof.
  intros Hfit. apply filter_ext_elem. intros [row col] Hx.
  apply elem_of_scan in Hx as [Hrow Hcol]. simpl in *.
  rewrite isAcrossCell_fits by done.
  destruct (startsAcross _ _ _); by vm_compute.
Qed.

Lemma filter_isDownCell p :
  fits (Puzzle.Rows p) (Puzzle.Cols p) (Puzzle.solution p) ->
  List.filter (fun x : cell => bool_decide (Puzzle.isDownCell p x.1 x.2 = Some true))
    (scan (Puzzle.Rows p) (Puzzle.Cols p))
  = List.filter (startsDown (Puzzle.solution p) (Puzzle.Rows p))
      (scan (Puzzle.Rows p) (Puzzle.Cols p)).
Proof.
  intros Hfit. apply filter_ext_elem. intros [row col] Hx.
  apply elem_of_scan in Hx as [Hrow Hcol]. simpl in *.
  rewrite isDownCell_fits by done.
  destruct (startsDown _ _ _); by vm_compute.
Qed.

Lemma map_lookup_coordsOf g rows cols (P : cell -> bool) :
  (forall x, P x = true -> numbered g rows cols x = true) ->
  map (fun x => coordsOf g rows cols (scan rows cols) !! x)
    (List.filter P (scan rows cols))
  = map Some (map (cellNumber g rows cols) (List.filter P (scan rows cols))).
Proof.
  intros HP. rewrite map_map. apply map_ext_in. intros x Hx.
  apply filter_In in Hx as [Hx HPx]. rewrite lookup_coordsOf_scan.
  apply list_elem_of_In, inGrid_scan in Hx. by rewrite Hx, (HP x HPx).
Qed.

Lemma len_map {A B} (f : A -> B) l : len (map f l) = len l.
Proof. unfold len. by rewrite length_map. Qed.

(** C8: after a successful SetSolution the solution has Rows rows, each of
    length Cols; the numbers of the across clues and of the down clues are
    strictly increasing; the numbered cells, taken in row-major order, carry
    0, 1, 2, ...; a cell that holds a number starts an across or a down entry;
    the across (down) clues carry, in order, the numbers of the cells that
    start an across (down) entry, so that the two lists together have one
    clue per (cell, direction) start. *)
Theorem SetSolution_invariants (p : Puzzle.t) (grid : list (list byte)) (p' : Puzzle.t) :
  Puzzle.SetSolution p grid = Some (None, p') ->
  len (Puzzle.solution p') = Puzzle.Rows p' /\
  Forall (fun r => len r = Puzzle.Cols p') (Puzzle.solution p') /\
  increasing (map Num (Puzzle.cluesAcross p')) /\
  increasing (map Num (Puzzle.cluesDown p')) /\
  map (fun x => Puzzle.cellCoords p' !! x)
    (List.filter (numbered (Puzzle.solution p') (Puzzle.Rows p') (Puzzle.Cols p'))
       (scan (Puzzle.Rows p') (Puzzle.Cols p')))
  = map Some
      (seqZ 0 (len (List.filter
                      (numbered (Puzzle.solution p') (Puzzle.Rows p') (Puzzle.Cols p'))
                      (scan (Puzzle.Rows p') (Puzzle.Cols p'))))) /\
  (forall row col n,
     Puzzle.cellCoords p' !! (row, col) = Some n ->
     Puzzle.isAcrossCell p' row col = Some true \/
     Puzzle.isDownCell p' row col = Some true) /\
  map (fun cl => Some (Num cl)) (Puzzle.cluesAcross p')
  = map (fun x => Puzzle.cellCoords p' !! x)
      (List.filter (fun x => bool_decide (Puzzle.isAcrossCell p' x.1 x.2 = Some true))
         (scan (Puzzle.Rows p') (Puzzle.Cols p'))) /\
  map (fun cl => Some (Num cl)) (Puzzle.cluesDown p')
  = map (fun x => Puzzle.cellCoords p' !! x)
      (List.filter (fun x => bool_decide (Puzzle.isDownCell p' x.1 x.2 = Some true))
         (scan (Puzzle.Rows p') (Puzzle.Cols p'))) /\
  len (Puzzle.cluesAcross p') + len (Puzzle.cluesDown p')
  = len (List.filter (fun x => bool_decide (Puzzle.isAcrossCell p' x.1 x.2 = Some true))
           (scan (Puzzle.Rows p') (Puzzle.Cols p')))
    + len (List.filter (fun x => bool_decide (Puzzle.isDownCell p' x.1 x.2 = Some true))
             (scan (Puzzle.Rows p') (Puzzle.Cols p'))).
Proof.
  intros H. apply SetSolution_inv in H as [(err & ? & _)|(_ & Hfit & ->)]; [done|].
  set (rows := Puzzle.Rows p) in *. set (cols := Puzzle.Cols p) in *.
  set (p' := (numberedState p grid (scan rows cols)).1).
  assert (fits (Puzzle.Rows p') (Puzzle.Cols p') (Puzzle.solution p')) as Hfit'
    by exact Hfit.
  rewrite (filter_isAcrossCell p' Hfit'), (filter_isDownCell p' Hfit').
  change (Puzzle.solution p') with grid. change (Puzzle.Rows p') with rows.
  change (Puzzle.Cols p') with cols.
  change (Puzzle.cellCoords p') with (coordsOf grid rows cols (scan rows cols)).
  change (Puzzle.cluesAcross p')
    with (map (slot grid rows cols) (List.filter (startsAcross grid cols) (scan rows cols))).
  change (Puzzle.cluesDown p')
    with (map (slot grid rows cols) (List.filter (startsDown grid rows) (scan rows cols))).
  destruct Hfit as [Hrows Hcols].
  split; [done|]. split; [done|].
  split; [|split; [|split; [|split; [|split; [|split]]]]].
  - rewrite map_Num_slot.
    apply (cellNumber_increasing grid rows cols _ (scan rows cols) []); [|done].
    apply startsAcross_numbered.
  - rewrite map_Num_slot.
    apply (cellNumber_increasing grid rows cols _ (scan rows cols) []); [|done].
    apply startsDown_numbered.
  - rewrite map_lookup_coordsOf by done. f_equal.
    apply (cellNumber_consecutive grid rows cols (scan rows cols) []). done.
  - intros row col n Hn. rewrite lookup_coordsOf_scan in Hn.
    destruct (inGrid rows cols (row, col)) eqn:Ein; [|done].
    destruct (numbered grid rows cols (row, col)) eqn:En; [|done].
    apply inGrid_scan, elem_of_scan in Ein as [Hrow Hcol]. simpl in Hrow, Hcol.
    rewrite (isAcrossCell_fits p' row col Hfit' Hrow Hcol).
    rewrite (isDownCell_fits p' row col Hfit' Hrow Hcol).
    apply orb_true_iff in En as [E|E]; [left|right]; exact (f_equal Some E).
  - rewrite (map_lookup_coordsOf _ _ _ _ (startsAcross_numbered grid rows cols)).
    by rewrite !map_map.
  - rewrite (map_lookup_coordsOf _ _ _ _ (startsDown_numbered grid rows cols)).
    by rewrite !map_map.
  - by rewrite !len_map.
Qed.

Lemma SetSolution_invariants_witness :
  Puzzle.SetSolution puzzle5 grid5
    = Some (None, (numberedState puzzle5 grid5 (scan 5 5)).1) /\
  increasing (map Num (Puzzle.cluesAcross (numberedState puzzle5 grid5 (scan 5 5)).1)) /\
  increasing (map Num (Puzzle.cluesDown (numberedState puzzle5 grid5 (scan 5 5)).1)).
Proof.
  assert (Puzzle.SetSolution puzzle5 grid5
          = Some (None, (numberedState puzzle5 grid5 (scan 5 5)).1)) as H
    by (by vm_compute).
  split; [exact H|].
  destruct (SetSolution_invariants puzzle5 grid5 _ H) as (_ & _ & H3 & H4 & _).
  exact (conj H3 H4).
Defined.

(** C9: two grids of the same shape with their black cells at the same
    coordinates, set on puzzles of the same declared dimensions, make
    SetSolution return the same result, and on success the same cell-number
    mapping, the same across-clue numbers and the same down-clue numbers (the
    clue lists are then equal as a whole); on a dimension error both puzzles
    are left as they were. *)
Theorem SetSolution_depends_on_pattern_only
    (p1 p2 : Puzzle.t) (g1 g2 : list (list byte)) :
  Puzzle.Rows p1 = Puzzle.Rows p2 ->
  Puzzle.Cols p1 = Puzzle.Cols p2 ->
  samePattern g1 g2 ->
  exists e s1 s2,
    Puzzle.SetSolution p1 g1 = Some (e, s1) /\
    Puzzle.SetSolution p2 g2 = Some (e, s2) /\
    (e = None ->
     Puzzle.cellCoords s1 = Puzzle.cellCoords s2 /\
     map Num (Puzzle.cluesAcross s1) = map Num (Puzzle.cluesAcross s2) /\
     map Num (Puzzle.cluesDown s1) = map Num (Puzzle.cluesDown s2) /\
     Puzzle.cluesAcross s1 = Puzzle.cluesAcross s2 /\
     Puzzle.cluesDown s1 = Puzzle.cluesDown s2) /\
    (e <> None -> s1 = p1 /\ s2 = p2).
Proof.
  intros HR HC Hsame.
  destruct (decide (fits (Puzzle.Rows p1) (Puzzle.Cols p1) g1)) as [Hfit|Hfit].
  - pose proof (samePattern_fits _ _ _ _ Hsame Hfit) as Hfit2.
    rewrite HR, HC in Hfit2.
    exists None. eexists. eexists.
    split; [by apply SetSolution_fits|]. split; [by apply SetSolution_fits|].
    split; [|done]. intros _.
    destruct (samePattern_numberedState p1 p2 g1 g2
                (scan (Puzzle.Rows p1) (Puzzle.Cols p1)) HR HC Hsame)
      as (Hc & Ha & Hd).
    rewrite <- HR, <- HC. cbv zeta in Hc, Ha, Hd.
    by rewrite Hc, Ha, Hd.
  - unfold Puzzle.SetSolution.
    rewrite <- HR, <- HC, <- (samePattern_checkCols g1 g2) by done.
    assert (len g2 = len g1) as ->
      by (unfold len; by rewrite (Forall2_length _ _ _ Hsame)).
    case_bool_decide as Hrows.
    { exists (Some ErrGridRows), p1, p2. done. }
    destruct (Puzzle.checkCols _ 0 g1) as [i|] eqn:Hc.
    { exists (Some (ErrGridCols i)), p1, p2. done. }
    exfalso. apply Hfit. split; [|by apply (checkCols_None _ 0)].
    by destruct (decide (len g1 = Puzzle.Rows p1)).
Qed.

Lemma samePattern_grid3 : samePattern grid3 grid3'.
Proof.
  unfold samePattern.
  repeat (constructor; try (split; intros E; (reflexivity || discriminate E))).
Qed.

Lemma SetSolution_depends_on_pattern_only_witness :
  Puzzle.Rows puzzle3 = Puzzle.Rows puzzle3 /\
  Puzzle.Cols puzzle3 = Puzzle.Cols puzzle3 /\
  samePattern grid3 grid3' /\
  exists e s1 s2,
    Puzzle.SetSolution puzzle3 grid3 = Some (e, s1) /\
    Puzzle.SetSolution puzzle3 grid3' = Some (e, s2) /\
    (e = None ->
     Puzzle.cellCoords s1 = Puzzle.cellCoords s2 /\
     map Num (Puzzle.cluesAcross s1) = map Num (Puzzle.cluesAcross s2) /\
     map Num (Puzzle.cluesDown s1) = map Num (Puzzle.cluesDown s2) /\
     Puzzle.cluesAcross s1 = Puzzle.cluesAcross s2 /\
     Puzzle.cluesDown s1 = Puzzle.cluesDown s2) /\
    (e <> None -> s1 = puzzle3 /\ s2 = puzzle3).
Proof.
  split; [reflexivity|]. split; [reflexivity|]. split; [exact samePattern_grid3|].
  exact (SetSolution_depends_on_pattern_only puzzle3 puzzle3 grid3 grid3'
           eq_refl eq_refl samePattern_grid3).
Defined.

(** ** Sniff and the top-level Load *)

Lemma Sniff_unfold data :
  AcrossLite.Sniff data =
  let r := drop 2 (elems data) in
  bool_decide (r <> []) &&
  bool_decide (take 12 r ++ drop (length (take 12 r)) (replicate 12 x00) = magic).
Proof.
  unfold AcrossLite.Sniff, Next, Buffer_Read. change (Z.to_nat 2) with 2%nat.
  cbv zeta. destruct (drop 2 (elems data)) as [|x r]; [done|].
  change (length (replicate 12 x00)) with 12%nat.
  rewrite (bool_decide_eq_true_2 (None = None)) by done.
  rewrite (bool_decide_eq_true_2 (x :: r <> [])) by done.
  by destruct (bool_decide _).
Qed.

(** With at least 14 bytes, Sniff compares the 12 bytes at offset 2. *)
Lemma Sniff_long data :
  14 <= len (elems data) ->
  AcrossLite.Sniff data = bool_decide (take 12 (drop 2 (elems data)) = magic).
Proof.
  intros Hlen. rewrite Sniff_unfold. cbv zeta.
  assert (12 <= length (drop 2 (elems data)))%nat as Hr
    by (rewrite length_drop; unfold len in Hlen; lia).
  rewrite length_take, Nat.min_l by done.
  change (drop 12 (replicate 12 x00)) with (@nil byte). rewrite app_nil_r.
  rewrite bool_decide_eq_true_2; [done|]. intros E. rewrite E in Hr. simpl in Hr. lia.
Qed.

(** With fewer than 14 bytes there are no 12 bytes at offset 2; Sniff still
    answers true on one such buffer shape: 11 bytes "ACROSS&DOWN" at offset 2
    and nothing after them. *)
Lemma Sniff_short data :
  len (elems data) < 14 ->
  AcrossLite.Sniff data
  = bool_decide (drop 2 (elems data) = bytesOf "ACROSS&DOWN").
Proof.
  intros Hlen. rewrite Sniff_unfold. cbv zeta.
  assert (length (drop 2 (elems data)) < 12)%nat as Hr
    by (rewrite length_drop; unfold len in Hlen; lia).
  rewrite take_ge by lia.
  generalize dependent (drop 2 (elems data)). clear. intros l Hl.
  do 12 (destruct l as [|? l];
         [apply eq_true_iff_eq; rewrite andb_true_iff, !bool_decide_eq_true;
          vm_compute; split; [intros [_ E]|intros E]; try discriminate E;
          try (split; [discriminate|]); congruence|]).
  simpl in Hl. lia.
Qed.

Lemma Puzzle_Load_no_provider p data :
  AcrossLite.Sniff data = false ->
  Puzzle_Load p data = Some (Some NoProviderFound, p).
Proof. intros H. unfold Puzzle_Load. by rewrite H. Qed.

(** ** The reader on a buffer that starts with a known field *)

Lemma readFull_app n xs rest :
  len xs = n -> readFull n (xs ++ rest) = (inr xs, rest).
Proof.
  intros <-. unfold readFull, len. rewrite length_app, Nat2Z.id.
  destruct (Z.ltb_spec (Z.of_nat (length xs + length rest)) (Z.of_nat (length xs)));
    [lia|].
  by rewrite take_app_length, drop_app_length.
Qed.

Lemma Next_app n xs rest : len xs = n -> Next n (xs ++ rest) = rest.
Proof. intros <-. unfold Next, len. by rewrite Nat2Z.id, drop_app_length. Qed.

Lemma binary_Read_uint16_app xs rest :
  length xs = 2%nat ->
  binary_Read_uint16 (xs ++ rest) = (inr (le16 xs), rest).
Proof.
  intros H. unfold binary_Read_uint16. rewrite readFull_app; [done|].
  unfold len. by rewrite H.
Qed.

Lemma binary_Read_byte_cons x rest :
  binary_Read_byte (x :: rest) = (inr (byteZ x), rest).
Proof.
  unfold binary_Read_byte. change (x :: rest) with ([x] ++ rest).
  by rewrite (readFull_app 1 [x] rest).
Qed.

Lemma ReadString_app s rest :
  nulFree s ->
  ReadString NUL (s ++ NUL :: rest) = ((s ++ [NUL], None), rest).
Proof.
  unfold nulFree. induction s as [|x s IH]; intros Hs; simpl.
  - reflexivity.
  - apply not_elem_of_cons in Hs as [Hx Hs].
    rewrite bool_decide_eq_false_2 by congruence. by rewrite IH.
Qed.

Lemma ReadString_eof s :
  nulFree s -> ReadString NUL s = ((s, Some EOF), []).
Proof.
  unfold nulFree. induction s as [|x s IH]; intros Hs; simpl; [done|].
  apply not_elem_of_cons in Hs as [Hx Hs].
  rewrite bool_decide_eq_false_2 by congruence. by rewrite IH.
Qed.

Lemma readString_app s rest :
  nulFree s -> readString (s ++ NUL :: rest) = ((s, None), rest).
Proof.
  intros Hs. unfold readString. change x00 with NUL. rewrite ReadString_app by done.
  rewrite length_app. simpl.
  replace (length s + 1 - 1)%nat with (length s) by lia.
  by rewrite take_app_length.
Qed.

Lemma readString_eof s :
  nulFree s -> readString s = ((s, Some EOF), []).
Proof.
  intros Hs. unfold readString. change x00 with NUL. by rewrite ReadString_eof.
Qed.

Lemma readMatrixRows_concat cols todo : forall k done rest,
  length done = k ->
  Forall (fun r => len r = cols) todo ->
  readMatrixRows (seqZ (Z.of_nat k) (len todo)) cols
    (done ++ replicate (length todo) []) (concat todo ++ rest)
  = (inr (done ++ todo), rest).
Proof.
  induction todo as [|r todo IH]; intros k done rest Hk Hall.
  - rewrite seqZ_nil by done. by simpl.
  - apply Forall_cons in Hall as [Hr Hall].
    unfold len. rewrite seqZ_cons by (simpl; lia). simpl readMatrixRows.
    simpl concat. rewrite <- app_assoc. unfold binary_Read_bytes.
    rewrite readFull_app by done. rewrite Nat2Z.id.
    simpl replicate.
    rewrite <- Hk, insert_app_r_alt, Nat.sub_diag by lia. simpl insert.
    rewrite cons_middle, app_assoc.
    replace (Z.pred (Z.of_nat (S (length todo)))) with (len todo)
      by (unfold len; lia).
    replace (Z.succ (Z.of_nat (length done))) with (Z.of_nat (S (length done))) by lia.
    rewrite (IH (S (length done)) (done ++ [r]) rest); [|by rewrite length_app; simpl; lia|done].
    by rewrite <- app_assoc.
Qed.

Lemma readMatrix_concat rows cols m rest :
  fits rows cols m ->
  readMatrix (concat m ++ rest) rows cols = (inr m, rest).
Proof.
  intros [Hrows Hcols]. unfold readMatrix. rewrite <- Hrows. unfold len at 2.
  rewrite Nat2Z.id.
  exact (readMatrixRows_concat cols m 0 [] rest eq_refl Hcols).
Qed.

Lemma AcrossLite_readClues_terminated clues : forall idx a rest,
  length idx = length clues ->
  Forall nulFree clues ->
  AcrossLite.readClues idx a (terminated clues ++ rest)
  = ((None, AcrossLite.set_Clues a (AcrossLite.Clues a ++ clues)), rest).
Proof.
  induction clues as [|c clues IH]; intros idx a rest Hlen Hall.
  - destruct idx; [|done]. simpl. rewrite app_nil_r. by destruct a.
  - destruct idx as [|i idx]; [done|]. apply Forall_cons in Hall as [Hc Hall].
    simpl. rewrite <- !app_assoc. simpl. rewrite readString_app by done.
    fold (terminated clues). rewrite IH by (done || (simpl in Hlen; lia)).
    simpl. by rewrite <- app_assoc.
Qed.

Lemma Legacy_readClues_terminated clues : forall idx p rest,
  length idx = length clues ->
  Forall nulFree clues ->
  Legacy.readClues idx p (terminated clues ++ rest)
  = ((None, Legacy.set_clues p (Legacy.clues p ++ clues)), rest).
Proof.
  induction clues as [|c clues IH]; intros idx p rest Hlen Hall.
  - destruct idx; [|done]. simpl. rewrite app_nil_r. by destruct p.
  - destruct idx as [|i idx]; [done|]. apply Forall_cons in Hall as [Hc Hall].
    simpl. rewrite <- !app_assoc. simpl. rewrite readString_app by done.
    fold (terminated clues). rewrite IH by (done || (simpl in Hlen; lia)).
    simpl. by rewrite <- app_assoc.
Qed.

(** ** Parse on a laid-out file *)

Lemma len_length {A} (l : list A) n : length l = n -> len l = Z.of_nat n.
Proof. intros <-. done. Qed.

Lemma le16_NUL : le16 [NUL; NUL] = 0.
Proof. reflexivity. Qed.

Ltac read_step :=
  first
    [ rewrite binary_Read_uint16_app by assumption
    | rewrite Next_app by (unfold len; lia)
    | rewrite readFull_app by (unfold len; lia)
    | rewrite binary_Read_byte_cons
    | rewrite readString_app by assumption ];
  cbv beta iota zeta.

Lemma parseFields_layout a L sp :
  wellFormed L ->
  AcrossLite.parseFields a (mkSlice (encode L) sp) = (None, parsed a L).
Proof.
  intros [].
  destruct L as [fil mgc cib msk ver r1c scr r20 cols rows ncl bmk sol st
                   title author copyright clues notes rest].
  cbn [lyCksumFil lyMagic lyCksumCib lyCksumMsk lyVersion lyReserved1C
       lyCksumScr lyReserved20 lyCols lyRows lyNumClues lyBitmask lySolution
       lyState lyTitle lyAuthor lyCopyright lyClues lyNotes lyRest] in *.
  unfold AcrossLite.parseFields, parsed, encode, headBytes, cibBytes, textBytes,
    tailBytes, binary_Read_bytes.
  cbn [lyCksumFil lyMagic lyCksumCib lyCksumMsk lyVersion lyReserved1C
       lyCksumScr lyReserved20 lyCols lyRows lyNumClues lyBitmask lySolution
       lyState lyTitle lyAuthor lyCopyright lyClues lyNotes lyRest elems].
  cbv zeta. rewrite <- !app_assoc.
  do 8 read_step.
  change ([cols; rows] ++ ?r) with (cols :: rows :: r).
  do 4 read_step.
  change ([NUL; NUL] ++ ?r) with ([NUL; NUL] ++ r).
  rewrite (binary_Read_uint16_app [NUL; NUL]) by done. cbv beta iota zeta.
  rewrite le16_NUL. rewrite (bool_decide_eq_false_2 (0 ≠ 0)) by (intros H; by apply H).
  cbn [AcrossLite.Rows AcrossLite.Cols AcrossLite.set_Rows AcrossLite.set_Cols
       AcrossLite.set_Solution].
  rewrite readMatrix_concat by assumption. cbv beta iota zeta.
  cbn [AcrossLite.Rows AcrossLite.Cols AcrossLite.set_Rows AcrossLite.set_Cols
       AcrossLite.set_Solution].
  rewrite Next_app by assumption.
  unfold terminated at 1. cbn [flat_map]. rewrite <- !app_assoc. cbn [app].
  do 3 read_step.
  rewrite AcrossLite_readClues_terminated
    by (assumption || (rewrite length_seqZ; unfold len in *; lia)).
  cbv beta iota zeta.
  destruct rest as [extra|].
  - rewrite readString_app by assumption. cbv beta iota zeta. reflexivity.
  - rewrite app_nil_r, readString_eof by assumption. cbv beta iota zeta.
    reflexivity.
Qed.


(** ** Reslicing a buffer of known parts *)

Lemma reslice_mid pre mid post sp lo hi :
  lo = len pre -> hi = len pre + len mid ->
  reslice (mkSlice (pre ++ mid ++ post) sp) lo hi
  = Some (mkSlice mid (post ++ sp)).
Proof.
  intros -> ->. unfold reslice, cap. cbn [elems spare].
  pose proof (len_nonneg pre). pose proof (len_nonneg mid).
  pose proof (len_nonneg post). pose proof (len_nonneg sp).
  rewrite !len_app.
  destruct (Z.leb_spec 0 (len pre)); [|lia].
  destruct (Z.leb_spec (len pre) (len pre + len mid)); [|lia].
  destruct (Z.leb_spec (len pre + len mid) (len pre + (len mid + len post) + len sp));
    [|lia].
  cbn [andb]. f_equal. unfold len.
  replace (Z.to_nat (Z.of_nat (length pre) + Z.of_nat (length mid) - Z.of_nat (length pre)))
    with (length mid) by lia.
  rewrite Nat2Z.id.
  replace (Z.to_nat (Z.of_nat (length pre) + Z.of_nat (length mid)))
    with (length (pre ++ mid)) by (rewrite length_app; lia).
  rewrite <- !app_assoc, drop_app_length, take_app_length.
  rewrite (app_assoc pre mid), drop_app_length. done.
Qed.

Lemma resliceFrom_app pre post sp lo :
  lo = len pre ->
  resliceFrom (mkSlice (pre ++ post) sp) lo = Some (mkSlice post sp).
Proof.
  intros ->. unfold resliceFrom. cbn [elems].
  pose proof (reslice_mid pre post [] sp (len pre) (len (pre ++ post)) eq_refl
                (len_app _ _)) as H.
  rewrite app_nil_r in H. exact H.
Qed.

Lemma reslice_overrun s lo hi : cap s < hi -> reslice s lo hi = None.
Proof.
  intros H. unfold reslice. destruct (Z.leb_spec hi (cap s)); [lia|].
  by rewrite andb_false_r.
Qed.

(** ** The text sums of the verifiers on a known text region *)

Lemma withNUL_cons x s : withNUL (x :: s) = (x :: s) ++ [NUL].
Proof. reflexivity. Qed.

Lemma sumField_at pre s post sp cF cP c :
  c = len pre ->
  sumField (mkSlice (pre ++ s ++ NUL :: post) sp) s (cF, cP, c)
  = Some (cksum (withNUL s) cF, cksum (withNUL s) cP, c + len s).
Proof.
  intros ->. unfold sumField. destruct s as [|x s].
  - change (len (@nil byte)) with 0. rewrite Z.add_0_r. done.
  - rewrite len_cons. pose proof (len_nonneg s).
    destruct (Z.ltb_spec 0 (len s + 1)); [|lia].
    rewrite (cons_middle NUL), (app_assoc (x :: s) [NUL]).
    rewrite (reslice_mid pre ((x :: s) ++ [NUL]) post sp);
      [done|done|rewrite len_app, len_cons, len_cons, len_nil; lia].
Qed.

Lemma sumClues_at clues : forall pre post sp cF cP c,
  c = len pre ->
  sumClues (mkSlice (pre ++ terminated clues ++ post) sp) clues (cF, cP, c)
  = Some (cksum (concat clues) cF, cksum (concat clues) cP,
          c + len (terminated clues)).
Proof.
  induction clues as [|clue clues IH]; intros pre post sp cF cP c ->.
  - simpl. change (len (@nil byte)) with 0. rewrite Z.add_0_r. done.
  - unfold terminated. cbn [flat_map sumClues concat]. fold (terminated clues).
    rewrite <- !app_assoc.
    rewrite (reslice_mid pre clue _ sp) by done. cbn [elems].
    cbn [app].
    specialize (IH (pre ++ clue ++ [NUL]) post sp (cksum clue cF) (cksum clue cP)
                  (len pre + len clue + 1)).
    rewrite <- !app_assoc in IH. cbn [app] in IH. rewrite IH.
    + rewrite !cksum_app, !len_app, len_cons. change (len (@nil byte)) with 0.
      f_equal. f_equal. lia.
    + rewrite !len_app, len_cons. change (len (@nil byte)) with 0. lia.
Qed.

(** The bytes of the masked checksum, as the code and as the specification
    compute them. *)
Lemma low_byte v : Z.land v 0xFF = v mod 256.
Proof. change 0xFF with (Z.ones 8). by rewrite Z.land_ones. Qed.

Lemma high_byte v : is_uint16 v -> Z.shiftr (Z.land v 0xFF00) 8 = v / 256.
Proof.
  intros Hv. rewrite Z.shiftr_land. change (Z.shiftr 0xFF00 8) with (Z.ones 8).
  rewrite Z.land_ones, Z.shiftr_div_pow2 by lia. change (2 ^ 8) with 256.
  apply Z.mod_small. unfold is_uint16 in Hv. split.
  - apply Z.div_pos; lia.
  - apply Z.div_lt_upper_bound; lia.
Qed.

(** ** What a successful read says about the buffer *)

Lemma readFull_inv n r xs r' :
  0 <= n -> readFull n r = (inr xs, r') -> r = xs ++ r' /\ len xs = n.
Proof.
  intros Hn. unfold readFull. destruct (Z.ltb_spec (len r) n) as [|Hle]; [done|].
  intros [= <- <-]. rewrite take_drop. split; [done|].
  unfold len in *. rewrite length_take. lia.
Qed.

Lemma binary_Read_uint16_inv r v r' :
  binary_Read_uint16 r = (inr v, r') ->
  exists xs, length xs = 2%nat /\ r = xs ++ r' /\ v = le16 xs.
Proof.
  unfold binary_Read_uint16. destruct (readFull 2 r) as [[e|xs] r1] eqn:E; [done|].
  intros [= <- <-]. apply readFull_inv in E as [-> Hlen]; [|lia].
  exists xs. unfold len in Hlen. split; [lia|done].
Qed.

Lemma binary_Read_byte_inv r v r' :
  binary_Read_byte r = (inr v, r') -> exists x, r = x :: r' /\ v = byteZ x.
Proof.
  unfold binary_Read_byte. destruct (readFull 1 r) as [[e|xs] r1] eqn:E; [done|].
  intros [= <- <-]. apply readFull_inv in E as [-> Hlen]; [|lia].
  destruct xs as [|x [|y xs]]; try (unfold len in Hlen; simpl in Hlen; lia).
  by exists x.
Qed.

Lemma Next_inv n r :
  0 <= n -> Next n r <> [] ->
  r = take (Z.to_nat n) r ++ Next n r /\ length (take (Z.to_nat n) r) = Z.to_nat n.
Proof.
  intros Hn Hne. unfold Next in *. rewrite take_drop. split; [done|].
  rewrite length_take. apply Nat.min_l.
  destruct (decide (Z.to_nat n <= length r)%nat) as [|Hgt]; [done|].
  exfalso. apply Hne. apply drop_ge. lia.
Qed.

Lemma Next_nil n : Next n [] = [].
Proof. unfold Next. by rewrite drop_nil. Qed.

Lemma ReadString_inv r : forall out err r',
  ReadString NUL r = ((out, err), r') ->
  (err = None /\ exists s, out = s ++ [NUL] /\ nulFree s /\ r = s ++ NUL :: r') \/
  (err = Some EOF /\ out = r /\ nulFree r /\ r' = []).
Proof.
  unfold nulFree. induction r as [|x r IH]; intros out err r'; simpl.
  - intros [= <- <- <-]. right. repeat split; try done. apply not_elem_of_nil.
  - case_bool_decide as Hx.
    + intros [= <- <- <-]. left. split; [done|]. exists []. subst x.
      repeat split; try done. apply not_elem_of_nil.
    + destruct (ReadString NUL r) as [[out1 err1] r1] eqn:E.
      intros [= <- <- <-].
      destruct (IH _ _ _ eq_refl) as [(-> & s & -> & Hs & ->)|(-> & -> & Hs & ->)].
      * left. split; [done|]. exists (x :: s). repeat split; try done.
        apply not_elem_of_cons. split; [congruence|done].
      * right. repeat split; try done.
        apply not_elem_of_cons. split; [congruence|done].
Qed.

Lemma readString_inv r s err r' :
  readString r = ((s, err), r') ->
  nulFree s /\
  ((err = None /\ r = s ++ NUL :: r') \/ (err = Some EOF /\ r = s /\ r' = [])).
Proof.
  unfold readString. change x00 with NUL.
  destruct (ReadString NUL r) as [[out1 err1] r1] eqn:E.
  apply ReadString_inv in E as [(-> & s1 & -> & Hs & ->)|(-> & -> & Hs & ->)].
  - rewrite length_app. simpl.
    replace (length s1 + 1 - 1)%nat with (length s1) by lia.
    rewrite take_app_length. intros [= <- <- <-]. split; [done|]. by left.
  - intros [= <- <- <-]. split; [done|]. by right.
Qed.

Lemma readMatrixRows_inv cols n : forall k done r m r',
  0 <= cols -> length done = k ->
  readMatrixRows (seqZ (Z.of_nat k) (Z.of_nat n)) cols (done ++ replicate n []) r
  = (inr m, r') ->
  exists todo, m = done ++ todo /\ length todo = n /\
               Forall (fun row => len row = cols) todo /\ r = concat todo ++ r'.
Proof.
  induction n as [|n IH]; intros k done r m r' Hcols Hk.
  - rewrite seqZ_nil by done. simpl. rewrite app_nil_r. intros [= <- <-].
    exists []. by rewrite app_nil_r.
  - rewrite seqZ_cons by lia. simpl readMatrixRows. unfold binary_Read_bytes.
    destruct (readFull cols r) as [[e|row] r1] eqn:E; [done|].
    apply readFull_inv in E as [-> Hrow]; [|done].
    rewrite Nat2Z.id. simpl replicate.
    rewrite <- Hk, insert_app_r_alt, Nat.sub_diag by lia. simpl insert.
    rewrite cons_middle, app_assoc.
    replace (Z.pred (Z.of_nat (S n))) with (Z.of_nat n) by lia.
    replace (Z.succ (Z.of_nat (length done))) with (Z.of_nat (S (length done))) by lia.
    intros H. apply IH in H as (todo & -> & Hlen & Hall & ->);
      [|done|rewrite length_app; simpl; lia].
    exists (row :: todo). rewrite <- !app_assoc. simpl.
    repeat split; try done; [lia| |by rewrite <- app_assoc].
    by constructor.
Qed.

Lemma readMatrix_inv r rows cols m r' :
  0 <= rows -> 0 <= cols ->
  readMatrix r rows cols = (inr m, r') ->
  fits rows cols m /\ r = concat m ++ r'.
Proof.
  intros Hrows Hcols. unfold readMatrix.
  rewrite <- (Z2Nat.id rows) at 1 by done.
  intros H. apply (readMatrixRows_inv cols (Z.to_nat rows) 0 []) in H
    as (todo & -> & Hlen & Hall & ->); [|done|done].
  split; [|done]. split; [|done]. unfold len. simpl. lia.
Qed.

Lemma AcrossLite_readClues_inv idx : forall a r a' r',
  AcrossLite.readClues idx a r = ((None, a'), r') ->
  exists clues, length clues = length idx /\ Forall nulFree clues /\
                r = terminated clues ++ r' /\
                a' = AcrossLite.set_Clues a (AcrossLite.Clues a ++ clues).
Proof.
  induction idx as [|i idx IH]; intros a r a' r'; simpl.
  - intros [= <- <-]. exists []. rewrite app_nil_r. by destruct a.
  - destruct (readString r) as [[str err] r1] eqn:E.
    apply readString_inv in E as [Hs [[-> ->]|[-> _]]]; [|done].
    intros H. apply IH in H as (clues & Hlen & Hall & -> & ->).
    exists (str :: clues). simpl. rewrite <- !app_assoc. simpl.
    repeat split; try done; [lia|by constructor].
Qed.

Lemma byteZ_range x : 0 <= byteZ x < 256.
Proof.
  unfold byteZ. pose proof (Byte.to_N_bounded x). lia.
Qed.

Lemma byteZ_0 x : byteZ x = 0 -> x = NUL.
Proof.
  unfold byteZ. intros H. assert (Byte.to_N x = 0%N) as E by lia.
  pose proof (Byte.of_to_N x) as Hx. rewrite E in Hx. by injection Hx.
Qed.

Lemma le16_nonneg xs : 0 <= le16 xs.
Proof.
  destruct xs as [|b0 [|b1 [|? ?]]]; simpl; try lia.
  pose proof (byteZ_range b0). pose proof (byteZ_range b1).
  apply Z.lor_nonneg. split; [lia|]. apply Z.shiftl_nonneg. lia.
Qed.

Lemma le16_0 xs : length xs = 2%nat -> le16 xs = 0 -> xs = [NUL; NUL].
Proof.
  destruct xs as [|b0 [|b1 [|? ?]]]; try done. intros _. simpl.
  intros H. apply Z.lor_eq_0_iff in H as [H0 H1].
  apply Z.shiftl_eq_0_iff in H1; [|lia].
  by rewrite (byteZ_0 b0), (byteZ_0 b1).
Qed.

Lemma app_nonempty_l {A} (xs r : list A) n :
  length xs = S n -> xs ++ r <> [].
Proof. by destruct xs. Qed.

(** Every buffer the reads of Parse accept is a laid-out file. *)
Lemma parseFields_inv a data a' :
  AcrossLite.parseFields a data = (None, a') ->
  exists L, wellFormed L /\ elems data = encode L /\ a' = parsed a L.
Proof.
  unfold AcrossLite.parseFields. cbv zeta.
  destruct (binary_Read_uint16 (elems data)) as [[e|v1] b1] eqn:E1; [done|].
  apply binary_Read_uint16_inv in E1 as (fil & Hfil & E1 & ->).
  destruct (binary_Read_uint16 (Next 12 b1)) as [[e|v2] b3] eqn:E3; [done|].
  apply binary_Read_uint16_inv in E3 as (cib & Hcib & E3 & ->).
  destruct (Next_inv 12 b1) as [E2 Hmgc]; [lia|rewrite E3; by eapply app_nonempty_l|].
  unfold binary_Read_bytes.
  destruct (readFull 8 b3) as [[e|msk] b4] eqn:E4; [done|].
  apply readFull_inv in E4 as [E4 Hmsk]; [|lia].
  destruct (binary_Read_uint16 (Next 2 (Next 4 b4))) as [[e|v3] b7] eqn:E7; [done|].
  apply binary_Read_uint16_inv in E7 as (scr & Hscr & E7 & ->).
  destruct (Next_inv 2 (Next 4 b4)) as [E6 Hr1c];
    [lia|rewrite E7; by eapply app_nonempty_l|].
  destruct (Next_inv 4 b4) as [E5 Hver];
    [lia|intros H; rewrite H, Next_nil in E7; by destruct scr|].
  destruct (binary_Read_byte (Next 12 b7)) as [[e|vc] b9] eqn:E9; [done|].
  apply binary_Read_byte_inv in E9 as (cols & E9 & ->).
  destruct (Next_inv 12 b7) as [E8 Hr20]; [lia|by rewrite E9|].
  destruct (binary_Read_byte b9) as [[e|vr] b10] eqn:E10; [done|].
  apply binary_Read_byte_inv in E10 as (rows & E10 & ->).
  destruct (binary_Read_uint16 b10) as [[e|vn] b11] eqn:E11; [done|].
  apply binary_Read_uint16_inv in E11 as (ncl & Hncl & E11 & ->).
  destruct (binary_Read_uint16 (Next 2 b11)) as [[e|vt] b13] eqn:E13; [done|].
  apply binary_Read_uint16_inv in E13 as (tag & Htag & E13 & ->).
  destruct (Next_inv 2 b11) as [E12 Hbmk];
    [lia|rewrite E13; by eapply app_nonempty_l|].
  case_bool_decide as Hzero; [done|].
  assert (tag = [NUL; NUL]) as ->.
  { apply le16_0; [done|]. by destruct (decide (le16 tag = 0)). }
  cbn [AcrossLite.Rows AcrossLite.Cols AcrossLite.set_Rows AcrossLite.set_Cols
       AcrossLite.set_Solution].
  pose proof (byteZ_range cols) as Hcols. pose proof (byteZ_range rows) as Hrows.
  destruct (readMatrix b13 (byteZ rows) (byteZ cols)) as [[e|sol] b14] eqn:E14;
    [done|].
  apply readMatrix_inv in E14 as [Hsol E14]; [|lia|lia].
  cbn [AcrossLite.Rows AcrossLite.Cols AcrossLite.set_Rows AcrossLite.set_Cols
       AcrossLite.set_Solution].
  destruct (readString (Next (byteZ rows * byteZ cols) b14))
    as [[title err] b16] eqn:E16.
  apply readString_inv in E16 as [Htitle [[-> E16]|[-> _]]]; [|done].
  destruct (Next_inv (byteZ rows * byteZ cols) b14) as [E15 Hst];
    [lia|rewrite E16; by destruct title|].
  destruct (readString b16) as [[author err] b17] eqn:E17.
  apply readString_inv in E17 as [Hauthor [[-> E17]|[-> _]]]; [|done].
  destruct (readString b17) as [[copyright err] b18] eqn:E18.
  apply readString_inv in E18 as [Hcopyright [[-> E18]|[-> _]]]; [|done].
  destruct (AcrossLite.readClues _ _ b18) as [[err a1] b19] eqn:E19.
  destruct err as [e|]; [done|].
  apply AcrossLite_readClues_inv in E19 as (clues & Hlen & Hclues & E19 & ->).
  rewrite length_seqZ in Hlen.
  destruct (readString b19) as [[notes err] b20] eqn:E20.
  apply readString_inv in E20 as [Hnotes Hcase].
  set (rest := match err with None => Some b20 | Some _ => None end).
  intros Hres.
  set (L := mkLayout fil (take (Z.to_nat 12) b1) cib msk (take (Z.to_nat 4) b4)
            (take (Z.to_nat 2) (Next 4 b4)) scr (take (Z.to_nat 12) b7)
            cols rows ncl (take (Z.to_nat 2) b11) sol
            (take (Z.to_nat (byteZ rows * byteZ cols)) b14)
            title author copyright clues notes rest).
  assert (elems data = encode L) as Henc; [|exists L; split; [|split; [done|]]].
  2: constructor; cbn; try done; try lia.
  2: unfold len in Hmsk; lia.
  2: unfold len; rewrite Hst; lia.
  2: pose proof (le16_nonneg ncl); unfold len; lia.
  - unfold L, encode, headBytes, cibBytes, textBytes, tailBytes, terminated.
    cbn [lyCksumFil lyMagic lyCksumCib lyCksumMsk lyVersion lyReserved1C
         lyCksumScr lyReserved20 lyCols lyRows lyNumClues lyBitmask lySolution
         lyState lyTitle lyAuthor lyCopyright lyClues lyNotes lyRest flat_map].
    fold (terminated clues).
    assert (b19 = notes ++ match rest with
                           | None => []
                           | Some extra => NUL :: extra
                           end) as E20.
    { unfold rest. destruct Hcase as [[-> ->]|[-> [-> ->]]]; [done|].
      by rewrite app_nil_r. }
    rewrite <- !app_assoc. cbn [app].
    rewrite E1. f_equal. rewrite E2 at 1. f_equal. rewrite E3. f_equal.
    rewrite E4. f_equal. rewrite E5 at 1. f_equal. rewrite E6 at 1. f_equal.
    rewrite E7. f_equal. rewrite E8 at 1. f_equal. rewrite E9. f_equal.
    rewrite E10. f_equal. rewrite E11. f_equal. rewrite E12 at 1. f_equal.
    rewrite E13. cbn [app]. do 2 f_equal. rewrite E14. f_equal.
    rewrite E15 at 1. f_equal. rewrite E16. do 2 f_equal. rewrite E17.
    do 2 f_equal. rewrite E18. do 2 f_equal. rewrite E19. f_equal. exact E20.
  - unfold parsed. rewrite <- Henc. unfold L.
    destruct Hcase as [[-> ->]|[-> [-> ->]]].
    + rewrite (bool_decide_eq_false_2 (None ≠ None)) in Hres
        by (intros H; by apply H).
      cbn [andb] in Hres. by injection Hres as <-.
    + rewrite (bool_decide_eq_false_2 (Some EOF ≠ Some EOF)), andb_false_r in Hres
        by (intros H; by apply H).
      by injection Hres as <-.
Qed.

Lemma reslice_at d pre mid post lo hi :
  elems d = pre ++ mid ++ post ->
  lo = len pre -> hi = len pre + len mid ->
  reslice d lo hi = Some (mkSlice mid (post ++ spare d)).
Proof. destruct d as [el sp]. simpl. intros ->. apply reslice_mid. Qed.

Lemma sumField_text d pre s post cF cP c :
  elems d = pre ++ s ++ NUL :: post -> c = len pre ->
  sumField d s (cF, cP, c)
  = Some (cksum (withNUL s) cF, cksum (withNUL s) cP, c + len s).
Proof. destruct d as [el sp]. simpl. intros ->. apply sumField_at. Qed.

Lemma sumClues_text d clues pre post cF cP c :
  elems d = pre ++ terminated clues ++ post -> c = len pre ->
  sumClues d clues (cF, cP, c)
  = Some (cksum (concat clues) cF, cksum (concat clues) cP,
          c + len (terminated clues)).
Proof. destruct d as [el sp]. simpl. intros ->. apply sumClues_at. Qed.

Lemma notes_nonempty (s : list byte) : (0 <? len s) = bool_decide (s <> []).
Proof. by destruct s. Qed.

Lemma AcrossLite_sumNotes_text a d pre rest cF cP c :
  elems d = pre ++ AcrossLite.Notes a
            ++ match rest with None => [] | Some extra => NUL :: extra end ->
  spare d = [] -> c = len pre ->
  AcrossLite.sumNotes a d (cF, cP, c)
  = if AcrossLite.notesIncluded a cF then
      match rest with
      | None => None
      | Some _ => Some (cksum (AcrossLite.Notes a ++ [NUL]) cF,
                        cksum (AcrossLite.Notes a ++ [NUL]) cP, c)
      end
    else Some (cF, cP, c).
Proof.
  intros Hd Hsp ->. unfold AcrossLite.sumNotes.
  destruct (AcrossLite.notesIncluded a cF); [|done].
  destruct rest as [extra|].
  - rewrite (reslice_at d pre (AcrossLite.Notes a ++ [NUL]) extra); [done| |done|].
    + by rewrite Hd, <- !app_assoc.
    + rewrite len_app, len_cons. change (len (@nil byte)) with 0. lia.
  - rewrite reslice_overrun; [done|]. unfold cap. rewrite Hd, Hsp, !len_app.
    change (len (@nil byte)) with 0. lia.
Qed.

Lemma maskedOf_spec cCib cSol cGrid cPart :
  is_uint16 cCib -> is_uint16 cSol -> is_uint16 cGrid -> is_uint16 cPart ->
  maskedOf cCib cSol cGrid cPart
  = zip_with Z.lxor (byteZ <$> bytesOf "ICHEATED")
      (((fun v => v mod 256) <$> [cCib; cSol; cGrid; cPart]) ++
       ((fun v => v / 256) <$> [cCib; cSol; cGrid; cPart])).
Proof.
  intros. unfold maskedOf. rewrite !low_byte, !high_byte by done. reflexivity.
Qed.

Lemma len_concat_fits rows cols m :
  fits rows cols m -> len (concat m) = rows * cols.
Proof.
  intros [<- Hall]. induction Hall as [|r m Hr Hall IH]; [done|].
  simpl concat. rewrite len_app, len_cons, IH, Hr. lia.
Qed.

Lemma uint16_0 : is_uint16 0.
Proof. unfold is_uint16. lia. Qed.

Lemma len_headBytes L : wellFormed L -> len (headBytes L) = 0x2c.
Proof.
  intros []. unfold headBytes. rewrite !len_app. unfold len. lia.
Qed.

Lemma len_cibBytes L : wellFormed L -> len (cibBytes L) = 8.
Proof.
  intros []. unfold cibBytes. rewrite !len_app. unfold len. simpl length. lia.
Qed.

Lemma textBytes_split L :
  textBytes L
  = lyTitle L ++ NUL :: lyAuthor L ++ NUL :: lyCopyright L ++ NUL ::
    terminated (lyClues L) ++ tailBytes L.
Proof.
  unfold textBytes, terminated at 1. cbn [flat_map].
  rewrite <- !app_assoc. cbn [app]. done.
Qed.

(** The sums over title, author, copyright and clues, on the text region [d]
    of a laid-out file. *)
Ltac text_sums L d HT :=
  rewrite (sumField_text d [] (lyTitle L)
             (lyAuthor L ++ NUL :: lyCopyright L ++ NUL ::
              terminated (lyClues L) ++ tailBytes L)); [|exact HT|done];
  rewrite (sumField_text d (lyTitle L ++ [NUL]) (lyAuthor L)
             (lyCopyright L ++ NUL :: terminated (lyClues L) ++ tailBytes L));
    [|by (unfold d; cbn [elems]; rewrite HT, <- !app_assoc)
     |rewrite len_app, len_cons; change (len (@nil byte)) with 0; lia];
  rewrite (sumField_text d (lyTitle L ++ [NUL] ++ lyAuthor L ++ [NUL])
             (lyCopyright L) (terminated (lyClues L) ++ tailBytes L));
    [|by (unfold d; cbn [elems]; rewrite HT, <- !app_assoc)
     |rewrite !len_app, !len_cons; change (len (@nil byte)) with 0; lia];
  rewrite (sumClues_text d (lyClues L)
             (lyTitle L ++ [NUL] ++ lyAuthor L ++ [NUL] ++ lyCopyright L ++ [NUL])
             (tailBytes L));
    [|by (unfold d; cbn [elems]; rewrite HT, <- !app_assoc)
     |rewrite !len_app, !len_cons; change (len (@nil byte)) with 0; lia];
  rewrite <- !cksum_app; change (len (@nil byte)) with 0.

(** The four regions of a laid-out file, as the verifiers slice them. *)
Lemma regions_layout L sp :
  wellFormed L ->
  let data := mkSlice (encode L) sp in
  let size := byteZ (lyCols L) * byteZ (lyRows L) in
  (exists s, reslice data 0x2c (0x2c + 8) = Some s /\ elems s = cibBytes L) /\
  (exists s, reslice data 0x34 (0x34 + size) = Some s /\
             elems s = concat (lySolution L)) /\
  (exists s, reslice data (0x34 + size) (0x34 + size + size) = Some s /\
             elems s = lyState L) /\
  resliceFrom data (0x34 + size + size) = Some (mkSlice (textBytes L) sp).
Proof.
  intros Hwf data size. pose proof (len_headBytes L Hwf) as HH.
  pose proof (len_cibBytes L Hwf) as HC.
  pose proof (len_concat_fits _ _ _ (wfSolution L Hwf)) as HS.
  pose proof (wfState L Hwf) as HG.
  assert (len (concat (lySolution L)) = size) as HS' by (unfold size; lia).
  assert (len (lyState L) = size) as HG' by (unfold size; lia).
  split; [|split; [|split]].
  - eexists. split.
    + rewrite (reslice_at data (headBytes L) (cibBytes L)
                 (concat (lySolution L) ++ lyState L ++ textBytes L));
        [reflexivity|done|lia|lia].
    + reflexivity.
  - eexists. split.
    + rewrite (reslice_at data (headBytes L ++ cibBytes L) (concat (lySolution L))
                 (lyState L ++ textBytes L));
        [reflexivity
        |by (unfold data; cbn [elems]; unfold encode; rewrite <- !app_assoc)
        |rewrite len_app; lia|rewrite len_app; lia].
    + reflexivity.
  - eexists. split.
    + rewrite (reslice_at data (headBytes L ++ cibBytes L ++ concat (lySolution L))
                 (lyState L) (textBytes L));
        [reflexivity
        |by (unfold data; cbn [elems]; unfold encode; rewrite <- !app_assoc)
        |rewrite !len_app; lia|rewrite !len_app; lia].
    + reflexivity.
  - unfold resliceFrom.
    rewrite (reslice_at data
               (headBytes L ++ cibBytes L ++ concat (lySolution L) ++ lyState L)
               (textBytes L) []);
      [done
      |by (unfold data; cbn [elems]; unfold encode; rewrite <- !app_assoc, app_nil_r)
      |rewrite !len_app; lia
      |unfold data; cbn [elems]; unfold encode; rewrite !len_app; lia].
Qed.

(** Verify on the record Parse leaves for a laid-out file. *)
Lemma Verify_layout a L :
  wellFormed L ->
  AcrossLite.Verify (parsed a L) =
  if bool_decide (cibSum L ≠ le16 (lyCksumCib L)) then Some false
  else if notesEnter L && bool_decide (lyRest L = None) then None
  else Some (bool_decide (fileSum (notesEnter L) L = le16 (lyCksumFil L)) &&
             bool_decide (maskedSum (notesEnter L) L = byteZ <$> lyCksumMsk L)).
Proof.
  intros Hwf.
  unfold AcrossLite.Verify.
  cbn [parsed AcrossLite.Data AcrossLite.Cols AcrossLite.Rows AcrossLite.Title
       AcrossLite.Author AcrossLite.Copyright AcrossLite.Clues
       AcrossLite.CksumCib AcrossLite.CksumFil AcrossLite.CksumMsk].
  cbv zeta.
  destruct (regions_layout L [] Hwf)
    as ((dCib & -> & ->) & (dSol & -> & ->) & (dState & -> & ->) & ->).
  fold (cibSum L). case_bool_decide as Hcib; [done|].
  set (d := mkSlice (textBytes L) []).
  pose proof (textBytes_split L) as HT.
  text_sums L d HT.
  set (a' := parsed a L).
  rewrite (AcrossLite_sumNotes_text a' d
             (lyTitle L ++ [NUL] ++ lyAuthor L ++ [NUL] ++ lyCopyright L ++ [NUL]
              ++ terminated (lyClues L)) (lyRest L));
    [|by (unfold d, a'; cbn [elems parsed AcrossLite.Notes]; rewrite HT, <- !app_assoc)
     |done
     |rewrite !len_app, !len_cons; change (len (@nil byte)) with 0; lia].
  fold (textChain L).
  assert (cksum (concat (lySolution L) ++ lyState L ++ textChain L) (cibSum L)
          = fileSumBefore L) as ->
    by (unfold fileSumBefore; by rewrite !cksum_app).
  assert (AcrossLite.notesIncluded a' (fileSumBefore L) = notesEnter L) as Hincl.
  { unfold AcrossLite.notesIncluded, notesEnter. by rewrite notes_nonempty. }
  rewrite Hincl. unfold a'. cbn [parsed AcrossLite.Notes].
  fold (solSum L). fold (stateSum L).
  assert (is_uint16 (cibSum L)) by apply cksum_range, uint16_0.
  assert (is_uint16 (solSum L)) by apply cksum_range, uint16_0.
  assert (is_uint16 (stateSum L)) by apply cksum_range, uint16_0.
  assert (forall incl, is_uint16 (partSum incl L))
    by (intros; apply cksum_range, uint16_0).
  destruct (notesEnter L) eqn:Hen.
  - destruct (lyRest L) as [extra|] eqn:Hrest; [|done].
    rewrite (bool_decide_eq_false_2 (Some extra = None)) by done. cbn [andb].
    change (cksum (lyNotes L ++ [NUL]) (fileSumBefore L)) with (fileSum true L).
    rewrite <- cksum_app. change (cksum (textChain L ++ lyNotes L ++ [NUL]) 0)
      with (partSum true L).
    rewrite maskedOf_spec by done. fold (maskedSum true L).
    repeat case_bool_decide; done.
  - cbn [andb].
    change (fileSumBefore L) with (fileSum false L).
    replace (cksum (textChain L) 0) with (partSum false L)
      by (unfold partSum, notesChain; by rewrite app_nil_r).
    rewrite maskedOf_spec by done. fold (maskedSum false L).
    repeat case_bool_decide; done.
Qed.

(** ** Package puzzle on a laid-out file *)

Lemma rowsOf_fits n cols : forall l,
  length l = (n * cols)%nat ->
  fits (Z.of_nat n) (Z.of_nat cols) (rowsOf n cols l) /\ concat (rowsOf n cols l) = l.
Proof.
  induction n as [|n IH]; intros l Hl; simpl.
  - destruct l; [|done]. split; [|done]. split; [done|constructor].
  - destruct (IH (drop cols l)) as [[Hlen Hall] Hcat].
    { rewrite length_drop. lia. }
    split; [split|].
    + unfold len in *. simpl. lia.
    + constructor; [|done]. unfold len. rewrite length_take. lia.
    + by rewrite Hcat, take_drop.
Qed.

Lemma stateRows_fits L :
  wellFormed L ->
  fits (byteZ (lyRows L)) (byteZ (lyCols L)) (stateRows L) /\
  concat (stateRows L) = lyState L.
Proof.
  intros Hwf. pose proof (wfState L Hwf) as Hst.
  pose proof (byteZ_range (lyRows L)). pose proof (byteZ_range (lyCols L)).
  unfold stateRows.
  rewrite <- (Z2Nat.id (byteZ (lyRows L))) at 1 by lia.
  rewrite <- (Z2Nat.id (byteZ (lyCols L))) at 1 by lia.
  apply rowsOf_fits. unfold len in Hst. nia.
Qed.

Lemma versionLoop_cur ver cur :
  ver <> [] -> Legacy.versionLoop 0 ver ver cur = Legacy.versionLoop 0 ver ver [].
Proof. destruct ver as [|x ver]; [done|]. intros _. simpl. done. Qed.

Lemma loadFields_layout p L sp :
  wellFormed L -> lyMagic L = magic ->
  Legacy.loadFields p (mkSlice (encode L) sp) = (None, (loaded L, loadedSums L)).
Proof.
  intros Hwf Hmagic. destruct (stateRows_fits L Hwf) as [Hstfit Hstcat].
  unfold loaded, loadedSums, versionOf. revert Hstfit Hstcat.
  generalize (stateRows L). intros strows Hstfit Hstcat.
  destruct Hwf.
  destruct L as [fil mgc cib msk ver r1c scr r20 cols rows ncl bmk sol st
                   title author copyright clues notes rest].
  cbn [lyCksumFil lyMagic lyCksumCib lyCksumMsk lyVersion lyReserved1C
       lyCksumScr lyReserved20 lyCols lyRows lyNumClues lyBitmask lySolution
       lyState lyTitle lyAuthor lyCopyright lyClues lyNotes lyRest] in *.
  subst mgc st.
  unfold Legacy.loadFields, encode, headBytes, cibBytes, textBytes,
    tailBytes, binary_Read_bytes.
  cbn [lyCksumFil lyMagic lyCksumCib lyCksumMsk lyVersion lyReserved1C
       lyCksumScr lyReserved20 lyCols lyRows lyNumClues lyBitmask lySolution
       lyState lyTitle lyAuthor lyCopyright lyClues lyNotes lyRest elems].
  cbv zeta. rewrite <- !app_assoc.
  read_step.
  rewrite (readFull_app (len magic) magic) by done. cbv beta iota zeta.
  rewrite (bool_decide_eq_false_2 (magic ≠ magic)) by (intros H; by apply H).
  do 3 read_step.
  rewrite (versionLoop_cur ver) by (intros ->; done).
  do 3 read_step.
  change ([cols; rows] ++ ?r) with (cols :: rows :: r).
  do 4 read_step.
  rewrite (binary_Read_uint16_app [NUL; NUL]) by done. cbv beta iota zeta.
  rewrite le16_NUL. rewrite (bool_decide_eq_false_2 (0 ≠ 0)) by (intros H; by apply H).
  cbn [Legacy.rows Legacy.cols Legacy.set_rows Legacy.set_cols
       Legacy.set_solution Legacy.set_state].
  rewrite readMatrix_concat by assumption. cbv beta iota zeta.
  cbn [Legacy.rows Legacy.cols Legacy.set_rows Legacy.set_cols
       Legacy.set_solution Legacy.set_state].
  rewrite readMatrix_concat by assumption. cbv beta iota zeta.
  unfold terminated at 1. cbn [flat_map]. rewrite <- !app_assoc. cbn [app].
  do 3 read_step.
  rewrite Legacy_readClues_terminated
    by (assumption || (rewrite length_seqZ; unfold len in *; lia)).
  cbv beta iota zeta.
  destruct rest as [extra|].
  - rewrite readString_app by assumption. cbv beta iota zeta. reflexivity.
  - rewrite app_nil_r, readString_eof by assumption. cbv beta iota zeta.
    reflexivity.
Qed.

Lemma Legacy_sumNotes_text p d pre rest cF cP c :
  elems d = pre ++ Legacy.notes p
            ++ match rest with None => [] | Some extra => NUL :: extra end ->
  (rest = None -> spare d = []) -> c = len pre ->
  Legacy.sumNotes p d (cF, cP, c)
  = if Legacy.notesIncluded p then
      match rest with
      | None => None
      | Some _ => Some (cksum (Legacy.notes p ++ [NUL]) cF,
                        cksum (Legacy.notes p ++ [NUL]) cP, c)
      end
    else Some (cF, cP, c).
Proof.
  intros Hd Hsp ->. unfold Legacy.sumNotes.
  destruct (Legacy.notesIncluded p); [|done].
  destruct rest as [extra|].
  - rewrite (reslice_at d pre (Legacy.notes p ++ [NUL]) extra); [done| |done|].
    + by rewrite Hd, <- !app_assoc.
    + rewrite len_app, len_cons. change (len (@nil byte)) with 0. lia.
  - rewrite reslice_overrun; [done|]. unfold cap. rewrite Hd, Hsp, !len_app by done.
    change (len (@nil byte)) with 0. lia.
Qed.

(** verify on the puzzle Load leaves for a laid-out file. *)
Lemma Legacy_verify_layout L sp :
  wellFormed L -> (lyRest L = None -> sp = []) ->
  Legacy.verify (loaded L) (mkSlice (encode L) sp) (loadedSums L) =
  if bool_decide (cibSum L ≠ le16 (lyCksumCib L)) then Some false
  else if notesEnterLegacy L && bool_decide (lyRest L = None) then None
  else Some (bool_decide (fileSum (notesEnterLegacy L) L = le16 (lyCksumFil L)) &&
             bool_decide (maskedSum (notesEnterLegacy L) L
                          = byteZ <$> lyCksumMsk L)).
Proof.
  intros Hwf Hsp.
  unfold Legacy.verify.
  cbn [loaded loadedSums Legacy.cols Legacy.rows Legacy.title Legacy.author
       Legacy.copyright Legacy.clues Legacy.cib Legacy.file Legacy.masked].
  cbv zeta.
  destruct (regions_layout L sp Hwf)
    as ((dCib & -> & ->) & (dSol & -> & ->) & (dState & -> & ->) & ->).
  fold (cibSum L). case_bool_decide as Hcib; [done|].
  set (d := mkSlice (textBytes L) sp).
  pose proof (textBytes_split L) as HT.
  text_sums L d HT.
  set (p' := loaded L).
  rewrite (Legacy_sumNotes_text p' d
             (lyTitle L ++ [NUL] ++ lyAuthor L ++ [NUL] ++ lyCopyright L ++ [NUL]
              ++ terminated (lyClues L)) (lyRest L));
    [|by (unfold d, p'; cbn [elems loaded Legacy.notes]; rewrite HT, <- !app_assoc)
     |done
     |rewrite !len_app, !len_cons; change (len (@nil byte)) with 0; lia].
  fold (textChain L).
  assert (cksum (concat (lySolution L) ++ lyState L ++ textChain L) (cibSum L)
          = fileSumBefore L) as ->
    by (unfold fileSumBefore; by rewrite !cksum_app).
  assert (Legacy.notesIncluded p' = notesEnterLegacy L) as Hincl.
  { unfold Legacy.notesIncluded, notesEnterLegacy. by rewrite notes_nonempty. }
  rewrite Hincl. unfold p'. cbn [loaded Legacy.notes].
  fold (solSum L). fold (stateSum L).
  assert (is_uint16 (cibSum L)) by apply cksum_range, uint16_0.
  assert (is_uint16 (solSum L)) by apply cksum_range, uint16_0.
  assert (is_uint16 (stateSum L)) by apply cksum_range, uint16_0.
  assert (forall incl, is_uint16 (partSum incl L))
    by (intros; apply cksum_range, uint16_0).
  destruct (notesEnterLegacy L) eqn:Hen.
  - destruct (lyRest L) as [extra|] eqn:Hrest; [|done].
    rewrite (bool_decide_eq_false_2 (Some extra = None)) by done. cbn [andb].
    change (cksum (lyNotes L ++ [NUL]) (fileSumBefore L)) with (fileSum true L).
    rewrite <- cksum_app. change (cksum (textChain L ++ lyNotes L ++ [NUL]) 0)
      with (partSum true L).
    rewrite maskedOf_spec by done. fold (maskedSum true L).
    repeat case_bool_decide; done.
  - cbn [andb].
    change (fileSumBefore L) with (fileSum false L).
    replace (cksum (textChain L) 0) with (partSum false L)
      by (unfold partSum, notesChain; by rewrite app_nil_r).
    rewrite maskedOf_spec by done. fold (maskedSum false L).
    repeat case_bool_decide; done.
Qed.

(** ** Parse and Load on laid-out files *)

Lemma Parse_layout a L sp :
  wellFormed L ->
  AcrossLite.Parse a (mkSlice (encode L) sp) =
  if bool_decide (cibSum L ≠ le16 (lyCksumCib L))
  then Some (Some ErrChecksums, parsed a L)
  else if notesEnter L && bool_decide (lyRest L = None) then None
  else if bool_decide (fileSum (notesEnter L) L = le16 (lyCksumFil L)) &&
          bool_decide (maskedSum (notesEnter L) L = byteZ <$> lyCksumMsk L)
  then Some (None, parsed a L)
  else Some (Some ErrChecksums, parsed a L).
Proof.
  intros Hwf. unfold AcrossLite.Parse.
  rewrite parseFields_layout, Verify_layout by done.
  case_bool_decide; [done|].
  destruct (notesEnter L && bool_decide (lyRest L = None)); [done|].
  by destruct (_ && _).
Qed.

Lemma Legacy_Load_layout p L sp :
  wellFormed L -> lyMagic L = magic -> (lyRest L = None -> sp = []) ->
  Legacy.Load p (mkSlice (encode L) sp) =
  if bool_decide (cibSum L ≠ le16 (lyCksumCib L))
  then Some (Some ErrChecksums, loaded L)
  else if notesEnterLegacy L && bool_decide (lyRest L = None) then None
  else if bool_decide (fileSum (notesEnterLegacy L) L = le16 (lyCksumFil L)) &&
          bool_decide (maskedSum (notesEnterLegacy L) L = byteZ <$> lyCksumMsk L)
  then Some (None, loaded L)
  else Some (Some ErrChecksums, loaded L).
Proof.
  intros Hwf Hmagic Hsp. unfold Legacy.Load.
  rewrite loadFields_layout, Legacy_verify_layout by done.
  case_bool_decide; [done|].
  destruct (notesEnterLegacy L && bool_decide (lyRest L = None)); [done|].
  by destruct (_ && _).
Qed.

Lemma tinyLayout_wf fil msk ver notes rest :
  length fil = 2%nat -> length msk = 8%nat -> length ver = 4%nat ->
  nulFree notes -> wellFormed (tinyLayout fil msk ver notes rest).
Proof.
  intros. constructor; cbn; try done; try apply not_elem_of_nil.
Qed.

Lemma nulFree_x : nulFree (bytesOf "x").
Proof. unfold nulFree. by intros [H|H%elem_of_nil]%elem_of_cons. Qed.

Lemma layoutNotesCut_wf : wellFormed layoutNotesCut.
Proof. apply tinyLayout_wf; (done || apply nulFree_x). Qed.

Lemma layoutNotesCutMismatch_wf : wellFormed layoutNotesCutMismatch.
Proof. apply tinyLayout_wf; (done || apply nulFree_x). Qed.

Lemma layoutV12Notes_wf : wellFormed layoutV12Notes.
Proof. apply tinyLayout_wf; (done || apply nulFree_x). Qed.

Lemma layoutV13Plain_wf : wellFormed layoutV13Plain.
Proof. apply tinyLayout_wf; (done || apply nulFree_x). Qed.

(** C10: on a buffer of at least 14 bytes Sniff answers true exactly when the
    12 bytes at offset 2 are the magic string, and whenever Sniff answers
    false Load returns NoProviderFound and leaves the puzzle alone, without
    parsing.  On the 13-byte buffer [fileShortMagic], which has no 12 bytes at
    offset 2, Sniff answers true as well: the read of the magic is short, its
    count is dropped, and the zero the destination starts with stands in for
    the missing NUL.  Load then fails in Parse with io.EOF.  Sniff is a
    function of the bytes of [data]; nothing in it writes to them. *)
Theorem Sniff_magic_probe :
  (forall data, 14 <= len (elems data) ->
     (AcrossLite.Sniff data = true <-> take 12 (drop 2 (elems data)) = magic)) /\
  (forall p data, AcrossLite.Sniff data = false ->
     Puzzle_Load p data = Some (Some NoProviderFound, p)) /\
  len fileShortMagic = 13 /\
  take 12 (drop 2 fileShortMagic) <> magic /\
  AcrossLite.Sniff (mkSlice fileShortMagic []) = true /\
  Puzzle_Load Puzzle.zero (mkSlice fileShortMagic []) = Some (Some EOF, Puzzle.zero).
Proof.
  split; [|split; [|split; [|split; [|split]]]].
  - intros data Hlen. rewrite Sniff_long by done. apply bool_decide_eq_true.
  - intros p data. apply Puzzle_Load_no_provider.
  - reflexivity.
  - by vm_compute.
  - by vm_compute.
  - by vm_compute.
Qed.

(** C6: there is a buffer that Sniff accepts and whose reads all succeed, with
    non-empty notes that run to the end of the buffer without a NUL, on which
    Verify takes the slice d[c : c+len(notes)+1] of the text region [d] with
    an upper bound above its capacity; Verify, Parse and the top-level Load
    panic (as does Load of package puzzle) instead of returning an error. *)
Theorem Load_panics_on_cut_notes :
  exists data a d,
    data = mkSlice fileNotesCutMismatch [] /\
    AcrossLite.Sniff data = true /\
    AcrossLite.parseFields AcrossLite.zero data = (None, a) /\
    AcrossLite.Notes a <> [] /\
    (exists pre, elems data = pre ++ AcrossLite.Notes a) /\
    nulFree (AcrossLite.Notes a) /\
    resliceFrom (AcrossLite.Data a)
      (0x34 + AcrossLite.Cols a * AcrossLite.Rows a
            + AcrossLite.Cols a * AcrossLite.Rows a) = Some d /\
    len (elems d) = 3 + len (AcrossLite.Notes a) /\
    cap d < 3 + len (AcrossLite.Notes a) + 1 /\
    reslice d 3 (3 + len (AcrossLite.Notes a) + 1) = None /\
    AcrossLite.Verify a = None /\
    AcrossLite.Parse AcrossLite.zero data = None /\
    (forall p, Puzzle_Load p data = None) /\
    Legacy.Load Legacy.zero data = None.
Proof.
  exists (mkSlice fileNotesCutMismatch []),
         (parsed AcrossLite.zero layoutNotesCutMismatch),
         (mkSlice (textBytes layoutNotesCutMismatch) []).
  split; [reflexivity|]. split; [by vm_compute|].
  split; [apply parseFields_layout, layoutNotesCutMismatch_wf|].
  split; [done|]. split; [by eexists (take 55 fileNotesCutMismatch)|].
  split; [apply nulFree_x|].
  split; [by vm_compute|]. split; [by vm_compute|]. split; [by vm_compute|].
  split; [by vm_compute|]. split; [by vm_compute|].
  assert (AcrossLite.Parse AcrossLite.zero (mkSlice fileNotesCutMismatch []) = None)
    as HP by (by vm_compute).
  split; [exact HP|]. split; [|by vm_compute].
  intros p. unfold Puzzle_Load. rewrite HP. by vm_compute.
Qed.

Lemma Puzzle_Load_error p data e p' :
  Puzzle_Load p data = Some (Some e, p') -> p' = p.
Proof.
  unfold Puzzle_Load. destruct (AcrossLite.Sniff data); [|congruence].
  destruct (AcrossLite.Parse _ data) as [[[err|] a]|]; [congruence| |done].
  destruct (AcrossLite.Load a p); done.
Qed.

(** C3: Parse passes on an error of its reads; a buffer the reads accept is a
    laid-out file, and on it Parse returns the checksum error when the CIB
    checksum over the 8 bytes at 0x2C, the chained whole-file checksum or the
    masked checksum (built from the CIB, solution, state and partial
    checksums) differs from the declared value, and nil when all agree; an
    error of Load leaves the puzzle as it was.  One case escapes: when the
    whole-file checksum does not match before the notes and the non-empty
    notes run off the end of the buffer, Parse panics instead of returning
    the checksum error, as on [fileNotesCutMismatch]. *)
Theorem Parse_checksum_outcomes :
  (forall a data,
     match AcrossLite.parseFields a data with
     | (Some e, a') => AcrossLite.Parse a data = Some (Some e, a')
     | (None, a') =>
         exists L, wellFormed L /\ elems data = encode L /\ a' = parsed a L /\
           AcrossLite.Parse a data =
           if bool_decide (cibSum L ≠ le16 (lyCksumCib L))
           then Some (Some ErrChecksums, a')
           else if notesEnter L && bool_decide (lyRest L = None) then None
           else if bool_decide (fileSum (notesEnter L) L = le16 (lyCksumFil L)) &&
                   bool_decide (maskedSum (notesEnter L) L = byteZ <$> lyCksumMsk L)
           then Some (None, a')
           else Some (Some ErrChecksums, a')
     end) /\
  (forall p data e p', Puzzle_Load p data = Some (Some e, p') -> p' = p) /\
  wellFormed layoutNotesCutMismatch /\
  cibSum layoutNotesCutMismatch = le16 (lyCksumCib layoutNotesCutMismatch) /\
  fileSumBefore layoutNotesCutMismatch <> le16 (lyCksumFil layoutNotesCutMismatch) /\
  AcrossLite.Parse AcrossLite.zero (mkSlice fileNotesCutMismatch []) = None /\
  Puzzle_Load Puzzle.zero (mkSlice fileNotesCutMismatch []) = None.
Proof.
  split; [|split; [exact Puzzle_Load_error|]].
  - intros a data. destruct (AcrossLite.parseFields a data) as [[e|] a'] eqn:E.
    + unfold AcrossLite.Parse. by rewrite E.
    + destruct (parseFields_inv a data a' E) as (L & Hwf & Henc & ->).
      exists L. split; [done|]. split; [done|]. split; [done|].
      destruct data as [el sp]. simpl in Henc. subst el.
      by apply Parse_layout.
  - split; [exact layoutNotesCutMismatch_wf|]. by vm_compute.
Qed.

(** C5 (amended): on a buffer whose fields, grids and text fields up to the
    last clue are laid out in full and whose notes run off the end of the
    buffer, the reads of Parse end without an error and decoding goes on to
    the checksum verification; the notes value is the bytes read up to the end
    of the buffer, empty only when nothing follows the last clue. *)
Theorem Parse_keeps_cut_notes (a : AcrossLite.t) (L : layout) (sp : list byte) :
  wellFormed L -> lyRest L = None ->
  AcrossLite.parseFields a (mkSlice (encode L) sp) = (None, parsed a L) /\
  AcrossLite.Notes (parsed a L) = tailBytes L /\
  (AcrossLite.Notes (parsed a L) = [] <-> tailBytes L = []) /\
  AcrossLite.Parse a (mkSlice (encode L) sp) =
  match AcrossLite.Verify (parsed a L) with
  | Some true => Some (None, parsed a L)
  | Some false => Some (Some ErrChecksums, parsed a L)
  | None => None
  end.
Proof.
  intros Hwf Hrest.
  assert (AcrossLite.Notes (parsed a L) = tailBytes L) as Hnotes
    by (unfold tailBytes; rewrite Hrest; by rewrite app_nil_r).
  split; [by apply parseFields_layout|]. split; [done|]. split; [by rewrite Hnotes|].
  unfold AcrossLite.Parse. rewrite parseFields_layout by done.
  by destruct (AcrossLite.Verify (parsed a L)) as [[|]|].
Qed.

Lemma Parse_keeps_cut_notes_witness :
  wellFormed layoutNotesCut /\ lyRest layoutNotesCut = None /\
  AcrossLite.parseFields AcrossLite.zero (mkSlice (encode layoutNotesCut) [])
  = (None, parsed AcrossLite.zero layoutNotesCut) /\
  AcrossLite.Notes (parsed AcrossLite.zero layoutNotesCut) = tailBytes layoutNotesCut.
Proof.
  split; [exact layoutNotesCut_wf|]. split; [reflexivity|].
  destruct (Parse_keeps_cut_notes AcrossLite.zero layoutNotesCut []
              layoutNotesCut_wf eq_refl) as (H1 & H2 & _).
  exact (conj H1 H2).
Defined.

Lemma cut_notes_are_kept :
  wellFormed layoutNotesCut /\ lyRest layoutNotesCut = None /\
  fileNotesCut = encode layoutNotesCut /\
  AcrossLite.Parse AcrossLite.zero (mkSlice fileNotesCut [])
  = Some (None, parsed AcrossLite.zero layoutNotesCut) /\
  AcrossLite.Notes (parsed AcrossLite.zero layoutNotesCut) = bytesOf "x" /\
  match Puzzle_Load Puzzle.zero (mkSlice fileNotesCut []) with
  | Some (None, p) => Puzzle.Notes p = bytesOf "x"
  | _ => False
  end.
Proof.
  split; [exact layoutNotesCut_wf|]. split; [reflexivity|]. split; [reflexivity|].
  by vm_compute.
Qed.

Lemma withVersion_wf v L :
  length v = 4%nat -> wellFormed L -> wellFormed (withVersion v L).
Proof. intros Hv []. by constructor. Qed.






(** * The accessors, the loaders and the printer: theorems *)

(** ** Facts about the examples *)

Lemma summed_wf incl L : wellFormed L -> wellFormed (summed incl L).
Proof.
  intros []. constructor; done.
Qed.

Lemma is_uint16_ffff : is_uint16 0xffff.
Proof. unfold is_uint16. lia. Qed.

Lemma layoutPets_wf : wellFormed layoutPets.
Proof.
  apply summed_wf.
  constructor; cbn; try done; unfold fits, nulFree;
    (apply (bool_decide_unpack _); by vm_compute).
Qed.

Lemma SetSolution_puzzle5 :
  Puzzle.SetSolution puzzle5 grid5
  = Some (None, (numberedState puzzle5 grid5 (scan 5 5)).1).
Proof. exact (SetSolution_fits puzzle5 grid5 fits_grid5). Qed.

(** ** The checksum chain: what it detects and what it misses *)

Lemma byteZ_inj x y : byteZ x = byteZ y -> x = y.
Proof.
  unfold byteZ. intros H. assert (Byte.to_N x = Byte.to_N y) as E by lia.
  pose proof (Byte.of_to_N x) as Hx. rewrite E, Byte.of_to_N in Hx. by injection Hx.
Qed.

Lemma cksumStep_seed_inj s1 s2 x :
  is_uint16 s1 -> is_uint16 s2 -> cksumStep s1 x = cksumStep s2 x -> s1 = s2.
Proof.
  intros H1 H2. rewrite !cksumStep_rotate by done.
  pose proof (byteZ_range x). unfold is_uint16 in *.
  Z.div_mod_to_equations. lia.
Qed.

Lemma cksumStep_byte_inj s x y :
  is_uint16 s -> cksumStep s x = cksumStep s y -> x = y.
Proof.
  intros Hs. rewrite !cksumStep_rotate by done. intros H. apply byteZ_inj.
  pose proof (byteZ_range x). pose proof (byteZ_range y).
  unfold is_uint16 in *. Z.div_mod_to_equations. lia.
Qed.

Lemma cksum_seed_inj data : forall s1 s2,
  is_uint16 s1 -> is_uint16 s2 -> cksum data s1 = cksum data s2 -> s1 = s2.
Proof.
  induction data as [|x data IH]; intros s1 s2 H1 H2; [done|].
  rewrite !cksum_cons. intros H. apply IH in H; try apply cksumStep_range.
  by apply cksumStep_seed_inj in H.
Qed.

Lemma cksum_zeros_table :
  forallb (fun hi => forallb (fun lo =>
      cksum (replicate 16 x00) (256 * hi + lo) =? 256 * hi + lo) (seqZ 0 256))
    (seqZ 0 256) = true.
Proof. vm_compute. reflexivity. Qed.

Lemma cksum_zeros s : is_uint16 s -> cksum (replicate 16 x00) s = s.
Proof.
  intros Hs. unfold is_uint16 in Hs. pose proof cksum_zeros_table as H.
  rewrite forallb_forall in H. specialize (H (s / 256)).
  rewrite forallb_forall in H. specialize (fun Hhi => H Hhi (s mod 256)).
  rewrite <- !list_elem_of_In, !elem_of_seqZ, Z.eqb_eq in H.
  replace (256 * (s / 256) + s mod 256) with s in H by (Z.div_mod_to_equations; lia).
  apply H; Z.div_mod_to_equations; lia.
Qed.

(** X1: Started from 16-bit values, cksum over a fixed buffer is injective in
    its starting value, and two buffers that differ in exactly one byte get
    different checksums from the same starting value: the chain detects every
    change of a single byte. *)
Theorem cksum_detects_one_byte (A B : list byte) (x y : byte) (s1 s2 : Z) :
  is_uint16 s1 -> is_uint16 s2 ->
  (cksum A s1 = cksum A s2 -> s1 = s2) /\
  (cksum (A ++ x :: B) s1 = cksum (A ++ y :: B) s1 -> x = y).
Proof.
  intros H1 H2. split; [by apply cksum_seed_inj|].
  rewrite !cksum_app, !cksum_cons. intros H.
  apply cksum_seed_inj in H; try apply cksumStep_range.
  apply cksumStep_byte_inj in H; [done|]. by apply cksum_range.
Qed.

Lemma cksum_detects_one_byte_witness :
  is_uint16 0 /\ is_uint16 0xffff /\
  (cksum (bytesOf "C") 0 = cksum (bytesOf "C") 0xffff -> 0 = 0xffff) /\
  (cksum (bytesOf "C" ++ x41 :: bytesOf "T") 0
   = cksum (bytesOf "C" ++ x4f :: bytesOf "T") 0 -> x41 = x4f).
Proof.
  exact (conj uint16_0 (conj is_uint16_ffff
    (cksum_detects_one_byte (bytesOf "C") (bytesOf "T") x41 x4f 0 0xffff
       uint16_0 is_uint16_ffff))).
Defined.

(** X2: Inserting sixteen zero bytes anywhere in a buffer leaves its checksum
    unchanged, for every 16-bit starting value: a zero byte only rotates the
    running sum by one bit. *)
Theorem cksum_blind_to_16_zero_bytes (A B : list byte) (s : Z) :
  is_uint16 s ->
  cksum (A ++ replicate 16 x00 ++ B) s = cksum (A ++ B) s.
Proof.
  intros Hs. rewrite !cksum_app. f_equal. apply cksum_zeros. by apply cksum_range.
Qed.

Lemma cksum_blind_to_16_zero_bytes_witness :
  is_uint16 0xffff /\
  cksum (bytesOf "C" ++ replicate 16 x00 ++ bytesOf "T") 0xffff
  = cksum (bytesOf "C" ++ bytesOf "T") 0xffff.
Proof.
  exact (conj is_uint16_ffff
    (cksum_blind_to_16_zero_bytes (bytesOf "C") (bytesOf "T") 0xffff is_uint16_ffff)).
Defined.

(** ** Cell and Solution *)

Lemma Cell_fits p i j :
  fits (Puzzle.Rows p) (Puzzle.Cols p) (Puzzle.solution p) ->
  Puzzle.Cell p i j =
  if inGrid (Puzzle.Rows p) (Puzzle.Cols p) (i, j)
  then Some (inl (Puzzle.mkCell (blackAt (Puzzle.solution p) i j)
                    (default (-1) (Puzzle.cellCoords p !! (i, j))) (i, j)
                    (if blackAt (Puzzle.solution p) i j then []
                     else letterAt (Puzzle.solution p) i j)))
  else Some (inr OutOfBounds).
Proof.
  intros Hfit. unfold Puzzle.Cell, inGrid. cbn [fst snd].
  destruct (Z.ltb_spec i 0), (Z.leb_spec (Puzzle.Rows p) i),
    (Z.ltb_spec j 0), (Z.leb_spec (Puzzle.Cols p) j),
    (Z.leb_spec 0 i), (Z.ltb_spec i (Puzzle.Rows p)),
    (Z.leb_spec 0 j), (Z.ltb_spec j (Puzzle.Cols p)); try lia; try done.
  cbn [orb andb].
  rewrite isBlackCell_fits by (done || lia). cbn.
  unfold blackAt, letterAt.
  destruct Hfit as [Hrows Hcols].
  destruct (index_is_Some (Puzzle.solution p) i) as [r Hr]; [lia|].
  rewrite Hr. apply index_Some in Hr as [_ Hr'].
  rewrite Forall_forall in Hcols.
  assert (len r = Puzzle.Cols p) as Hlen
    by (apply Hcols; eapply list_elem_of_lookup_2, Hr').
  destruct (index_is_Some r j) as [x Hx]; [lia|]. rewrite Hx.
  by destruct (bool_decide (x = P_BLACK_0)).
Qed.

Lemma black_not_numbered g rows cols x :
  blackAt g x.1 x.2 = true -> numbered g rows cols x = false.
Proof.
  destruct x as [i j]. unfold numbered, startsAcross, startsDown. cbn [fst snd].
  by intros ->.
Qed.

(** X3: After a successful SetSolution(g), Cell(i, j) returns OutOfBounds
    outside the grid, and inside it the cell with Black set exactly for '.',
    Num the number SetSolution gave the cell or -1 if it gave none, Coords (i,
    j), and Solution the letter of g as a string for a white cell and empty
    for a black one. A black cell never has a number. *)
Theorem Cell_after_SetSolution
    (p : Puzzle.t) (g : list (list byte)) (p' : Puzzle.t) (i j : Z) :
  Puzzle.SetSolution p g = Some (None, p') ->
  Puzzle.Cell p' i j =
    (if inGrid (Puzzle.Rows p) (Puzzle.Cols p) (i, j)
     then Some (inl (cellOf g (Puzzle.Rows p) (Puzzle.Cols p) (i, j)))
     else Some (inr OutOfBounds)) /\
  (blackAt g i j = true ->
   Puzzle.CellNum (cellOf g (Puzzle.Rows p) (Puzzle.Cols p) (i, j)) = -1 /\
   Puzzle.CellSolution (cellOf g (Puzzle.Rows p) (Puzzle.Cols p) (i, j)) = []).
Proof.
  intros H. apply SetSolution_inv in H as [(err & ? & _)|(_ & Hfit & ->)]; [done|].
  split.
  - rewrite Cell_fits by exact Hfit.
    unfold numberedState. cbv zeta.
    cbn [fst Puzzle.Rows Puzzle.Cols Puzzle.solution Puzzle.cellCoords].
    destruct (inGrid _ _ (i, j)) eqn:Ein; [|done].
    rewrite lookup_coordsOf_scan, Ein. unfold cellOf. cbn [fst snd andb].
    by destruct (numbered _ _ _ (i, j)).
  - intros Hb. unfold cellOf. cbn [Puzzle.CellNum Puzzle.CellSolution fst snd].
    rewrite Hb. by rewrite (black_not_numbered g _ _ (i, j)).
Qed.

Lemma Cell_after_SetSolution_witness :
  exists p', Puzzle.SetSolution puzzle5 grid5 = Some (None, p') /\
    Puzzle.Cell p' 2 0 = Some (inl (cellOf grid5 5 5 (2, 0))) /\
    Puzzle.Cell p' 5 0 = Some (inr OutOfBounds).
Proof.
  exists (numberedState puzzle5 grid5 (scan 5 5)).1.
  split; [exact SetSolution_puzzle5|]. split.
  - exact (proj1 (Cell_after_SetSolution puzzle5 grid5 _ 2 0 SetSolution_puzzle5)).
  - exact (proj1 (Cell_after_SetSolution puzzle5 grid5 _ 5 0 SetSolution_puzzle5)).
Defined.

Lemma seqZ_S k n : seqZ k (Z.of_nat (S n)) = k :: seqZ (k + 1) (Z.of_nat n).
Proof.
  rewrite seqZ_cons by lia. f_equal. f_equal; lia.
Qed.

Lemma seqZ_snoc k n : seqZ k (Z.of_nat (S n)) = seqZ k (Z.of_nat n) ++ [k + Z.of_nat n].
Proof.
  replace (Z.of_nat (S n)) with (Z.of_nat n + 1) by lia.
  rewrite seqZ_app by lia. f_equal.
Qed.

Lemma solutionCell_loop p i (c : Z -> Puzzle.Cell_t) n : forall k row rows,
  0 <= i -> 0 <= k ->
  rows !! Z.to_nat i = Some row ->
  length row = (Z.to_nat k + n)%nat ->
  (forall j, k <= j < k + Z.of_nat n -> Puzzle.Cell p i j = Some (inl (c j))) ->
  forRange (PuzzleSolution.solutionCell p i) (seqZ k (Z.of_nat n)) rows
  = Some (<[Z.to_nat i := take (Z.to_nat k) row ++ map c (seqZ k (Z.of_nat n))]> rows).
Proof.
  induction n as [|n IH]; intros k row rows Hi Hk Hrow Hlen Hc.
  - rewrite seqZ_nil by done. simpl. rewrite app_nil_r, take_ge by lia.
    by rewrite list_insert_id.
  - rewrite seqZ_S. cbn [forRange map]. unfold PuzzleSolution.solutionCell at 1.
    rewrite Hc by lia.
    assert (index rows i = Some row) as -> by (by apply index_Some).
    destruct (index_is_Some row k) as [x Hx]; [unfold len; lia|]. rewrite Hx.
    apply index_Some in Hx as [_ Hx].
    rewrite (IH (k + 1) (<[Z.to_nat k := c k]> row)); try lia.
    + rewrite list_insert_insert_eq. f_equal. f_equal.
      replace (Z.to_nat (k + 1)) with (S (Z.to_nat k)) by lia.
      rewrite (take_S_r _ _ (c k))
        by (apply list_lookup_insert_eq; by eapply lookup_lt_Some).
      rewrite take_insert_ge by lia. by rewrite <- app_assoc.
    + apply list_lookup_insert_eq. by eapply lookup_lt_Some.
    + rewrite length_insert. lia.
    + intros j Hj. apply Hc. lia.
Qed.

Lemma solutionRow_loop p (c : Z -> Z -> Puzzle.Cell_t) n : forall k,
  0 <= k -> 0 <= Puzzle.Cols p \/ n = 0%nat ->
  (forall i j, k <= i < k + Z.of_nat n -> 0 <= j < Puzzle.Cols p ->
     Puzzle.Cell p i j = Some (inl (c i j))) ->
  forRange (PuzzleSolution.solutionRow p) (seqZ k (Z.of_nat n))
    (map (fun i => map (c i) (seqZ 0 (Puzzle.Cols p))) (seqZ 0 k) ++ replicate n [])
  = Some (map (fun i => map (c i) (seqZ 0 (Puzzle.Cols p))) (seqZ 0 (k + Z.of_nat n))).
Proof.
  induction n as [|n IH]; intros k Hk Hcols Hc.
  - rewrite seqZ_nil by done. simpl. by rewrite app_nil_r, Z.add_0_r.
  - destruct Hcols as [Hcols|?]; [|done].
    rewrite seqZ_S. cbn [forRange]. unfold PuzzleSolution.solutionRow at 1.
    destruct (Z.ltb_spec (Puzzle.Cols p) 0); [lia|].
    set (done := map (fun i => map (c i) (seqZ 0 (Puzzle.Cols p))) (seqZ 0 k)).
    assert (length done = Z.to_nat k) as Hdone
      by (unfold done; rewrite length_map, length_seqZ; lia).
    destruct (index_is_Some (done ++ replicate (S n) ([] : list Puzzle.Cell_t)) k)
      as [x Hx]; [unfold len; rewrite length_app, length_replicate; lia|].
    rewrite Hx. cbv zeta. unfold forZ. rewrite Z.sub_0_r.
    assert (seqZ 0 (Puzzle.Cols p) = seqZ 0 (Z.of_nat (Z.to_nat (Puzzle.Cols p))))
      as Hm by (by rewrite Z2Nat.id).
    rewrite Hm at 1.
    rewrite (solutionCell_loop p k (c k) _ 0
               (replicate (Z.to_nat (Puzzle.Cols p)) PuzzleSolution.zeroCell)); try lia.
    + rewrite list_insert_insert_eq. simpl take. cbn [app].
      rewrite <- Hm.
      rewrite <- Hdone, insert_app_r_alt, Nat.sub_diag by lia. cbn [replicate].
      simpl insert. rewrite cons_middle, app_assoc.
      replace (done ++ [map (c k) (seqZ 0 (Puzzle.Cols p))])
        with (map (fun i => map (c i) (seqZ 0 (Puzzle.Cols p))) (seqZ 0 (k + 1))).
      * rewrite (IH (k + 1)); [f_equal; f_equal; f_equal; lia|lia|by left|].
        intros i j Hi Hj. apply Hc; lia.
      * unfold done. rewrite <- (Z2Nat.id k) at 1 by lia.
        replace (Z.of_nat (Z.to_nat k) + 1) with (Z.of_nat (S (Z.to_nat k))) by lia.
        rewrite seqZ_snoc, map_app, Z2Nat.id by lia. done.
    + apply list_lookup_insert_eq. rewrite length_app, length_replicate. lia.
    + rewrite length_replicate. lia.
    + intros j Hj. apply Hc; lia.
Qed.

(** X4: After a successful SetSolution(g), Solution() returns Rows rows of
    Cols cells each, and the cell at row i and column j is the one Cell(i, j)
    returns. *)
Theorem Solution_after_SetSolution
    (p : Puzzle.t) (g : list (list byte)) (p' : Puzzle.t) :
  Puzzle.SetSolution p g = Some (None, p') ->
  PuzzleSolution.Solution p' =
  Some (map (fun i => map (fun j => cellOf g (Puzzle.Rows p) (Puzzle.Cols p) (i, j))
                        (seqZ 0 (Puzzle.Cols p)))
          (seqZ 0 (Puzzle.Rows p))).
Proof.
  intros H. apply SetSolution_inv in H as [(err & ? & _)|(_ & Hfit & ->)]; [done|].
  set (p' := (numberedState p g (scan (Puzzle.Rows p) (Puzzle.Cols p))).1).
  assert (Puzzle.Rows p' = Puzzle.Rows p) as HR by done.
  assert (Puzzle.Cols p' = Puzzle.Cols p) as HC by done.
  pose proof Hfit as [Hrows Hcols].
  pose proof (len_nonneg g) as Hg.
  unfold PuzzleSolution.Solution. rewrite HR.
  destruct (Z.ltb_spec (Puzzle.Rows p) 0); [lia|].
  unfold forZ. rewrite Z.sub_0_r.
  pose proof (solutionRow_loop p'
                (fun i j => cellOf g (Puzzle.Rows p) (Puzzle.Cols p) (i, j))
                (Z.to_nat (Puzzle.Rows p)) 0) as HL.
  rewrite HC, Z2Nat.id, Z.add_0_l in HL by lia. apply HL; [lia| |].
  - destruct g as [|r g]; [right; unfold len in Hrows; simpl in Hrows; lia|left].
    apply Forall_cons in Hcols as [Hr _]. pose proof (len_nonneg r). lia.
  - intros i j Hi Hj. rewrite Cell_fits by exact Hfit.
    assert (inGrid (Puzzle.Rows p') (Puzzle.Cols p') (i, j) = true) as ->
      by (rewrite HR, HC; unfold inGrid; cbn [fst snd]; lia).
    unfold p', numberedState. cbv zeta.
    cbn [fst Puzzle.Rows Puzzle.Cols Puzzle.solution Puzzle.cellCoords].
    rewrite lookup_coordsOf_scan.
    assert (inGrid (Puzzle.Rows p) (Puzzle.Cols p) (i, j) = true) as ->
      by (unfold inGrid; cbn [fst snd]; lia).
    unfold cellOf. cbn [fst snd andb]. by destruct (numbered _ _ _ (i, j)).
Qed.

Lemma Solution_after_SetSolution_witness :
  exists p', Puzzle.SetSolution puzzle5 grid5 = Some (None, p') /\
    PuzzleSolution.Solution p' =
    Some (map (fun i => map (fun j => cellOf grid5 5 5 (i, j)) (seqZ 0 5)) (seqZ 0 5)).
Proof.
  exists (numberedState puzzle5 grid5 (scan 5 5)).1.
  split; [exact SetSolution_puzzle5|].
  exact (Solution_after_SetSolution puzzle5 grid5 _ SetSolution_puzzle5).
Defined.

(** X5: On a puzzle with positive Rows and Cols and an empty solution grid
    (dimensions set, SetSolution not called), Cell panics for every coordinate
    inside the bounds and Solution() panics: the bounds check of Cell looks at
    Rows and Cols, not at the grid. *)
Theorem accessors_panic_without_solution (p : Puzzle.t) :
  Puzzle.solution p = [] -> 0 < Puzzle.Rows p -> 0 < Puzzle.Cols p ->
  (forall i j, inGrid (Puzzle.Rows p) (Puzzle.Cols p) (i, j) = true ->
     Puzzle.Cell p i j = None) /\
  PuzzleSolution.Solution p = None.
Proof.
  intros Hsol HR HC.
  assert (forall i j, inGrid (Puzzle.Rows p) (Puzzle.Cols p) (i, j) = true ->
            Puzzle.Cell p i j = None) as Hcell.
  { intros i j Hin. unfold inGrid in Hin. cbn [fst snd] in Hin.
    unfold Puzzle.Cell, Puzzle.isBlackCell. rewrite Hsol.
    destruct (Z.ltb_spec i 0), (Z.leb_spec (Puzzle.Rows p) i),
      (Z.ltb_spec j 0), (Z.leb_spec (Puzzle.Cols p) j); try lia.
    cbn [orb]. unfold index. destruct (i <? 0); done. }
  split; [exact Hcell|].
  unfold PuzzleSolution.Solution. destruct (Z.ltb_spec (Puzzle.Rows p) 0); [lia|].
  unfold forZ. rewrite Z.sub_0_r.
  rewrite <- (Z2Nat.id (Puzzle.Rows p)) at 1 by lia.
  destruct (Z.to_nat (Puzzle.Rows p)) as [|n] eqn:En; [lia|].
  rewrite seqZ_S. cbn [forRange replicate]. unfold PuzzleSolution.solutionRow at 1.
  destruct (Z.ltb_spec (Puzzle.Cols p) 0); [lia|].
  cbn [index]. change (index (?x :: ?l) 0) with (Some x). cbv zeta.
  unfold forZ. rewrite Z.sub_0_r.
  rewrite <- (Z2Nat.id (Puzzle.Cols p)) at 1 by lia.
  destruct (Z.to_nat (Puzzle.Cols p)) as [|m] eqn:Em; [lia|].
  rewrite seqZ_S. cbn [forRange]. unfold PuzzleSolution.solutionCell at 1.
  rewrite Hcell; [done|]. unfold inGrid. cbn [fst snd]. lia.
Qed.

Lemma accessors_panic_without_solution_witness :
  Puzzle.solution puzzle5 = [] /\ 0 < Puzzle.Rows puzzle5 /\ 0 < Puzzle.Cols puzzle5 /\
  Puzzle.Cell puzzle5 0 0 = None /\ PuzzleSolution.Solution puzzle5 = None.
Proof.
  assert (0 < 5) as H by lia.
  destruct (accessors_panic_without_solution puzzle5 eq_refl H H) as [Hcell Hsol].
  exact (conj eq_refl (conj H (conj H (conj (Hcell 0 0 eq_refl) Hsol)))).
Defined.

(** ** SetSolution: what it overwrites *)

Lemma numberedState_header p q g l :
  sameHeader p q -> numberedState p g l = numberedState q g l.
Proof.
  intros (HC & HR & HT & HA & HCo & HN). unfold numberedState. cbv zeta.
  by rewrite HC, HR, HT, HA, HCo, HN.
Qed.

(** X6: A successful SetSolution(g) leaves the same puzzle whatever solution,
    numbering and clue lists the puzzle held before, and setting the same grid
    a second time changes nothing. Dimensions, title, author, copyright and
    notes are kept, and every clue text is empty afterwards. *)
Theorem SetSolution_overwrites
    (p q : Puzzle.t) (g : list (list byte)) (p' : Puzzle.t) :
  Puzzle.SetSolution p g = Some (None, p') ->
  sameHeader p q ->
  Puzzle.SetSolution q g = Some (None, p') /\
  Puzzle.SetSolution p' g = Some (None, p') /\
  sameHeader p p' /\
  Forall (fun cl => Clue_text cl = []) (Puzzle.cluesAcross p' ++ Puzzle.cluesDown p').
Proof.
  intros H Hpq. apply SetSolution_inv in H as [(err & ? & _)|(_ & Hfit & ->)]; [done|].
  pose proof Hpq as (HC & HR & _).
  split; [|split; [|split]].
  - rewrite SetSolution_fits by (by rewrite <- HR, <- HC).
    by rewrite <- HR, <- HC, (numberedState_header p q).
  - rewrite SetSolution_fits by exact Hfit. reflexivity.
  - done.
  - unfold numberedState. cbv zeta. cbn [fst Puzzle.cluesAcross Puzzle.cluesDown].
    apply Forall_app. split; apply Forall_forall; intros cl Hcl;
      rewrite list_elem_of_In in Hcl; apply in_map_iff in Hcl as (x & <- & _); done.
Qed.

Lemma SetSolution_overwrites_witness :
  exists p', Puzzle.SetSolution puzzle5 grid5 = Some (None, p') /\
    sameHeader puzzle5 puzzle5Used /\
    Puzzle.SetSolution puzzle5Used grid5 = Some (None, p') /\
    Puzzle.SetSolution p' grid5 = Some (None, p').
Proof.
  assert (sameHeader puzzle5 puzzle5Used) as Hh by (repeat split).
  exists (numberedState puzzle5 grid5 (scan 5 5)).1.
  split; [exact SetSolution_puzzle5|]. split; [exact Hh|].
  destruct (SetSolution_overwrites puzzle5 puzzle5Used grid5 _ SetSolution_puzzle5 Hh)
    as (H1 & H2 & _).
  exact (conj H1 H2).
Defined.

(** ** Entries *)

Lemma across_start g cols row (n : nat) : forall col,
  col = Z.of_nat n -> col < cols ->
  blackAt g row col = false ->
  (0 < col /\ blackAt g row (col - 1) = false) \/
  (col + 1 < cols /\ blackAt g row (col + 1) = false) ->
  exists c0, 0 <= c0 <= col /\ startsAcross g cols (row, c0) = true /\
             forall k, c0 <= k <= col -> blackAt g row k = false.
Proof.
  induction n as [|n IH]; intros col Hn Hcol Hw Hnb.
  - exists col. split; [lia|]. split.
    + unfold startsAcross. rewrite Hw. destruct Hnb as [[? _]|[Hr Hb]]; [lia|].
      rewrite Hb, (proj2 (Z.eqb_eq col 0)), (proj2 (Z.ltb_lt (col + 1) cols)) by lia.
      done.
    + intros k Hk. by replace k with col by lia.
  - destruct (blackAt g row (col - 1)) eqn:Hl.
    + exists col. split; [lia|]. split.
      * unfold startsAcross. rewrite Hw, Hl. destruct Hnb as [[_ ?]|[Hr Hb]]; [done|].
        rewrite Hb, orb_true_r, (proj2 (Z.ltb_lt (col + 1) cols)) by lia. done.
      * intros k Hk. by replace k with col by lia.
    + destruct (IH (col - 1)) as (c0 & Hc0 & Hs & Hall); [lia|lia|done| |].
      * right. split; [lia|]. by replace (col - 1 + 1) with col by lia.
      * exists c0. split; [lia|]. split; [done|]. intros k Hk.
        destruct (decide (k = col)) as [->|]; [done|]. apply Hall. lia.
Qed.

Lemma down_start g rows col (n : nat) : forall row,
  row = Z.of_nat n -> row < rows ->
  blackAt g row col = false ->
  (0 < row /\ blackAt g (row - 1) col = false) \/
  (row + 1 < rows /\ blackAt g (row + 1) col = false) ->
  exists r0, 0 <= r0 <= row /\ startsDown g rows (r0, col) = true /\
             forall k, r0 <= k <= row -> blackAt g k col = false.
Proof.
  induction n as [|n IH]; intros row Hn Hrow Hw Hnb.
  - exists row. split; [lia|]. split.
    + unfold startsDown. rewrite Hw. destruct Hnb as [[? _]|[Hr Hb]]; [lia|].
      rewrite Hb, (proj2 (Z.eqb_eq row 0)), (proj2 (Z.ltb_lt (row + 1) rows)) by lia.
      done.
    + intros k Hk. by replace k with row by lia.
  - destruct (blackAt g (row - 1) col) eqn:Hl.
    + exists row. split; [lia|]. split.
      * unfold startsDown. rewrite Hw, Hl. destruct Hnb as [[_ ?]|[Hr Hb]]; [done|].
        rewrite Hb, orb_true_r, (proj2 (Z.ltb_lt (row + 1) rows)) by lia. done.
      * intros k Hk. by replace k with row by lia.
    + destruct (IH (row - 1)) as (r0 & Hr0 & Hs & Hall); [lia|lia|done| |].
      * right. split; [lia|]. by replace (row - 1 + 1) with row by lia.
      * exists r0. split; [lia|]. split; [done|]. intros k Hk.
        destruct (decide (k = row)) as [->|]; [done|]. apply Hall. lia.
Qed.

Lemma across_start_unique g cols row col c0 c1 :
  c0 <= col -> c1 <= col ->
  startsAcross g cols (row, c0) = true -> startsAcross g cols (row, c1) = true ->
  (forall k, c0 <= k <= col -> blackAt g row k = false) ->
  (forall k, c1 <= k <= col -> blackAt g row k = false) ->
  0 <= c0 -> 0 <= c1 -> c0 = c1.
Proof.
  intros H0 H1 S0 S1 A0 A1 P0 P1. unfold startsAcross in S0, S1.
  apply andb_true_iff in S0 as [S0 _]. apply andb_true_iff in S0 as [_ S0].
  apply andb_true_iff in S1 as [S1 _]. apply andb_true_iff in S1 as [_ S1].
  destruct (Z.lt_trichotomy c0 c1) as [Hlt|[->|Hlt]]; [|done|].
  - apply orb_true_iff in S1 as [S1|S1]; [lia|]. rewrite A0 in S1 by lia. done.
  - apply orb_true_iff in S0 as [S0|S0]; [lia|]. rewrite A1 in S0 by lia. done.
Qed.

Lemma down_start_unique g rows row col r0 r1 :
  r0 <= row -> r1 <= row ->
  startsDown g rows (r0, col) = true -> startsDown g rows (r1, col) = true ->
  (forall k, r0 <= k <= row -> blackAt g k col = false) ->
  (forall k, r1 <= k <= row -> blackAt g k col = false) ->
  0 <= r0 -> 0 <= r1 -> r0 = r1.
Proof.
  intros H0 H1 S0 S1 A0 A1 P0 P1. unfold startsDown in S0, S1.
  apply andb_true_iff in S0 as [S0 _]. apply andb_true_iff in S0 as [_ S0].
  apply andb_true_iff in S1 as [S1 _]. apply andb_true_iff in S1 as [_ S1].
  destruct (Z.lt_trichotomy r0 r1) as [Hlt|[->|Hlt]]; [|done|].
  - apply orb_true_iff in S1 as [S1|S1]; [lia|]. rewrite A0 in S1 by lia. done.
  - apply orb_true_iff in S0 as [S0|S0]; [lia|]. rewrite A1 in S0 by lia. done.
Qed.

Lemma white_fits p row col :
  fits (Puzzle.Rows p) (Puzzle.Cols p) (Puzzle.solution p) ->
  white p row col <->
  (0 <= row < Puzzle.Rows p /\ 0 <= col < Puzzle.Cols p) /\
  blackAt (Puzzle.solution p) row col = false.
Proof.
  intros Hfit. unfold white. split.
  - intros H. assert (0 <= row < Puzzle.Rows p /\ 0 <= col < Puzzle.Cols p) as Hin.
    { destruct Hfit as [Hrows Hcols]. unfold Puzzle.isBlackCell in H.
      destruct (index (Puzzle.solution p) row) as [r|] eqn:Hr; [|done].
      destruct (index r col) as [x|] eqn:Hx; [|done].
      apply index_range in Hx. pose proof (index_range _ _ _ Hr) as Hrow.
      apply index_Some in Hr as [_ Hr]. rewrite Forall_forall in Hcols.
      assert (len r = Puzzle.Cols p) by (apply Hcols; eapply list_elem_of_lookup_2, Hr).
      lia. }
    split; [done|]. by apply isBlackCell_blackAt.
  - intros [[Hrow Hcol] Hb]. by rewrite isBlackCell_fits, Hb.
Qed.

Lemma isAcrossCell_true_fits p row col :
  fits (Puzzle.Rows p) (Puzzle.Cols p) (Puzzle.solution p) ->
  Puzzle.isAcrossCell p row col = Some true <->
  (0 <= row < Puzzle.Rows p /\ 0 <= col < Puzzle.Cols p) /\
  startsAcross (Puzzle.solution p) (Puzzle.Cols p) (row, col) = true.
Proof.
  intros Hfit. split.
  - intros H.
    assert (exists blk, Puzzle.isBlackCell p row col = Some blk) as [blk Hblk].
    { unfold Puzzle.isAcrossCell in H.
      destruct (Puzzle.isBlackCell p row col) as [blk|]; [by exists blk|done]. }
    assert (0 <= row < Puzzle.Rows p /\ 0 <= col < Puzzle.Cols p) as Hin.
    { destruct Hfit as [Hrows Hcols]. unfold Puzzle.isBlackCell in Hblk.
      destruct (index (Puzzle.solution p) row) as [r|] eqn:Hr; [|done].
      destruct (index r col) as [x|] eqn:Hx; [|done].
      apply index_range in Hx. pose proof (index_range _ _ _ Hr) as Hrow.
      apply index_Some in Hr as [_ Hr]. rewrite Forall_forall in Hcols.
      assert (len r = Puzzle.Cols p) by (apply Hcols; eapply list_elem_of_lookup_2, Hr).
      lia. }
    split; [done|]. rewrite isAcrossCell_fits in H by (done || lia). by injection H.
  - intros [[Hrow Hcol] Hs]. by rewrite isAcrossCell_fits, Hs.
Qed.

Lemma isDownCell_true_fits p row col :
  fits (Puzzle.Rows p) (Puzzle.Cols p) (Puzzle.solution p) ->
  Puzzle.isDownCell p row col = Some true <->
  (0 <= row < Puzzle.Rows p /\ 0 <= col < Puzzle.Cols p) /\
  startsDown (Puzzle.solution p) (Puzzle.Rows p) (row, col) = true.
Proof.
  intros Hfit. split.
  - intros H.
    assert (exists blk, Puzzle.isBlackCell p row col = Some blk) as [blk Hblk].
    { unfold Puzzle.isDownCell in H.
      destruct (Puzzle.isBlackCell p row col) as [blk|]; [by exists blk|done]. }
    assert (0 <= row < Puzzle.Rows p /\ 0 <= col < Puzzle.Cols p) as Hin.
    { destruct Hfit as [Hrows Hcols]. unfold Puzzle.isBlackCell in Hblk.
      destruct (index (Puzzle.solution p) row) as [r|] eqn:Hr; [|done].
      destruct (index r col) as [x|] eqn:Hx; [|done].
      apply index_range in Hx. pose proof (index_range _ _ _ Hr) as Hrow.
      apply index_Some in Hr as [_ Hr]. rewrite Forall_forall in Hcols.
      assert (len r = Puzzle.Cols p) by (apply Hcols; eapply list_elem_of_lookup_2, Hr).
      lia. }
    split; [done|]. rewrite isDownCell_fits in H by (done || lia). by injection H.
  - intros [[Hrow Hcol] Hs]. by rewrite isDownCell_fits, Hs.
Qed.

Lemma slot_in_across g rows cols x :
  inGrid rows cols x = true -> startsAcross g cols x = true ->
  mkClue (cellNumber g rows cols x) []
  ∈ map (slot g rows cols) (List.filter (startsAcross g cols) (scan rows cols)).
Proof.
  intros Hin Hs. apply list_elem_of_In, in_map_iff. exists x. split; [done|].
  apply filter_In. split; [|done]. by apply list_elem_of_In, inGrid_scan.
Qed.

Lemma slot_in_down g rows cols x :
  inGrid rows cols x = true -> startsDown g rows x = true ->
  mkClue (cellNumber g rows cols x) []
  ∈ map (slot g rows cols) (List.filter (startsDown g rows) (scan rows cols)).
Proof.
  intros Hin Hs. apply list_elem_of_In, in_map_iff. exists x. split; [done|].
  apply filter_In. split; [|done]. by apply list_elem_of_In, inGrid_scan.
Qed.

(** X7: After a successful SetSolution, every white cell with a white
    neighbour in its row lies in exactly one across entry: exactly one cell at
    or left of it, joined to it by white cells only, has isAcrossCell true,
    and that cell is numbered and its number has a slot in cluesAcross. The
    same holds for columns, isDownCell and cluesDown. *)
Theorem every_entry_has_one_clue
    (p : Puzzle.t) (g : list (list byte)) (p' : Puzzle.t) (row col : Z) :
  Puzzle.SetSolution p g = Some (None, p') ->
  white p' row col ->
  (white p' row (col - 1) \/ white p' row (col + 1) ->
   exists c0 n,
     c0 <= col /\ (forall k, c0 <= k <= col -> white p' row k) /\
     Puzzle.isAcrossCell p' row c0 = Some true /\
     Puzzle.cellCoords p' !! (row, c0) = Some n /\
     mkClue n [] ∈ Puzzle.cluesAcross p' /\
     forall c1, c1 <= col -> Puzzle.isAcrossCell p' row c1 = Some true ->
                (forall k, c1 <= k <= col -> white p' row k) -> c1 = c0) /\
  (white p' (row - 1) col \/ white p' (row + 1) col ->
   exists r0 n,
     r0 <= row /\ (forall k, r0 <= k <= row -> white p' k col) /\
     Puzzle.isDownCell p' r0 col = Some true /\
     Puzzle.cellCoords p' !! (r0, col) = Some n /\
     mkClue n [] ∈ Puzzle.cluesDown p' /\
     forall r1, r1 <= row -> Puzzle.isDownCell p' r1 col = Some true ->
                (forall k, r1 <= k <= row -> white p' k col) -> r1 = r0).
Proof.
  intros H. apply SetSolution_inv in H as [(err & ? & _)|(_ & Hfit & ->)]; [done|].
  set (rows := Puzzle.Rows p) in *. set (cols := Puzzle.Cols p) in *.
  set (p' := (numberedState p g (scan rows cols)).1).
  assert (fits (Puzzle.Rows p') (Puzzle.Cols p') (Puzzle.solution p')) as Hfit'
    by exact Hfit.
  assert (forall r c, white p' r c <->
            (0 <= r < rows /\ 0 <= c < cols) /\ blackAt g r c = false) as Hwhite
    by (intros r c; exact (white_fits p' r c Hfit')).
  assert (forall r c, Puzzle.isAcrossCell p' r c = Some true <->
            (0 <= r < rows /\ 0 <= c < cols) /\ startsAcross g cols (r, c) = true) as HA
    by (intros r c; exact (isAcrossCell_true_fits p' r c Hfit')).
  assert (forall r c, Puzzle.isDownCell p' r c = Some true <->
            (0 <= r < rows /\ 0 <= c < cols) /\ startsDown g rows (r, c) = true) as HD
    by (intros r c; exact (isDownCell_true_fits p' r c Hfit')).
  assert (forall x, Puzzle.cellCoords p' !! x
            = if inGrid rows cols x && numbered g rows cols x
              then Some (cellNumber g rows cols x) else None) as Hcoords
    by (intros x; apply lookup_coordsOf_scan).
  intros Hw. apply Hwhite in Hw as [[Hrow Hcol] Hw]. split.
  - intros Hnb.
    destruct (across_start g cols row (Z.to_nat col) col) as (c0 & Hc0 & Hs & Hall);
      [lia|lia|done| |].
    { destruct Hnb as [Hl|Hr]; [left|right].
      - apply Hwhite in Hl as [[_ ?] ?]. split; [lia|done].
      - apply Hwhite in Hr as [[_ ?] ?]. split; [lia|done]. }
    assert (inGrid rows cols (row, c0) = true) as Hin
      by (unfold inGrid; cbn [fst snd]; lia).
    exists c0, (cellNumber g rows cols (row, c0)).
    split; [lia|]. split; [|split; [|split; [|split]]].
    + intros k Hk. apply Hwhite. split; [lia|]. by apply Hall.
    + apply HA. split; [lia|done].
    + by rewrite Hcoords, Hin, (startsAcross_numbered g rows cols _ Hs).
    + by apply slot_in_across.
    + intros c1 Hc1 Hs1 Hall1. apply HA in Hs1 as [[_ ?] Hs1].
      apply (across_start_unique g cols row col c1 c0); try done; try lia.
      intros k Hk. by apply Hwhite, Hall1.
  - intros Hnb.
    destruct (down_start g rows col (Z.to_nat row) row) as (r0 & Hr0 & Hs & Hall);
      [lia|lia|done| |].
    { destruct Hnb as [Hl|Hr]; [left|right].
      - apply Hwhite in Hl as [[? _] ?]. split; [lia|done].
      - apply Hwhite in Hr as [[? _] ?]. split; [lia|done]. }
    assert (inGrid rows cols (r0, col) = true) as Hin
      by (unfold inGrid; cbn [fst snd]; lia).
    exists r0, (cellNumber g rows cols (r0, col)).
    split; [lia|]. split; [|split; [|split; [|split]]].
    + intros k Hk. apply Hwhite. split; [lia|]. by apply Hall.
    + apply HD. split; [lia|done].
    + by rewrite Hcoords, Hin, (startsDown_numbered g rows cols _ Hs).
    + by apply slot_in_down.
    + intros r1 Hr1 Hs1 Hall1. apply HD in Hs1 as [[? _] Hs1].
      apply (down_start_unique g rows row col r1 r0); try done; try lia.
      intros k Hk. by apply Hwhite, Hall1.
Qed.

Lemma every_entry_has_one_clue_witness :
  exists p', Puzzle.SetSolution puzzle5 grid5 = Some (None, p') /\
    white p' 0 1 /\ white p' 0 2 /\
    exists c0 n, c0 <= 1 /\ Puzzle.isAcrossCell p' 0 c0 = Some true /\
      Puzzle.cellCoords p' !! (0, c0) = Some n /\
      mkClue n [] ∈ Puzzle.cluesAcross p'.
Proof.
  set (p' := (numberedState puzzle5 grid5 (scan 5 5)).1).
  assert (white p' 0 1) as H1 by reflexivity.
  assert (white p' 0 2) as H2 by reflexivity.
  exists p'. split; [exact SetSolution_puzzle5|]. split; [exact H1|]. split; [exact H2|].
  destruct (every_entry_has_one_clue puzzle5 grid5 p' 0 1 SetSolution_puzzle5 H1)
    as [HA _].
  destruct (HA (or_intror H2)) as (c0 & n & Hc0 & _ & Hs & Hn & Hcl & _).
  exists c0, n. exact (conj Hc0 (conj Hs (conj Hn Hcl))).
Defined.

(** ** loadClues: the slots it needs *)

Lemma set_Clue_text_Some l i s :
  0 <= i < len l ->
  exists cl, l !! Z.to_nat i = Some cl /\
    AcrossLite.set_Clue_text l i s = Some (<[Z.to_nat i := mkClue (Num cl) s]> l).
Proof.
  intros Hi. unfold AcrossLite.set_Clue_text.
  destruct (index_is_Some l i Hi) as [cl Hcl]. rewrite Hcl.
  apply index_Some in Hcl as [_ Hcl]. by exists cl.
Qed.

Lemma set_Clue_text_None l i s :
  len l <= i -> AcrossLite.set_Clue_text l i s = None.
Proof.
  intros Hi. unfold AcrossLite.set_Clue_text.
  rewrite (proj2 (index_None l i)); [done|]. by right.
Qed.

Lemma map_Num_insert l i cl s :
  l !! i = Some cl -> map Num (<[i := mkClue (Num cl) s]> l) = map Num l.
Proof.
  intros H. change (map Num) with (fmap (M := list) Num).
  rewrite list_fmap_insert. cbn [Num]. apply list_insert_id.
  by rewrite list_lookup_fmap, H.
Qed.

(** One step of the loop of loadClues: it takes one free slot, and panics
    when none is left. *)
Lemma loadClue_step aMax dMax t q ai di :
  aMax = len (Puzzle.cluesAcross q) -> dMax = len (Puzzle.cluesDown q) ->
  0 <= ai <= aMax -> 0 <= di <= dMax ->
  if bool_decide (ai + di < aMax + dMax) then
    exists q' ai' di',
      AcrossLite.loadClue aMax dMax t (q, ai, di) = Some (q', ai', di') /\
      sameButTexts q q' /\ ai' + di' = ai + di + 1 /\
      ai <= ai' <= aMax /\ di <= di' <= dMax
  else AcrossLite.loadClue aMax dMax t (q, ai, di) = None.
Proof.
  intros HA HD Hai Hdi. unfold AcrossLite.loadClue.
  assert (forall A D, map Num A = map Num (Puzzle.cluesAcross q) ->
            map Num D = map Num (Puzzle.cluesDown q) ->
            sameButTexts q (AcrossLite.with_clues q A D)) as Hsame
    by (intros A D HA' HD'; repeat split; done).
  case_bool_decide as Hfree.
  - destruct (Z.leb_spec dMax di) as [Hd|Hd].
    { destruct (set_Clue_text_Some (Puzzle.cluesAcross q) ai t) as (cl & Hcl & ->); [lia|].
      eexists _, _, _. split; [reflexivity|].
      split; [apply Hsame; [by apply map_Num_insert|done]|lia]. }
    destruct (Z.leb_spec aMax ai) as [Ha|Ha].
    { destruct (set_Clue_text_Some (Puzzle.cluesDown q) di t) as (cl & Hcl & ->); [lia|].
      eexists _, _, _. split; [reflexivity|].
      split; [apply Hsame; [done|by apply map_Num_insert]|lia]. }
    destruct (index_is_Some (Puzzle.cluesDown q) di) as [cd Hcd]; [lia|].
    destruct (index_is_Some (Puzzle.cluesAcross q) ai) as [ca Hca]; [lia|].
    rewrite Hcd, Hca. destruct (Num cd <? Num ca).
    + destruct (set_Clue_text_Some (Puzzle.cluesDown q) di t) as (cl & Hcl & ->); [lia|].
      eexists _, _, _. split; [reflexivity|].
      split; [apply Hsame; [done|by apply map_Num_insert]|lia].
    + destruct (set_Clue_text_Some (Puzzle.cluesAcross q) ai t) as (cl & Hcl & ->); [lia|].
      eexists _, _, _. split; [reflexivity|].
      split; [apply Hsame; [by apply map_Num_insert|done]|lia].
  - destruct (Z.leb_spec dMax di) as [Hd|Hd]; [|lia].
    rewrite set_Clue_text_None by lia. done.
Qed.

Lemma sameButTexts_trans p q r :
  sameButTexts p q -> sameButTexts q r -> sameButTexts p r.
Proof.
  unfold sameButTexts. intros (?&?&?&?&?&?&?&?&?&?) (?&?&?&?&?&?&?&?&?&?).
  repeat split; congruence.
Qed.

Lemma sameButTexts_len p q :
  sameButTexts p q ->
  len (Puzzle.cluesAcross q) = len (Puzzle.cluesAcross p) /\
  len (Puzzle.cluesDown q) = len (Puzzle.cluesDown p).
Proof.
  intros (_&_&_&_&_&_&_&_&HA&HD). unfold len.
  apply (f_equal length) in HA, HD. rewrite !length_map in HA, HD. lia.
Qed.

Lemma loadCluesLoop_slots aMax dMax clues : forall q ai di,
  aMax = len (Puzzle.cluesAcross q) -> dMax = len (Puzzle.cluesDown q) ->
  0 <= ai <= aMax -> 0 <= di <= dMax ->
  if bool_decide (ai + di + len clues <= aMax + dMax) then
    exists q' ai' di',
      AcrossLite.loadCluesLoop aMax dMax clues (q, ai, di) = Some (q', ai', di') /\
      sameButTexts q q'
  else AcrossLite.loadCluesLoop aMax dMax clues (q, ai, di) = None.
Proof.
  induction clues as [|t clues IH]; intros q ai di HA HD Hai Hdi.
  - rewrite bool_decide_eq_true_2 by (change (len (@nil (list byte))) with 0; lia).
    exists q, ai, di. split; [done|]. repeat split; done.
  - cbn [AcrossLite.loadCluesLoop]. rewrite len_cons.
    pose proof (len_nonneg clues) as Hn.
    pose proof (loadClue_step aMax dMax t q ai di HA HD Hai Hdi) as Hstep.
    case_bool_decide as Hfree.
    + destruct Hstep as (q1 & ai1 & di1 & -> & Hsame & Hsum & Hai1 & Hdi1).
      destruct (sameButTexts_len _ _ Hsame) as [HA1 HD1].
      specialize (IH q1 ai1 di1).
      rewrite (bool_decide_ext _ (ai + di + (len clues + 1) <= aMax + dMax)) in IH
        by lia.
      case_bool_decide as Hall.
      * destruct IH as (q' & ai' & di' & -> & Hsame'); try lia.
        exists q', ai', di'. split; [done|]. by eapply sameButTexts_trans.
      * apply IH; lia.
    + rewrite Hstep. case_bool_decide; [lia|done].
Qed.

(** X8: loadClues panics exactly when the record holds more clue texts than
    the puzzle has across and down slots together. When it returns it has
    written clue texts only: dimensions, header texts, solution, numbering and
    the numbers of both clue lists are as before. *)
Theorem loadClues_needs_a_slot_per_clue (a : AcrossLite.t) (p : Puzzle.t) :
  (AcrossLite.loadClues a p = None <->
   len (Puzzle.cluesAcross p) + len (Puzzle.cluesDown p) < len (AcrossLite.Clues a)) /\
  (forall p', AcrossLite.loadClues a p = Some p' -> sameButTexts p p').
Proof.
  unfold AcrossLite.loadClues. cbv zeta.
  pose proof (len_nonneg (Puzzle.cluesAcross p)) as HA.
  pose proof (len_nonneg (Puzzle.cluesDown p)) as HD.
  pose proof (loadCluesLoop_slots _ _ (AcrossLite.Clues a) p 0 0 eq_refl eq_refl
                ltac:(lia) ltac:(lia)) as H.
  case_bool_decide as Hfit.
  - destruct H as (q' & ai' & di' & -> & Hsame). split.
    + split; [done|lia].
    + intros p' [= <-]. exact Hsame.
  - rewrite H. split; [split; [lia|done]|done].
Qed.

(** ** The order in which loadClues hands out the texts *)

Lemma sorted_lookup_le (l : list Clue) i j x y :
  increasing (map Num l) -> l !! i = Some x -> l !! j = Some y ->
  (i <= j)%nat -> Num x <= Num y.
Proof.
  intros Hs. revert i j. induction l as [|c l IH]; intros i j Hi Hj Hij; [done|].
  simpl in Hs. apply StronglySorted_cons in Hs as [Hl Hc].
  destruct i as [|i], j as [|j]; simpl in *; try lia.
  - injection Hi as <-. injection Hj as <-. lia.
  - injection Hi as <-. rewrite Forall_forall in Hl.
    assert (Num c < Num y); [|lia]. apply Hl, list_elem_of_In, in_map.
    apply list_elem_of_In. eapply list_elem_of_lookup_2, Hj.
  - eapply IH; [done| | |]; [exact Hi|exact Hj|lia].
Qed.

Lemma filter_length_ge {A} (f : A -> bool) (l : list A) : forall n,
  (n <= length l)%nat ->
  (forall j x, l !! j = Some x -> (j < n)%nat -> f x = true) ->
  (n <= length (List.filter f l))%nat.
Proof.
  induction l as [|x l IH]; intros n Hn H; simpl in *; [lia|].
  destruct n as [|n]; [lia|].
  rewrite (H 0%nat x) by (done || lia). simpl.
  apply le_n_S, IH; [lia|]. intros j y Hj Hlt. apply (H (S j)); [done|lia].
Qed.

Lemma filter_length_le {A} (f : A -> bool) (l : list A) : forall n,
  (forall j x, l !! j = Some x -> (n <= j)%nat -> f x = false) ->
  (length (List.filter f l) <= n)%nat.
Proof.
  induction l as [|x l IH]; intros n H; simpl in *; [lia|].
  destruct n as [|n].
  - rewrite (H 0%nat x) by (done || lia). apply IH.
    intros j y Hj _. apply (H (S j)); [done|lia].
  - pose proof (IH n) as IHn.
    assert (length (List.filter f l) <= n)%nat as Hle.
    { apply IHn. intros j y Hj Hlt. apply (H (S j)); [done|lia]. }
    destruct (f x); simpl; lia.
Qed.

Lemma acrossPos_bounds A0 D0 ia id i ca :
  acrossFirst A0 D0 ia id -> downFirst A0 D0 ia id ->
  (id <= length D0)%nat -> A0 !! i = Some ca ->
  ((i < ia)%nat -> (acrossPos D0 i ca <= i + id)%nat) /\
  ((ia <= i)%nat -> (i + id <= acrossPos D0 i ca)%nat).
Proof.
  intros H1 H2 Hid Hca. unfold acrossPos. split; intros Hi.
  - apply Nat.add_le_mono_l, filter_length_le. intros j cd Hcd Hj.
    apply Z.ltb_ge. by eapply H1.
  - apply Nat.add_le_mono_l, filter_length_ge; [done|]. intros j cd Hcd Hj.
    apply Z.ltb_lt. by eapply H2.
Qed.

Lemma downPos_bounds A0 D0 ia id j cd :
  acrossFirst A0 D0 ia id -> downFirst A0 D0 ia id ->
  (ia <= length A0)%nat -> D0 !! j = Some cd ->
  ((j < id)%nat -> (downPos A0 j cd <= j + ia)%nat) /\
  ((id <= j)%nat -> (j + ia <= downPos A0 j cd)%nat).
Proof.
  intros H1 H2 Hia Hcd. unfold downPos. split; intros Hj.
  - apply Nat.add_le_mono_l, filter_length_le. intros i ca Hca Hi.
    apply Z.leb_gt. by eapply H2.
  - apply Nat.add_le_mono_l, filter_length_ge; [done|]. intros i ca Hca Hi.
    apply Z.leb_le. by eapply H1.
Qed.

Lemma withText_snoc_ne texts t pos cl :
  pos <> length texts -> withText (texts ++ [t]) pos cl = withText texts pos cl.
Proof.
  intros Hne. unfold withText. f_equal.
  destruct (decide (pos < length texts)%nat).
  - by rewrite lookup_app_l.
  - rewrite !lookup_ge_None_2; [done|lia|rewrite length_app; simpl; lia].
Qed.

Lemma withText_snoc_eq texts t cl :
  withText (texts ++ [t]) (length texts) cl = mkClue (Num cl) t.
Proof.
  unfold withText. by rewrite lookup_app_r, Nat.sub_diag.
Qed.

Lemma assign_snoc_across A0 D0 texts t ia id ca :
  acrossFirst A0 D0 ia id -> downFirst A0 D0 ia id ->
  acrossFirst A0 D0 (S ia) id -> downFirst A0 D0 (S ia) id ->
  length texts = (ia + id)%nat -> (id <= length D0)%nat -> (ia < length A0)%nat ->
  A0 !! ia = Some ca ->
  assignAcross A0 D0 (texts ++ [t])
    = <[ia := mkClue (Num ca) t]> (assignAcross A0 D0 texts) /\
  assignDown A0 D0 (texts ++ [t]) = assignDown A0 D0 texts.
Proof.
  intros H1 H2 H1' H2' Hlen Hid Hia Hca. unfold assignAcross, assignDown. split.
  - apply list_eq. intros i. destruct (decide (i = ia)) as [->|Hne].
    + rewrite list_lookup_insert_eq by (rewrite length_imap; lia).
      rewrite list_lookup_imap, Hca. cbn [fmap option_fmap option_map]. f_equal.
      destruct (acrossPos_bounds A0 D0 ia id ia ca H1 H2 Hid Hca) as [_ Hlo].
      destruct (acrossPos_bounds A0 D0 (S ia) id ia ca H1' H2' Hid Hca) as [Hhi _].
      replace (acrossPos D0 ia ca) with (length texts) by lia.
      apply withText_snoc_eq.
    + rewrite list_lookup_insert_ne by done. rewrite !list_lookup_imap.
      destruct (A0 !! i) as [c|] eqn:Hc; [|done].
      cbn [fmap option_fmap option_map]. f_equal. apply withText_snoc_ne.
      destruct (acrossPos_bounds A0 D0 ia id i c H1 H2 Hid Hc) as [Hhi _].
      destruct (acrossPos_bounds A0 D0 (S ia) id i c H1' H2' Hid Hc) as [_ Hlo].
      lia.
  - apply list_eq. intros j. rewrite !list_lookup_imap.
    destruct (D0 !! j) as [c|] eqn:Hc; [|done].
    cbn [fmap option_fmap option_map]. f_equal. apply withText_snoc_ne.
    destruct (downPos_bounds A0 D0 ia id j c H1 H2 ltac:(lia) Hc) as [Hhi _].
    destruct (downPos_bounds A0 D0 (S ia) id j c H1' H2' ltac:(lia) Hc) as [_ Hlo].
    lia.
Qed.

Lemma assign_snoc_down A0 D0 texts t ia id cd :
  acrossFirst A0 D0 ia id -> downFirst A0 D0 ia id ->
  acrossFirst A0 D0 ia (S id) -> downFirst A0 D0 ia (S id) ->
  length texts = (ia + id)%nat -> (id < length D0)%nat -> (ia <= length A0)%nat ->
  D0 !! id = Some cd ->
  assignAcross A0 D0 (texts ++ [t]) = assignAcross A0 D0 texts /\
  assignDown A0 D0 (texts ++ [t])
    = <[id := mkClue (Num cd) t]> (assignDown A0 D0 texts).
Proof.
  intros H1 H2 H1' H2' Hlen Hid Hia Hcd. unfold assignAcross, assignDown. split.
  - apply list_eq. intros i. rewrite !list_lookup_imap.
    destruct (A0 !! i) as [c|] eqn:Hc; [|done].
    cbn [fmap option_fmap option_map]. f_equal. apply withText_snoc_ne.
    destruct (acrossPos_bounds A0 D0 ia id i c H1 H2 ltac:(lia) Hc) as [Hhi _].
    destruct (acrossPos_bounds A0 D0 ia (S id) i c H1' H2' ltac:(lia) Hc) as [_ Hlo].
    lia.
  - apply list_eq. intros j. destruct (decide (j = id)) as [->|Hne].
    + rewrite list_lookup_insert_eq by (rewrite length_imap; lia).
      rewrite list_lookup_imap, Hcd. cbn [fmap option_fmap option_map]. f_equal.
      destruct (downPos_bounds A0 D0 ia id id cd H1 H2 Hia Hcd) as [_ Hlo].
      destruct (downPos_bounds A0 D0 ia (S id) id cd H1' H2' Hia Hcd) as [Hhi _].
      replace (downPos A0 id cd) with (length texts) by lia.
      apply withText_snoc_eq.
    + rewrite list_lookup_insert_ne by done. rewrite !list_lookup_imap.
      destruct (D0 !! j) as [c|] eqn:Hc; [|done].
      cbn [fmap option_fmap option_map]. f_equal. apply withText_snoc_ne.
      destruct (downPos_bounds A0 D0 ia id j c H1 H2 Hia Hc) as [Hhi _].
      destruct (downPos_bounds A0 D0 ia (S id) j c H1' H2' Hia Hc) as [_ Hlo].
      lia.
Qed.

Lemma withText_nil pos cl : withText [] pos cl = cl.
Proof. unfold withText. rewrite lookup_nil. by destruct cl. Qed.

Lemma assignAcross_nil A0 D0 : assignAcross A0 D0 [] = A0.
Proof.
  unfold assignAcross. apply list_eq. intros i. rewrite list_lookup_imap.
  destruct (A0 !! i); [|done]. cbn. by rewrite withText_nil.
Qed.

Lemma assignDown_nil A0 D0 : assignDown A0 D0 [] = D0.
Proof.
  unfold assignDown. apply list_eq. intros i. rewrite list_lookup_imap.
  destruct (D0 !! i); [|done]. cbn. by rewrite withText_nil.
Qed.

Lemma assignAcross_lookup A0 D0 texts i ca :
  A0 !! i = Some ca ->
  exists cl, assignAcross A0 D0 texts !! i = Some cl /\ Num cl = Num ca.
Proof.
  intros H. unfold assignAcross. rewrite list_lookup_imap, H. by eexists.
Qed.

Lemma assignDown_lookup A0 D0 texts j cd :
  D0 !! j = Some cd ->
  exists cl, assignDown A0 D0 texts !! j = Some cl /\ Num cl = Num cd.
Proof.
  intros H. unfold assignDown. rewrite list_lookup_imap, H. by eexists.
Qed.

Lemma set_Clue_text_assign l (i : nat) s l' cl0 :
  AcrossLite.set_Clue_text l (Z.of_nat i) s = Some l' ->
  (exists cl, l !! i = Some cl /\ Num cl = Num cl0) ->
  l' = <[i := mkClue (Num cl0) s]> l.
Proof.
  unfold AcrossLite.set_Clue_text. intros H (cl & Hcl & HN).
  assert (index l (Z.of_nat i) = Some cl) as E
    by (apply index_Some; rewrite Nat2Z.id; split; [lia|done]).
  rewrite E in H. injection H as <-. by rewrite Nat2Z.id, HN.
Qed.

Lemma loadClue_order A0 D0 texts t st st' :
  increasing (map Num A0) -> increasing (map Num D0) ->
  handedOut A0 D0 texts st ->
  AcrossLite.loadClue (len A0) (len D0) t st = Some st' ->
  handedOut A0 D0 (texts ++ [t]) st'.
Proof.
  intros HsA HsD (ia & id & Hai & Hdi & HA & HD & Hlen & Hia & Hid & H1 & H2).
  destruct st as [[q ai] di]. cbn [fst snd] in *. subst ai di.
  unfold AcrossLite.loadClue.
  assert (forall ca, A0 !! ia = Some ca ->
            (len D0 <= Z.of_nat id \/
             exists cd, D0 !! id = Some cd /\ Num ca <= Num cd) ->
            acrossFirst A0 D0 (S ia) id /\ downFirst A0 D0 (S ia) id) as Hacross.
  { intros ca Hca Hfree. split.
    - intros i j ca' cd' Hi Hj Hlt Hge.
      destruct (decide (i = ia)) as [->|Hne]; [|eapply H1; eauto; lia].
      assert (ca' = ca) as -> by congruence.
      destruct Hfree as [Hfull|(cd & Hcd & Hle)].
      + apply lookup_lt_Some in Hj. unfold len in Hfull. lia.
      + pose proof (sorted_lookup_le D0 id j cd cd' HsD Hcd Hj Hge). lia.
    - intros i j ca' cd' Hi Hj Hlt Hge. eapply H2; eauto. lia. }
  assert (forall cd, D0 !! id = Some cd ->
            (len A0 <= Z.of_nat ia \/
             exists ca, A0 !! ia = Some ca /\ Num cd < Num ca) ->
            acrossFirst A0 D0 ia (S id) /\ downFirst A0 D0 ia (S id)) as Hdown.
  { intros cd Hcd Hfree. split.
    - intros i j ca' cd' Hi Hj Hlt Hge. eapply H1; eauto. lia.
    - intros i j ca' cd' Hi Hj Hlt Hge.
      destruct (decide (j = id)) as [->|Hne]; [|eapply H2; eauto; lia].
      assert (cd' = cd) as -> by congruence.
      destruct Hfree as [Hfull|(ca & Hca & Hle)].
      + apply lookup_lt_Some in Hi. unfold len in Hfull. lia.
      + pose proof (sorted_lookup_le A0 ia i ca ca' HsA Hca Hi Hge). lia. }
  assert (forall l', AcrossLite.set_Clue_text (Puzzle.cluesAcross q) (Z.of_nat ia) t
                     = Some l' ->
            (len D0 <= Z.of_nat id \/
             exists ca cd, A0 !! ia = Some ca /\ D0 !! id = Some cd /\
                           Num ca <= Num cd) ->
            handedOut A0 D0 (texts ++ [t])
              (AcrossLite.with_clues q l' (Puzzle.cluesDown q), Z.of_nat ia + 1,
               Z.of_nat id)) as Htake_across.
  { intros l' Hset Hfree.
    assert (exists ca, A0 !! ia = Some ca) as [ca Hca].
    { unfold AcrossLite.set_Clue_text in Hset.
      destruct (index (Puzzle.cluesAcross q) (Z.of_nat ia)) as [cl|] eqn:E; [|done].
      apply index_range in E. rewrite HA in E. unfold assignAcross, len in E.
      rewrite length_imap in E. apply lookup_lt_is_Some. lia. }
    destruct (Hacross ca Hca) as [H1' H2'].
    { destruct Hfree as [?|(ca' & cd & Hca' & Hcd & Hle)]; [by left|right].
      exists cd. split; [done|]. congruence. }
    pose proof (lookup_lt_Some _ _ _ Hca) as Hlt.
    destruct (assign_snoc_across A0 D0 texts t ia id ca H1 H2 H1' H2' Hlen Hid Hlt Hca)
      as [EA ED].
    exists (S ia), id. cbn [fst snd AcrossLite.with_clues Puzzle.cluesAcross
                              Puzzle.cluesDown].
    split; [lia|]. split; [done|]. split.
    { rewrite EA, <- HA. eapply set_Clue_text_assign; [exact Hset|].
      rewrite HA. by apply assignAcross_lookup. }
    split; [by rewrite ED|]. split; [rewrite length_app; simpl; lia|].
    split; [lia|]. done. }
  assert (forall l', AcrossLite.set_Clue_text (Puzzle.cluesDown q) (Z.of_nat id) t
                     = Some l' ->
            (len A0 <= Z.of_nat ia \/
             exists ca cd, A0 !! ia = Some ca /\ D0 !! id = Some cd /\
                           Num cd < Num ca) ->
            handedOut A0 D0 (texts ++ [t])
              (AcrossLite.with_clues q (Puzzle.cluesAcross q) l', Z.of_nat ia,
               Z.of_nat id + 1)) as Htake_down.
  { intros l' Hset Hfree.
    assert (exists cd, D0 !! id = Some cd) as [cd Hcd].
    { unfold AcrossLite.set_Clue_text in Hset.
      destruct (index (Puzzle.cluesDown q) (Z.of_nat id)) as [cl|] eqn:E; [|done].
      apply index_range in E. rewrite HD in E. unfold assignDown, len in E.
      rewrite length_imap in E. apply lookup_lt_is_Some. lia. }
    destruct (Hdown cd Hcd) as [H1' H2'].
    { destruct Hfree as [?|(ca & cd' & Hca & Hcd' & Hle)]; [by left|right].
      exists ca. split; [done|]. congruence. }
    pose proof (lookup_lt_Some _ _ _ Hcd) as Hlt.
    destruct (assign_snoc_down A0 D0 texts t ia id cd H1 H2 H1' H2' Hlen Hlt Hia Hcd)
      as [EA ED].
    exists ia, (S id). cbn [fst snd AcrossLite.with_clues Puzzle.cluesAcross
                              Puzzle.cluesDown].
    split; [done|]. split; [lia|]. split; [by rewrite EA|]. split.
    { rewrite ED, <- HD. eapply set_Clue_text_assign; [exact Hset|].
      rewrite HD. by apply assignDown_lookup. }
    split; [rewrite length_app; simpl; lia|]. split; [done|]. split; [lia|done]. }
  destruct (Z.leb_spec (len D0) (Z.of_nat id)) as [Hd|Hd].
  { destruct (AcrossLite.set_Clue_text (Puzzle.cluesAcross q) _ t) as [l'|] eqn:Hset;
      [|done].
    intros [= <-]. apply Htake_across; [done|by left]. }
  destruct (Z.leb_spec (len A0) (Z.of_nat ia)) as [Ha|Ha]; cbv beta iota.
  { destruct (AcrossLite.set_Clue_text (Puzzle.cluesDown q) _ t) as [l'|] eqn:Hset;
      [|done].
    intros [= <-]. apply Htake_down; [done|by left]. }
  destruct (index (Puzzle.cluesDown q) (Z.of_nat id)) as [cd|] eqn:Ecd; [|done].
  destruct (index (Puzzle.cluesAcross q) (Z.of_nat ia)) as [ca|] eqn:Eca; [|done].
  apply index_Some in Ecd as [_ Ecd]. apply index_Some in Eca as [_ Eca].
  rewrite Nat2Z.id in Ecd, Eca.
  destruct (lookup_lt_is_Some_2 A0 ia) as [ca0 Hca0]; [unfold len in Ha; lia|].
  destruct (lookup_lt_is_Some_2 D0 id) as [cd0 Hcd0]; [unfold len in Hd; lia|].
  assert (Num ca = Num ca0) as HNa.
  { destruct (assignAcross_lookup A0 D0 texts ia ca0 Hca0) as (cl & Hcl & <-).
    rewrite <- HA in Hcl. congruence. }
  assert (Num cd = Num cd0) as HNd.
  { destruct (assignDown_lookup A0 D0 texts id cd0 Hcd0) as (cl & Hcl & <-).
    rewrite <- HD in Hcl. congruence. }
  destruct (Z.ltb_spec (Num cd) (Num ca)) as [Hlt|Hge]; cbv beta iota.
  - destruct (AcrossLite.set_Clue_text (Puzzle.cluesDown q) _ t) as [l'|] eqn:Hset;
      [|done].
    intros [= <-]. apply Htake_down; [done|right]. exists ca0, cd0.
    split; [done|]. split; [done|lia].
  - destruct (AcrossLite.set_Clue_text (Puzzle.cluesAcross q) _ t) as [l'|] eqn:Hset;
      [|done].
    intros [= <-]. apply Htake_across; [done|right]. exists ca0, cd0.
    split; [done|]. split; [done|lia].
Qed.

Lemma loadCluesLoop_order A0 D0 todo : forall texts st st',
  increasing (map Num A0) -> increasing (map Num D0) ->
  handedOut A0 D0 texts st ->
  AcrossLite.loadCluesLoop (len A0) (len D0) todo st = Some st' ->
  handedOut A0 D0 (texts ++ todo) st'.
Proof.
  induction todo as [|t todo IH]; intros texts st st' HsA HsD Hinv; simpl.
  - intros [= <-]. by rewrite app_nil_r.
  - destruct (AcrossLite.loadClue _ _ t st) as [st1|] eqn:E; [|done].
    intros H. rewrite cons_middle, app_assoc. eapply IH; [done|done| |exact H].
    by eapply loadClue_order.
Qed.

(** X9: When the numbers increase along both clue lists, loadClues gives the
    k-th clue text to the k-th slot in the order of the slot numbers, the
    across slot before the down slot of the same number. Slots beyond the last
    text keep the text they had. *)
Theorem loadClues_hands_out_in_number_order
    (a : AcrossLite.t) (p p' : Puzzle.t) :
  increasing (map Num (Puzzle.cluesAcross p)) ->
  increasing (map Num (Puzzle.cluesDown p)) ->
  AcrossLite.loadClues a p = Some p' ->
  Puzzle.cluesAcross p'
    = assignAcross (Puzzle.cluesAcross p) (Puzzle.cluesDown p) (AcrossLite.Clues a) /\
  Puzzle.cluesDown p'
    = assignDown (Puzzle.cluesAcross p) (Puzzle.cluesDown p) (AcrossLite.Clues a).
Proof.
  intros HsA HsD. unfold AcrossLite.loadClues. cbv zeta.
  destruct (AcrossLite.loadCluesLoop _ _ _ _) as [st'|] eqn:E; [|done].
  intros [= <-].
  pose proof (loadCluesLoop_order (Puzzle.cluesAcross p) (Puzzle.cluesDown p)
                (AcrossLite.Clues a) [] (p, 0, 0) st' HsA HsD) as H.
  destruct H as (ia & id & _ & _ & HA & HD & _); [|exact E|by rewrite HA, HD].
  exists 0%nat, 0%nat. cbn [fst snd].
  rewrite assignAcross_nil, assignDown_nil.
  repeat split; try done; try lia.
  - intros i j ca cd _ _ Hi. lia.
  - intros i j ca cd _ _ Hi. lia.
Qed.

Lemma loadClues_hands_out_in_number_order_witness :
  increasing (map Num (Puzzle.cluesAcross puzzle3Numbered)) /\
  increasing (map Num (Puzzle.cluesDown puzzle3Numbered)) /\
  AcrossLite.loadClues (parsed AcrossLite.zero layoutPets) puzzle3Numbered
  = Some puzzle3Loaded /\
  Puzzle.cluesAcross puzzle3Loaded = [mkClue 0 (bytesOf "Feline")] /\
  Puzzle.cluesDown puzzle3Loaded = [mkClue 1 (bytesOf "Brown")].
Proof.
  assert (increasing (map Num (Puzzle.cluesAcross puzzle3Numbered))) as HA
    by (repeat constructor).
  assert (increasing (map Num (Puzzle.cluesDown puzzle3Numbered))) as HD
    by (repeat constructor).
  assert (AcrossLite.loadClues (parsed AcrossLite.zero layoutPets) puzzle3Numbered
          = Some puzzle3Loaded) as HL by (by vm_compute).
  exact (conj HA (conj HD (conj HL
    (loadClues_hands_out_in_number_order _ _ _ HA HD HL)))).
Defined.

(** ** Load of the provider and Load of package xwd *)

Lemma loadClues_None a p :
  AcrossLite.loadClues a p = None <->
  len (Puzzle.cluesAcross p) + len (Puzzle.cluesDown p) < len (AcrossLite.Clues a).
Proof.
  unfold AcrossLite.loadClues. cbv zeta.
  pose proof (len_nonneg (Puzzle.cluesAcross p)) as HA.
  pose proof (len_nonneg (Puzzle.cluesDown p)) as HD.
  pose proof (loadCluesLoop_slots _ _ (AcrossLite.Clues a) p 0 0 eq_refl eq_refl
                ltac:(lia) ltac:(lia)) as H.
  case_bool_decide as Hfit.
  - destruct H as (q' & ai' & di' & -> & Hsame). split; [done|lia].
  - rewrite H. split; [lia|done].
Qed.

Lemma loadClues_Some a p p' :
  AcrossLite.loadClues a p = Some p' -> sameButTexts p p'.
Proof.
  unfold AcrossLite.loadClues. cbv zeta.
  pose proof (len_nonneg (Puzzle.cluesAcross p)) as HA.
  pose proof (len_nonneg (Puzzle.cluesDown p)) as HD.
  pose proof (loadCluesLoop_slots _ _ (AcrossLite.Clues a) p 0 0 eq_refl eq_refl
                ltac:(lia) ltac:(lia)) as H.
  case_bool_decide as Hfit.
  - destruct H as (q' & ai' & di' & -> & Hsame). by intros [= <-].
  - by rewrite H.
Qed.

Lemma loadClues_order a p p' :
  increasing (map Num (Puzzle.cluesAcross p)) ->
  increasing (map Num (Puzzle.cluesDown p)) ->
  AcrossLite.loadClues a p = Some p' ->
  Puzzle.cluesAcross p'
    = assignAcross (Puzzle.cluesAcross p) (Puzzle.cluesDown p) (AcrossLite.Clues a) /\
  Puzzle.cluesDown p'
    = assignDown (Puzzle.cluesAcross p) (Puzzle.cluesDown p) (AcrossLite.Clues a).
Proof.
  intros HsA HsD. unfold AcrossLite.loadClues. cbv zeta.
  destruct (AcrossLite.loadCluesLoop _ _ _ _) as [st'|] eqn:E; [|done].
  intros [= <-].
  pose proof (loadCluesLoop_order (Puzzle.cluesAcross p) (Puzzle.cluesDown p)
                (AcrossLite.Clues a) [] (p, 0, 0) st' HsA HsD) as H.
  destruct H as (ia & id & _ & _ & HA & HD & _); [|exact E|by rewrite HA, HD].
  exists 0%nat, 0%nat. cbn [fst snd].
  rewrite assignAcross_nil, assignDown_nil.
  repeat split; try done; try lia.
  - intros i j ca cd _ _ Hi. lia.
  - intros i j ca cd _ _ Hi. lia.
Qed.

Lemma acrossSlots_increasing g rows cols : increasing (map Num (acrossSlots g rows cols)).
Proof.
  unfold acrossSlots. rewrite map_Num_slot.
  apply (cellNumber_increasing g rows cols _ (scan rows cols) []); [|done].
  apply startsAcross_numbered.
Qed.

Lemma downSlots_increasing g rows cols : increasing (map Num (downSlots g rows cols)).
Proof.
  unfold downSlots. rewrite map_Num_slot.
  apply (cellNumber_increasing g rows cols _ (scan rows cols) []); [|done].
  apply startsDown_numbered.
Qed.

(** Load of the provider on the record Parse leaves for a laid-out file. *)
Lemma AcrossLite_Load_layout a L p :
  wellFormed L ->
  AcrossLite.Load (parsed a L) p =
  if bool_decide (len (lyClues L)
                  <= len (acrossSlots (lySolution L) (byteZ (lyRows L)) (byteZ (lyCols L)))
                     + len (downSlots (lySolution L) (byteZ (lyRows L)) (byteZ (lyCols L))))
  then Some (loadedPuzzle L) else None.
Proof.
  intros Hwf. unfold AcrossLite.Load.
  cbn [parsed AcrossLite.Cols AcrossLite.Rows AcrossLite.Title AcrossLite.Author
       AcrossLite.Copyright AcrossLite.Notes AcrossLite.Solution].
  cbv zeta. rewrite SetSolution_fits by exact (wfSolution L Hwf).
  cbn [snd]. unfold numberedState. cbv zeta.
  cbn [fst Puzzle.Rows Puzzle.Cols Puzzle.Title Puzzle.Author Puzzle.Copyright
       Puzzle.Notes].
  set (g := lySolution L). set (rows := byteZ (lyRows L)). set (cols := byteZ (lyCols L)).
  fold (acrossSlots g rows cols). fold (downSlots g rows cols).
  set (q := Puzzle.mk _ _ _ _ _ _ _ _ _ _).
  destruct (AcrossLite.loadClues (parsed a L) q) as [p'|] eqn:E.
  - rewrite bool_decide_eq_true_2.
    + f_equal. pose proof (loadClues_Some _ _ _ E) as (?&?&?&?&?&?&?&?&_&_).
      destruct (loadClues_order (parsed a L) q p'
                  (acrossSlots_increasing g rows cols)
                  (downSlots_increasing g rows cols) E) as [HA HD].
      destruct p'. unfold loadedPuzzle. cbv zeta. fold g rows cols.
      cbn [Puzzle.Cols Puzzle.Rows Puzzle.Title Puzzle.Author Puzzle.Copyright
           Puzzle.Notes Puzzle.solution Puzzle.cellCoords Puzzle.cluesAcross
           Puzzle.cluesDown AcrossLite.Clues parsed q] in *.
      congruence.
    + destruct (decide (len (lyClues L)
                        <= len (acrossSlots g rows cols) + len (downSlots g rows cols)))
        as [|Hgt]; [done|].
      assert (AcrossLite.loadClues (parsed a L) q = None); [|congruence].
      apply loadClues_None. cbn. lia.
  - apply loadClues_None in E. cbn in E. rewrite bool_decide_eq_false_2; [done|lia].
Qed.

Lemma Sniff_layout L sp :
  wellFormed L ->
  AcrossLite.Sniff (mkSlice (encode L) sp) = bool_decide (lyMagic L = magic).
Proof.
  intros Hwf. rewrite Sniff_long.
  - cbn [elems]. unfold encode, headBytes. rewrite <- !app_assoc.
    rewrite drop_app_length' by (symmetry; apply (wfCksumFil L Hwf)).
    rewrite take_app_length' by (symmetry; apply (wfMagic L Hwf)). done.
  - cbn [elems]. unfold encode. rewrite len_app, len_headBytes by done.
    pose proof (len_nonneg (cibBytes L ++ concat (lySolution L) ++ lyState L
                              ++ textBytes L)).
    lia.
Qed.

(** X10: For a well-formed file with the magic that Parse accepts, Load of
    package xwd returns nil and leaves the puzzle with the file's dimensions,
    title, author, copyright, notes and solution, the numbering of that grid,
    and the clue texts in number order; but when the file holds more clues
    than its grid has across and down entries, Load panics. *)
Theorem Puzzle_Load_accepted
    (p : Puzzle.t) (L : layout) (sp : list byte) (a' : AcrossLite.t) :
  wellFormed L -> lyMagic L = magic ->
  AcrossLite.Parse AcrossLite.zero (mkSlice (encode L) sp) = Some (None, a') ->
  Puzzle_Load p (mkSlice (encode L) sp) =
  if bool_decide (len (lyClues L)
                  <= len (acrossSlots (lySolution L) (byteZ (lyRows L)) (byteZ (lyCols L)))
                     + len (downSlots (lySolution L) (byteZ (lyRows L)) (byteZ (lyCols L))))
  then Some (None, loadedPuzzle L) else None.
Proof.
  intros Hwf Hmagic HP. unfold Puzzle_Load.
  rewrite Sniff_layout, bool_decide_eq_true_2, HP by done.
  assert (a' = parsed AcrossLite.zero L) as ->.
  { unfold AcrossLite.Parse in HP. rewrite parseFields_layout in HP by done.
    destruct (AcrossLite.Verify _) as [[|]|]; cbn in HP; congruence. }
  rewrite AcrossLite_Load_layout by done. by case_bool_decide.
Qed.

Lemma Puzzle_Load_accepted_witness :
  wellFormed layoutPets /\ lyMagic layoutPets = magic /\
  AcrossLite.Parse AcrossLite.zero (mkSlice (encode layoutPets) [])
  = Some (None, parsed AcrossLite.zero layoutPets) /\
  Puzzle_Load puzzle5 (mkSlice (encode layoutPets) [])
  = Some (None, loadedPuzzle layoutPets).
Proof.
  assert (AcrossLite.Parse AcrossLite.zero (mkSlice (encode layoutPets) [])
          = Some (None, parsed AcrossLite.zero layoutPets)) as HP by (by vm_compute).
  exact (conj layoutPets_wf (conj eq_refl (conj HP
    (Puzzle_Load_accepted puzzle5 layoutPets [] _ layoutPets_wf eq_refl HP)))).
Defined.

(** Load does not look at the error of SetSolution. *)
Lemma AcrossLite_Load_unfit a p :
  ~ fits (AcrossLite.Rows a) (AcrossLite.Cols a) (AcrossLite.Solution a) ->
  AcrossLite.Load a p =
  AcrossLite.loadClues a
    (Puzzle.mk (AcrossLite.Cols a) (AcrossLite.Rows a) (AcrossLite.Title a)
       (AcrossLite.Author a) (AcrossLite.Copyright a) (AcrossLite.Notes a)
       (Puzzle.solution p) (Puzzle.cellCoords p)
       (Puzzle.cluesAcross p) (Puzzle.cluesDown p)).
Proof.
  intros Hfit. unfold AcrossLite.Load. cbv zeta.
  set (q := Puzzle.mk _ _ _ _ _ _ _ _ _ _).
  destruct (SetSolution_error q (AcrossLite.Solution a) Hfit) as (e & -> & _). done.
Qed.

(** X11: When the record's solution does not fit its Rows and Cols, Load of
    the provider ignores the error of SetSolution: it panics exactly when the
    clue texts outnumber the slots the puzzle had before, and otherwise leaves
    a puzzle with the record's Rows and Cols but the old solution grid, the
    old numbering and the old clue numbers. *)
Theorem Load_drops_SetSolution_error (a : AcrossLite.t) (p : Puzzle.t) :
  ~ fits (AcrossLite.Rows a) (AcrossLite.Cols a) (AcrossLite.Solution a) ->
  (AcrossLite.Load a p = None <->
   len (Puzzle.cluesAcross p) + len (Puzzle.cluesDown p) < len (AcrossLite.Clues a)) /\
  (forall p', AcrossLite.Load a p = Some p' ->
     Puzzle.Rows p' = AcrossLite.Rows a /\ Puzzle.Cols p' = AcrossLite.Cols a /\
     Puzzle.solution p' = Puzzle.solution p /\
     Puzzle.cellCoords p' = Puzzle.cellCoords p /\
     map Num (Puzzle.cluesAcross p') = map Num (Puzzle.cluesAcross p) /\
     map Num (Puzzle.cluesDown p') = map Num (Puzzle.cluesDown p) /\
     ~ fits (Puzzle.Rows p') (Puzzle.Cols p') (AcrossLite.Solution a)).
Proof.
  intros Hfit. rewrite AcrossLite_Load_unfit by done. split.
  - rewrite loadClues_None. cbn. done.
  - intros p' H. apply loadClues_Some in H as (HC&HR&_&_&_&_&HS&HM&HA&HD).
    cbn in *. rewrite HR, HC. done.
Qed.

Lemma Load_drops_SetSolution_error_witness :
  ~ fits (AcrossLite.Rows recordRagged) (AcrossLite.Cols recordRagged)
      (AcrossLite.Solution recordRagged) /\
  exists p', AcrossLite.Load recordRagged puzzle5 = Some p' /\
    Puzzle.Rows p' = 3 /\ Puzzle.Cols p' = 3 /\
    Puzzle.solution p' = Puzzle.solution puzzle5.
Proof.
  assert (~ fits (AcrossLite.Rows recordRagged) (AcrossLite.Cols recordRagged)
            (AcrossLite.Solution recordRagged)) as Hn.
  { apply not_fits. right. exists (bytesOf ".."). split; [|by vm_compute].
    right. left. }
  split; [exact Hn|].
  destruct (AcrossLite.Load recordRagged puzzle5) as [p'|] eqn:E;
    [|by vm_compute in E].
  exists p'. split; [reflexivity|].
  destruct (Load_drops_SetSolution_error recordRagged puzzle5 Hn) as [_ H].
  destruct (H p' E) as (H1 & H2 & H3 & _).
  exact (conj H1 (conj H2 H3)).
Defined.

(** ** The reads on a buffer that is too short *)

Lemma readFull_short n r :
  len r < n ->
  readFull n r = (inl (if bool_decide (r = []) then EOF else ErrUnexpectedEOF), []).
Proof.
  intros H. unfold readFull. destruct (Z.ltb_spec (len r) n); [|lia].
  by destruct r.
Qed.

Lemma readFull_enough n r :
  0 <= n <= len r ->
  readFull n r = (inr (take (Z.to_nat n) r), drop (Z.to_nat n) r).
Proof.
  intros H. unfold readFull. destruct (Z.ltb_spec (len r) n); [lia|done].
Qed.

Lemma readMatrixRows_short cols n : forall k done r,
  0 < cols -> len r < Z.of_nat n * cols ->
  readMatrixRows (seqZ k (Z.of_nat n)) cols done r
  = (inl (if bool_decide (len r mod cols = 0) then EOF else ErrUnexpectedEOF), []).
Proof.
  induction n as [|n IH]; intros k done r Hcols Hlen.
  - pose proof (len_nonneg r). lia.
  - rewrite seqZ_cons by lia. simpl readMatrixRows. unfold binary_Read_bytes.
    destruct (Z.lt_ge_cases (len r) cols) as [Hlt|Hge].
    + rewrite readFull_short by done. pose proof (len_nonneg r).
      rewrite Z.mod_small by lia.
      destruct r; [done|]. rewrite bool_decide_eq_false_2 by done.
      rewrite bool_decide_eq_false_2; [done|]. rewrite len_cons.
      pose proof (len_nonneg r). lia.
    + rewrite readFull_enough by lia.
      replace (Z.pred (Z.of_nat (S n))) with (Z.of_nat n) by lia.
      rewrite IH; [|done|].
      * f_equal. f_equal. unfold len. rewrite length_drop.
        replace (Z.of_nat (length r - Z.to_nat cols)) with (len r + (-1) * cols)
          by (unfold len in *; lia).
        rewrite Z.mod_add by lia. done.
      * unfold len in *. rewrite length_drop. lia.
Qed.

(** X12: readString splits the buffer at its first NUL: it returns the bytes
    before it with a nil error and leaves the bytes after it. On a buffer
    without a NUL it returns the whole buffer together with io.EOF and leaves
    nothing; it has no other results. *)
Theorem readString_splits_at_first_NUL
    (r s : list byte) (err : option error) (r' : reader) :
  readString r = ((s, err), r') <->
  nulFree s /\
  ((err = None /\ r = s ++ NUL :: r') \/ (err = Some EOF /\ r = s /\ r' = [])).
Proof.
  split; [apply readString_inv|].
  intros [Hs [[-> ->]|[-> [-> ->]]]].
  - by apply readString_app.
  - by apply readString_eof.
Qed.

(** X13: For non-negative rows and cols, readMatrix on a buffer of at least
    rows*cols bytes returns rows strings of cols bytes each, the first
    rows*cols bytes in order, and leaves the rest. On a shorter buffer it
    drains the buffer and returns io.EOF when the bytes run out at a row
    boundary and io.ErrUnexpectedEOF when they run out inside a row. *)
Theorem readMatrix_reads_rows_or_fails (r : reader) (rows cols : Z) :
  0 <= rows -> 0 <= cols ->
  (rows * cols <= len r ->
   exists m, readMatrix r rows cols = (inr m, drop (Z.to_nat (rows * cols)) r) /\
             fits rows cols m /\ concat m = take (Z.to_nat (rows * cols)) r) /\
  (len r < rows * cols ->
   readMatrix r rows cols
   = (inl (if bool_decide (len r mod cols = 0) then EOF else ErrUnexpectedEOF), [])).
Proof.
  intros Hrows Hcols. split.
  - intros Hlen.
    destruct (rowsOf_fits (Z.to_nat rows) (Z.to_nat cols) (take (Z.to_nat (rows * cols)) r))
      as [Hfit Hcat].
    { rewrite length_take, <- Z2Nat.inj_mul by lia. unfold len in Hlen. lia. }
    rewrite !Z2Nat.id in Hfit by done.
    eexists. split; [|split; [exact Hfit|exact Hcat]].
    rewrite <- (take_drop (Z.to_nat (rows * cols)) r) at 1.
    rewrite <- Hcat at 1. by apply readMatrix_concat.
  - intros Hlen. unfold readMatrix.
    rewrite <- (Z2Nat.id rows) at 1 by done.
    pose proof (len_nonneg r) as Hr.
    assert (0 < cols) by (destruct (decide (cols = 0)) as [->|]; lia).
    apply readMatrixRows_short; [done|]. by rewrite Z2Nat.id.
Qed.

Lemma readMatrix_reads_rows_or_fails_witness :
  0 <= 3 /\ 0 <= 3 /\
  (3 * 3 <= len (bytesOf "CAT..A..N-") ->
   exists m, readMatrix (bytesOf "CAT..A..N-") 3 3
             = (inr m, drop (Z.to_nat (3 * 3)) (bytesOf "CAT..A..N-")) /\
             fits 3 3 m /\ concat m = take (Z.to_nat (3 * 3)) (bytesOf "CAT..A..N-")).
Proof.
  assert (0 <= 3) as H by lia.
  exact (conj H (conj H
    (proj1 (readMatrix_reads_rows_or_fails (bytesOf "CAT..A..N-") 3 3 H H)))).
Defined.

Lemma readFull_err n r e r' : readFull n r = (inl e, r') -> eofError e.
Proof.
  unfold readFull. destruct (len r <? n); [|done]. intros [= <- <-].
  destruct r; [by left|by right].
Qed.

Lemma binary_Read_uint16_err r e r' :
  binary_Read_uint16 r = (inl e, r') -> eofError e.
Proof.
  unfold binary_Read_uint16. destruct (readFull 2 r) as [[e1|xs] r1] eqn:E; [|done].
  intros [= <- <-]. by eapply readFull_err.
Qed.

Lemma binary_Read_byte_err r e r' :
  binary_Read_byte r = (inl e, r') -> eofError e.
Proof.
  unfold binary_Read_byte. destruct (readFull 1 r) as [[e1|xs] r1] eqn:E; [|done].
  intros [= <- <-]. by eapply readFull_err.
Qed.

Lemma readMatrixRows_err idx : forall cols m r e r',
  readMatrixRows idx cols m r = (inl e, r') -> eofError e.
Proof.
  induction idx as [|i idx IH]; intros cols m r e r'; simpl; [done|].
  unfold binary_Read_bytes. destruct (readFull cols r) as [[e1|xs] r1] eqn:E.
  - intros [= <- <-]. by eapply readFull_err.
  - apply IH.
Qed.

Lemma readMatrix_err r rows cols e r' :
  readMatrix r rows cols = (inl e, r') -> eofError e.
Proof. apply readMatrixRows_err. Qed.

Lemma readString_err r s e r' :
  readString r = ((s, Some e), r') -> e = EOF.
Proof.
  intros H. apply readString_inv in H as [_ [[? _]|[? _]]]; congruence.
Qed.

Lemma AcrossLite_readClues_err idx : forall a r e a' r',
  AcrossLite.readClues idx a r = ((Some e, a'), r') ->
  e = EOF /\ AcrossLite.Data a' = AcrossLite.Data a /\
  AcrossLite.Grid a' = AcrossLite.Grid a.
Proof.
  induction idx as [|i idx IH]; intros a r e a' r'; simpl; [done|].
  destruct (readString r) as [[str err] r1] eqn:E. destruct err as [e1|].
  - intros [= <- <- <-]. split; [by eapply readString_err|done].
  - intros H. apply IH in H as (-> & -> & ->). done.
Qed.

Lemma AcrossLite_readClues_frame idx : forall a r x a' r',
  AcrossLite.readClues idx a r = ((x, a'), r') ->
  AcrossLite.Data a' = AcrossLite.Data a /\ AcrossLite.Grid a' = AcrossLite.Grid a.
Proof.
  induction idx as [|i idx IH]; intros a r x a' r'; simpl.
  - by intros [= <- <- <-].
  - destruct (readString r) as [[str err] r1] eqn:E. destruct err as [e1|].
    + by intros [= <- <- <-].
    + intros H. apply IH in H as (-> & ->). done.
Qed.

Lemma eofOf_err r : eofError (eofOf r).
Proof. destruct r; [by left|by right]. Qed.

Lemma readFull_eq n r :
  readFull n r =
  if len r <? n then (inl (eofOf r), [])
  else (inr (take (Z.to_nat n) r), drop (Z.to_nat n) r).
Proof. reflexivity. Qed.

Lemma binary_Read_uint16_eq r :
  binary_Read_uint16 r =
  if len r <? 2 then (inl (eofOf r), []) else (inr (le16 (take 2 r)), drop 2 r).
Proof.
  unfold binary_Read_uint16. rewrite readFull_eq. by destruct (len r <? 2).
Qed.

Lemma binary_Read_byte_eq r :
  binary_Read_byte r =
  if len r <? 1 then (inl (eofOf r), [])
  else (inr (match take 1 r with [x] => byteZ x | _ => 0 end), drop 1 r).
Proof.
  unfold binary_Read_byte. rewrite readFull_eq. by destruct (len r <? 1).
Qed.

Lemma len_drop {A} n (l : list A) : len (drop n l) = Z.of_nat (length l - n).
Proof. unfold len. by rewrite length_drop. Qed.

Ltac header_fail :=
  intros [= <- <-];
  split; [reflexivity|]; split; [reflexivity|]; left;
  split; [apply eofOf_err|];
  left; rewrite ?len_drop in *; unfold len in *; lia.

Ltac header_u16 :=
  rewrite binary_Read_uint16_eq;
  match goal with
  | |- context [len ?r <? 2] => destruct (Z.ltb_spec (len r) 2)
  end; [header_fail|]; cbv beta iota zeta; rewrite ?drop_drop; cbn [Nat.add].

Ltac header_byte :=
  rewrite binary_Read_byte_eq;
  match goal with
  | |- context [len ?r <? 1] => destruct (Z.ltb_spec (len r) 1)
  end; [header_fail|]; cbv beta iota zeta; rewrite ?drop_drop; cbn [Nat.add].

Lemma parseFields_err a data e a' :
  AcrossLite.parseFields a data = (Some e, a') ->
  AcrossLite.Data a' = copyOf data /\ AcrossLite.Grid a' = AcrossLite.Grid a /\
  ((eofError e /\
    (len (elems data) < 0x34 \/ le16 (take 2 (drop 50 (elems data))) = 0)) \/
   (e = ErrScrambled /\ 0x34 <= len (elems data) /\
    le16 (take 2 (drop 50 (elems data))) <> 0 /\ sameBody a a')).
Proof.
  unfold AcrossLite.parseFields, Next, binary_Read_bytes. cbv zeta.
  change (Z.to_nat 12) with 12%nat. change (Z.to_nat 4) with 4%nat.
  change (Z.to_nat 2) with 2%nat.
  set (d := elems data).
  header_u16. header_u16.
  rewrite readFull_eq.
  destruct (Z.ltb_spec (len (drop 16 d)) 8); [header_fail|].
  cbv beta iota zeta. change (Z.to_nat 8) with 8%nat. rewrite ?drop_drop. cbn [Nat.add].
  header_u16. header_byte. header_byte. header_u16. header_u16.
  assert (0x34 <= len d) as Hlen by (rewrite ?len_drop in *; unfold len in *; lia).
  case_bool_decide as Htag.
  { intros [= <- <-]. split; [reflexivity|]. split; [reflexivity|]. right.
    split; [done|]. split; [done|]. split; [done|]. repeat split. }
  assert (le16 (take 2 (drop 50 d)) = 0) as Hzero
    by (by destruct (decide (le16 (take 2 (drop 50 d)) = 0))).
  cbn [AcrossLite.Rows AcrossLite.Cols AcrossLite.set_Rows AcrossLite.set_Cols
       AcrossLite.set_Solution].
  assert (forall x (a1 : AcrossLite.t),
            AcrossLite.Data a1 = copyOf data -> AcrossLite.Grid a1 = AcrossLite.Grid a ->
            (Some x, a1) = (Some e, a') -> x = EOF \/ eofError x ->
            AcrossLite.Data a' = copyOf data /\ AcrossLite.Grid a' = AcrossLite.Grid a /\
            ((eofError e /\ (len d < 0x34 \/ le16 (take 2 (drop 50 d)) = 0)) \/
             (e = ErrScrambled /\ 0x34 <= len d /\ le16 (take 2 (drop 50 d)) <> 0 /\
              sameBody a a'))) as Hfail.
  { intros x a1 HD HG [= <- <-] Hx. split; [done|]. split; [done|]. left.
    split; [|by right]. destruct Hx as [->|Hx]; [by left|done]. }
  destruct (readMatrix _ _ _) as [[e1|sol] b14] eqn:E14.
  { intros HP. eapply Hfail; [| |exact HP|]; [reflexivity|reflexivity|].
    right. by eapply readMatrix_err. }
  destruct (readString _) as [[title err] b16] eqn:E16. destruct err as [e1|].
  { intros HP. eapply Hfail; [| |exact HP|]; [reflexivity|reflexivity|].
    left. by eapply readString_err. }
  destruct (readString b16) as [[author err] b17] eqn:E17. destruct err as [e1|].
  { intros HP. eapply Hfail; [| |exact HP|]; [reflexivity|reflexivity|].
    left. by eapply readString_err. }
  destruct (readString b17) as [[copyright err] b18] eqn:E18. destruct err as [e1|].
  { intros HP. eapply Hfail; [| |exact HP|]; [reflexivity|reflexivity|].
    left. by eapply readString_err. }
  destruct (AcrossLite.readClues _ _ b18) as [[err a1] b19] eqn:E19.
  destruct err as [e1|].
  { apply AcrossLite_readClues_err in E19 as (-> & HD & HG).
    intros HP. eapply Hfail; [| |exact HP|]; [by rewrite HD|by rewrite HG|by left]. }
  apply AcrossLite_readClues_frame in E19 as [HD HG].
  destruct (readString b19) as [[notes err] b20] eqn:E20.
  destruct err as [e1|];
    [|by rewrite (bool_decide_eq_false_2 (None ≠ None))
        by (intros HN; by apply HN)].
  pose proof (readString_err _ _ _ _ E20) as ->.
  rewrite (bool_decide_eq_false_2 (Some EOF ≠ Some EOF)), andb_false_r
    by (intros HN; by apply HN).
  done.
Qed.

(** ** Parse: the errors it returns *)

Lemma tag_layout L :
  wellFormed L -> take 2 (drop 50 (encode L)) = [NUL; NUL].
Proof.
  intros Hwf. pose proof (len_headBytes L Hwf) as HH. destruct Hwf.
  unfold encode, cibBytes.
  replace 50%nat with (length (headBytes L ++ [lyCols L; lyRows L] ++ lyNumClues L
                                 ++ lyBitmask L))
    by (rewrite !length_app; unfold len in HH; simpl length; lia).
  rewrite <- !app_assoc.
  replace (headBytes L ++ [lyCols L; lyRows L] ++ lyNumClues L ++ lyBitmask L
           ++ [NUL; NUL] ++ concat (lySolution L) ++ lyState L ++ textBytes L)
    with ((headBytes L ++ [lyCols L; lyRows L] ++ lyNumClues L ++ lyBitmask L)
          ++ [NUL; NUL] ++ concat (lySolution L) ++ lyState L ++ textBytes L)
    by (by rewrite <- !app_assoc).
  by rewrite drop_app_length.
Qed.

Lemma len_encode_header L : wellFormed L -> 0x34 <= len (encode L).
Proof.
  intros Hwf. unfold encode. rewrite !len_app, len_headBytes, len_cibBytes by done.
  pose proof (len_nonneg (concat (lySolution L))).
  pose proof (len_nonneg (lyState L)). pose proof (len_nonneg (textBytes L)). lia.
Qed.

Lemma Parse_error a data e a' :
  AcrossLite.Parse a data = Some (Some e, a') ->
  AcrossLite.parseFields a data = (Some e, a') \/
  (e = ErrChecksums /\ AcrossLite.parseFields a data = (None, a')).
Proof.
  unfold AcrossLite.Parse.
  destruct (AcrossLite.parseFields a data) as [[e1|] a1]; [left; congruence|].
  destruct (AcrossLite.Verify a1) as [[|]|]; cbn; [done| |done].
  intros [= <- <-]. by right.
Qed.

(** X14: On a buffer of at least 0x34 bytes, Parse returns the scrambled-
    puzzle error exactly when the 16-bit tag at offset 0x32 is not zero, and
    then it has read nothing behind the header: solution, title, author,
    copyright, clues and notes of the record are untouched. *)
Theorem Parse_rejects_scrambled (a : AcrossLite.t) (data : slice) :
  0x34 <= len (elems data) ->
  (le16 (take 2 (drop 50 (elems data))) <> 0 <->
   exists a', AcrossLite.Parse a data = Some (Some ErrScrambled, a')) /\
  (forall a', AcrossLite.Parse a data = Some (Some ErrScrambled, a') -> sameBody a a').
Proof.
  intros Hlen.
  assert (forall a', AcrossLite.Parse a data = Some (Some ErrScrambled, a') ->
            AcrossLite.parseFields a data = (Some ErrScrambled, a')) as HP.
  { intros a' H. apply Parse_error in H as [H|[? _]]; done. }
  split; [split|].
  - intros Htag. unfold AcrossLite.Parse.
    destruct (AcrossLite.parseFields a data) as [[e|] a'] eqn:E.
    + exists a'. apply parseFields_err in E as (_ & _ & [[_ [?|?]]|(-> & _)]);
        [lia|done|done].
    + apply parseFields_inv in E as (L & Hwf & Henc & _).
      rewrite Henc, tag_layout in Htag by done. done.
  - intros [a' H]. apply HP, parseFields_err in H
      as (_ & _ & [[[?|?] _]|(_ & _ & Htag & _)]); done.
  - intros a' H. apply HP, parseFields_err in H
      as (_ & _ & [[[?|?] _]|(_ & _ & _ & HS)]); done.
Qed.

Lemma Parse_rejects_scrambled_witness :
  0x34 <= len (elems (mkSlice fileScrambled [])) /\
  le16 (take 2 (drop 50 (elems (mkSlice fileScrambled [])))) <> 0 /\
  exists a', AcrossLite.Parse AcrossLite.zero (mkSlice fileScrambled [])
             = Some (Some ErrScrambled, a').
Proof.
  assert (0x34 <= len (elems (mkSlice fileScrambled []))) as H by (by vm_compute).
  assert (le16 (take 2 (drop 50 (elems (mkSlice fileScrambled [])))) <> 0) as Ht
    by (by vm_compute).
  split; [exact H|]. split; [exact Ht|].
  exact (proj1 (proj1 (Parse_rejects_scrambled AcrossLite.zero _ H)) Ht).
Defined.

(** X15: Whenever Parse returns, the record's Data is a copy of the buffer
    without spare capacity and its Grid is untouched, and an error it returns
    is io.EOF, io.ErrUnexpectedEOF, the scrambled-puzzle error or the checksum
    error. A buffer shorter than the 0x34-byte header always gives io.EOF or
    io.ErrUnexpectedEOF. *)
Theorem Parse_error_kinds (a : AcrossLite.t) (data : slice) :
  (forall r a', AcrossLite.Parse a data = Some (r, a') ->
     AcrossLite.Data a' = mkSlice (elems data) [] /\
     AcrossLite.Grid a' = AcrossLite.Grid a /\
     match r with
     | Some e => eofError e \/ e = ErrScrambled \/ e = ErrChecksums
     | None => True
     end) /\
  (len (elems data) < 0x34 ->
   exists e a', AcrossLite.Parse a data = Some (Some e, a') /\ eofError e).
Proof.
  split.
  - intros r a'. unfold AcrossLite.Parse.
    destruct (AcrossLite.parseFields a data) as [[e|] a1] eqn:E.
    + intros [= <- <-]. apply parseFields_err in E as (HD & HG & HE).
      split; [done|]. split; [done|]. destruct HE as [[? _]|[? _]]; tauto.
    + apply parseFields_inv in E as (L & Hwf & Henc & ->).
      assert (AcrossLite.Data (parsed a L) = mkSlice (elems data) []) as HD
        by (cbn [parsed AcrossLite.Data]; by rewrite Henc).
      destruct (AcrossLite.Verify _) as [[|]|]; [| |done]; cbn [negb];
        intros [= <- <-]; (split; [exact HD|]); (split; [done|]); tauto.
  - intros Hlen. unfold AcrossLite.Parse.
    destruct (AcrossLite.parseFields a data) as [[e|] a1] eqn:E.
    + exists e, a1. split; [done|].
      apply parseFields_err in E as (_ & _ & [[? _]|(_ & ? & _)]); [done|lia].
    + apply parseFields_inv in E as (L & Hwf & Henc & _).
      pose proof (len_encode_header L Hwf). rewrite Henc in Hlen. lia.
Qed.

(** ** Parse on a truncated file *)

Lemma encode_body L : encode L = bodyBytes L ++ tailBytes L.
Proof. unfold encode, bodyBytes, textBytes. by rewrite <- !app_assoc. Qed.

Lemma nul_split_unique s : forall s' r r',
  nulFree s -> nulFree s' -> s ++ NUL :: r = s' ++ NUL :: r' -> s = s' /\ r = r'.
Proof.
  unfold nulFree. induction s as [|x s IH]; intros [|y s'] r r' Hs Hs'; simpl.
  - by intros [= ->].
  - intros [= <- _]. exfalso. apply Hs'. by left.
  - intros [= -> _]. exfalso. apply Hs. by left.
  - intros [= <- H]. apply not_elem_of_cons in Hs as [_ Hs].
    apply not_elem_of_cons in Hs' as [_ Hs'].
    destruct (IH _ _ _ Hs Hs' H) as [-> ->]. done.
Qed.

Lemma terminated_unique clues : forall clues' t t',
  length clues = length clues' ->
  Forall nulFree clues -> Forall nulFree clues' ->
  terminated clues ++ t = terminated clues' ++ t' -> clues = clues' /\ t = t'.
Proof.
  induction clues as [|c clues IH]; intros [|c' clues'] t t' Hlen Hall Hall';
    try done.
  unfold terminated. cbn [flat_map]. fold (terminated clues) (terminated clues').
  rewrite <- !app_assoc. cbn [app]. intros H.
  apply Forall_cons in Hall as [Hc Hall]. apply Forall_cons in Hall' as [Hc' Hall'].
  apply nul_split_unique in H as [-> H]; [|done|done].
  apply IH in H as [-> ->]; [done| |done|done]. simpl in Hlen. lia.
Qed.

Lemma app_inj_len {A} (l1 l2 k1 k2 : list A) :
  len l1 = len l2 -> l1 ++ k1 = l2 ++ k2 -> l1 = l2 /\ k1 = k2.
Proof. intros H. apply app_inj_1. unfold len in H. lia. Qed.

Lemma le16_len_inj (clues clues' : list (list byte)) :
  len clues = len clues' -> length clues = length clues'.
Proof. unfold len. lia. Qed.

Lemma encode_prefix_body L L' k :
  wellFormed L -> wellFormed L' -> encode L = encode L' ++ k ->
  bodyBytes L = bodyBytes L'.
Proof.
  intros Hwf Hwf' H. unfold bodyBytes.
  unfold encode in H. rewrite <- ?app_assoc in H.
  apply app_inj_len in H as [HH H]; [|by rewrite !len_headBytes].
  apply app_inj_len in H as [HC H]; [|by rewrite !len_cibBytes].
  assert (lyCols L = lyCols L' /\ lyRows L = lyRows L' /\ lyNumClues L = lyNumClues L')
    as (Hcols & Hrows & Hncl).
  { unfold cibBytes in HC. cbn [app] in HC. injection HC as -> -> HC.
    apply app_inj_1 in HC as [-> _]; [done|].
    by rewrite (wfNumClues L Hwf), (wfNumClues L' Hwf'). }
  apply app_inj_len in H as [HS H].
  2:{ rewrite (len_concat_fits _ _ _ (wfSolution L Hwf)),
        (len_concat_fits _ _ _ (wfSolution L' Hwf')). by rewrite Hcols, Hrows. }
  apply app_inj_len in H as [HG H].
  2:{ rewrite (wfState L Hwf), (wfState L' Hwf'). by rewrite Hcols, Hrows. }
  rewrite !textBytes_split in H. rewrite <- ?app_assoc in H. cbn [app] in H.
  rewrite <- ?app_assoc in H. cbn [app] in H.
  apply nul_split_unique in H as [HT H]; [|apply Hwf|apply Hwf'].
  rewrite <- ?app_assoc in H. cbn [app] in H.
  apply nul_split_unique in H as [HA H]; [|apply Hwf|apply Hwf'].
  rewrite <- ?app_assoc in H. cbn [app] in H.
  apply nul_split_unique in H as [HCo H]; [|apply Hwf|apply Hwf'].
  rewrite <- ?app_assoc in H.
  apply terminated_unique in H as [HCl H]; [| |apply Hwf|apply Hwf'].
  2:{ apply le16_len_inj.
      rewrite <- (wfClueCount L Hwf), <- (wfClueCount L' Hwf'). by rewrite Hncl. }
  by rewrite HH, HC, HS, HG, HT, HA, HCo, HCl.
Qed.

Lemma tag_truncated (l : list byte) n :
  (52 <= n)%nat -> take 2 (drop 50 (take n l)) = take 2 (drop 50 l).
Proof.
  intros Hn. replace n with (50 + (n - 50))%nat at 1 by lia.
  rewrite <- take_drop_commute, take_take. f_equal. lia.
Qed.

(** X16: Every prefix of a well-formed file that ends before the notes field
    (inside the header, the grids, the title, author, copyright or a clue)
    makes Parse return io.EOF or io.ErrUnexpectedEOF: Parse neither panics on
    it nor accepts it. *)
Theorem Parse_rejects_truncated (a : AcrossLite.t) (L : layout) (sp : list byte) (n : nat) :
  wellFormed L ->
  (n < length (bodyBytes L))%nat ->
  exists e a',
    AcrossLite.Parse a (mkSlice (take n (encode L)) sp) = Some (Some e, a') /\
    eofError e.
Proof.
  intros Hwf Hn. unfold AcrossLite.Parse.
  assert (length (take n (encode L)) = n) as Hlen.
  { rewrite length_take, encode_body, length_app. lia. }
  destruct (AcrossLite.parseFields a _) as [[e|] a'] eqn:E.
  - exists e, a'. split; [done|].
    apply parseFields_err in E as (_ & _ & [[? _]|(_ & Hlong & Htag & _)]); [done|].
    cbn [elems] in Hlong, Htag. exfalso. apply Htag.
    rewrite tag_truncated by (unfold len in Hlong; lia). by rewrite tag_layout.
  - apply parseFields_inv in E as (L' & Hwf' & Henc & _). cbn [elems] in Henc.
    exfalso.
    pose proof (take_drop n (encode L)) as Hsplit. rewrite Henc in Hsplit.
    symmetry in Hsplit. apply encode_prefix_body in Hsplit; [|done|done].
    rewrite Henc, encode_body, length_app, <- Hsplit in Hlen. lia.
Qed.

Lemma Parse_rejects_truncated_witness :
  wellFormed layoutPets /\ (60 < length (bodyBytes layoutPets))%nat /\
  exists e a',
    AcrossLite.Parse AcrossLite.zero (mkSlice (take 60 (encode layoutPets)) [])
    = Some (Some e, a') /\ eofError e.
Proof.
  assert (60 < length (bodyBytes layoutPets))%nat as H by (vm_compute; lia).
  exact (conj layoutPets_wf (conj H
    (Parse_rejects_truncated AcrossLite.zero layoutPets [] 60 layoutPets_wf H))).
Defined.

(** ** Parse on a file with its checksums filled in *)

Lemma byteZ_byteOf n : 0 <= n < 256 -> byteZ (byteOf n) = n.
Proof.
  intros Hn. unfold byteZ, byteOf.
  destruct (Byte.of_N (Z.to_N n)) as [y|] eqn:E.
  - apply Byte.to_of_N in E. simpl. rewrite E. lia.
  - apply Byte.of_N_None_iff in E. lia.
Qed.

Lemma lor_shiftl_byte v :
  is_uint16 v -> Z.lor (v mod 256) (Z.shiftl (v / 256) 8) = v.
Proof.
  intros Hv. unfold is_uint16 in Hv. apply Z.bits_inj'. intros n Hn.
  rewrite Z.lor_spec. change 256 with (2 ^ 8).
  rewrite <- Z.shiftr_div_pow2 by lia.
  destruct (Z.lt_ge_cases n 8) as [Hlt|Hge].
  - rewrite Z.mod_pow2_bits_low, Z.shiftl_spec_low by lia. apply orb_false_r.
  - rewrite Z.mod_pow2_bits_high, Z.shiftl_spec, Z.shiftr_spec by lia.
    cbn [orb]. f_equal. lia.
Qed.

Lemma le16_u16le v : is_uint16 v -> le16 (u16le v) = v.
Proof.
  intros Hv. unfold le16, u16le. pose proof Hv as Hv'. unfold is_uint16 in Hv'.
  rewrite !byteZ_byteOf by (Z.div_mod_to_equations; lia).
  by apply lor_shiftl_byte.
Qed.

Lemma lxor_byte a b : 0 <= a < 256 -> 0 <= b < 256 -> 0 <= Z.lxor a b < 256.
Proof.
  intros Ha Hb. split; [apply Z.lxor_nonneg; lia|].
  destruct (decide (Z.lxor a b = 0)) as [->|Hne]; [lia|].
  assert (0 < Z.lxor a b) as Hpos.
  { assert (0 <= Z.lxor a b) by (apply Z.lxor_nonneg; lia). lia. }
  change 256 with (2 ^ 8). apply Z.log2_lt_pow2; [done|].
  pose proof (Z.log2_lxor a b ltac:(lia) ltac:(lia)) as Hlog.
  assert (forall x, 0 <= x < 256 -> Z.log2 x < 8) as Hsmall.
  { intros x Hx. destruct (decide (x = 0)) as [->|]; [done|].
    apply Z.log2_lt_pow2; lia. }
  pose proof (Hsmall a Ha). pose proof (Hsmall b Hb). lia.
Qed.

Lemma maskedSum_bytes incl L :
  byteZ <$> (byteOf <$> maskedSum incl L) = maskedSum incl L.
Proof.
  assert (forall v, is_uint16 v -> 0 <= v mod 256 < 256 /\ 0 <= v / 256 < 256) as Hb.
  { intros v Hv. unfold is_uint16 in Hv. Z.div_mod_to_equations. lia. }
  assert (is_uint16 (cibSum L)) as H1 by apply cksum_range, uint16_0.
  assert (is_uint16 (solSum L)) as H2 by apply cksum_range, uint16_0.
  assert (is_uint16 (stateSum L)) as H3 by apply cksum_range, uint16_0.
  assert (is_uint16 (partSum incl L)) as H4 by apply cksum_range, uint16_0.
  apply Hb in H1 as [? ?], H2 as [? ?], H3 as [? ?], H4 as [? ?].
  unfold maskedSum. cbn [fmap list_fmap zip_with bytesOf list_byte_of_string app].
  cbn -[Z.lxor Z.modulo Z.div byteOf byteZ cibSum solSum stateSum partSum].
  rewrite !byteZ_byteOf; [done|..]; apply lxor_byte; (done || by vm_compute).
Qed.

Lemma fileSum_range incl L : is_uint16 (fileSum incl L).
Proof. unfold fileSum, fileSumBefore, cibSum. repeat apply cksum_range. apply uint16_0. Qed.

(** X17: Parse accepts every well-formed file whose three declared checksums
    are filled in as the format prescribes: computed without the notes, or
    computed with the notes when the notes are non-empty, NUL-terminated and
    change the whole-file checksum. The record then holds the fields of the
    file. *)
Theorem Parse_accepts_summed
    (a : AcrossLite.t) (L : layout) (sp : list byte) (incl : bool) :
  wellFormed L ->
  (incl = true ->
   lyNotes L <> [] /\ fileSumBefore L <> fileSum true L /\ lyRest L <> None) ->
  AcrossLite.Parse a (mkSlice (encode (summed incl L)) sp)
  = Some (None, parsed a (summed incl L)).
Proof.
  intros Hwf Hincl. rewrite Parse_layout by (by apply summed_wf).
  change (cibSum (summed incl L)) with (cibSum L).
  change (lyCksumCib (summed incl L)) with (u16le (cibSum L)).
  change (lyCksumFil (summed incl L)) with (u16le (fileSum incl L)).
  change (lyCksumMsk (summed incl L)) with (byteOf <$> maskedSum incl L).
  change (lyRest (summed incl L)) with (lyRest L).
  assert (forall i, fileSum i (summed incl L) = fileSum i L) as HF by done.
  assert (forall i, maskedSum i (summed incl L) = maskedSum i L) as HM by done.
  rewrite (le16_u16le (cibSum L)) by apply cksum_range, uint16_0.
  rewrite !le16_u16le by apply fileSum_range.
  rewrite (bool_decide_eq_false_2 (cibSum L ≠ cibSum L)) by (intros H; by apply H).
  assert (notesEnter (summed incl L) = incl) as ->.
  { unfold notesEnter.
    change (fileSumBefore (summed incl L)) with (fileSumBefore L).
    change (lyCksumFil (summed incl L)) with (u16le (fileSum incl L)).
    change (lyNotes (summed incl L)) with (lyNotes L).
    rewrite le16_u16le by apply fileSum_range.
    destruct incl.
    - destruct (Hincl eq_refl) as (Hn & Hf & _).
      by rewrite !bool_decide_eq_true_2.
    - rewrite (bool_decide_eq_false_2 (fileSumBefore L ≠ fileSum false L)); [done|].
      intros H. by apply H. }
  rewrite HF, HM, maskedSum_bytes.
  rewrite (bool_decide_eq_true_2 (fileSum incl L = fileSum incl L)) by done.
  rewrite (bool_decide_eq_true_2 (maskedSum incl L = maskedSum incl L)) by done.
  destruct incl; [|done].
  destruct (Hincl eq_refl) as (_ & _ & Hr).
  rewrite (bool_decide_eq_false_2 (lyRest L = None)) by done. done.
Qed.

Lemma Parse_accepts_summed_witness :
  wellFormed layoutV12Notes /\
  (lyNotes layoutV12Notes <> [] /\
   fileSumBefore layoutV12Notes <> fileSum true layoutV12Notes /\
   lyRest layoutV12Notes <> None) /\
  AcrossLite.Parse AcrossLite.zero (mkSlice (encode (summed true layoutV12Notes)) [])
  = Some (None, parsed AcrossLite.zero (summed true layoutV12Notes)).
Proof.
  assert (lyNotes layoutV12Notes <> [] /\
          fileSumBefore layoutV12Notes <> fileSum true layoutV12Notes /\
          lyRest layoutV12Notes <> None) as H
    by (split; [done|split; [by vm_compute|done]]).
  exact (conj layoutV12Notes_wf (conj H
    (Parse_accepts_summed AcrossLite.zero layoutV12Notes [] true layoutV12Notes_wf
       (fun _ => H)))).
Defined.

(** ** Verify on a record whose Data is too short *)




(** ** Package puzzle: the magic check, the version *)

Lemma Legacy_readClues_err idx : forall p r e p' r',
  Legacy.readClues idx p r = ((Some e, p'), r') -> e = EOF.
Proof.
  induction idx as [|i idx IH]; intros p r e p' r'; simpl; [done|].
  destruct (readString r) as [[str err] r1] eqn:E. destruct err as [e1|].
  - intros [= <- <- <-]. by eapply readString_err.
  - apply IH.
Qed.

Lemma loadFields_magic p data x r :
  Legacy.loadFields p data = (x, r) ->
  (x = Some ErrNotAcrossLite /\ 14 <= len (elems data) /\
   take 12 (drop 2 (elems data)) <> magic /\ r.1 = p) \/
  ((exists e, x = Some e /\ eofError e) /\ len (elems data) < 14 /\ r.1 = p) \/
  ((forall e, x = Some e -> eofError e \/ e = ErrScrambled) /\
   14 <= len (elems data) /\ take 12 (drop 2 (elems data)) = magic).
Proof.
  unfold Legacy.loadFields, binary_Read_bytes, Next. cbv zeta.
  set (d := elems data).
  rewrite binary_Read_uint16_eq.
  destruct (Z.ltb_spec (len d) 2) as [Hlt|Hge].
  { intros [= <- <-]. right. left. split; [eexists; split; [done|apply eofOf_err]|].
    split; [lia|done]. }
  cbv beta iota zeta. rewrite readFull_eq.
  change (len magic) with 12. rewrite len_drop.
  destruct (Z.ltb_spec (Z.of_nat (length d - 2)) 12) as [Hlt|Hge2].
  { intros [= <- <-]. right. left. split; [eexists; split; [done|apply eofOf_err]|].
    split; [unfold len in *; lia|done]. }
  cbv beta iota zeta. change (Z.to_nat 12) with 12%nat.
  assert (14 <= len d) as Hlen by (unfold len in *; lia).
  case_bool_decide as Hmagic.
  { intros [= <- <-]. left. done. }
  assert (take 12 (drop 2 d) = magic) as Hm
    by (by destruct (decide (take 12 (drop 2 d) = magic))).
  intros H. right. right. split; [|done]. revert H.
  assert (forall e0 r0 e, eofError e0 \/ e0 = ErrScrambled ->
            (Some e0, r0) = (x, r) -> x = Some e -> eofError e \/ e = ErrScrambled)
    as Hfail by (intros e0 r0 e He0 [= <- <-] [= <-]; done).
  repeat match goal with
  | |- context [binary_Read_uint16 ?b] =>
      let E := fresh "E" in
      destruct (binary_Read_uint16 b) as [[?|?] ?] eqn:E;
      [intros HP ex Hx; eapply Hfail; [|exact HP|exact Hx]; left;
       by eapply binary_Read_uint16_err|]
  | |- context [binary_Read_byte ?b] =>
      let E := fresh "E" in
      destruct (binary_Read_byte b) as [[?|?] ?] eqn:E;
      [intros HP ex Hx; eapply Hfail; [|exact HP|exact Hx]; left;
       by eapply binary_Read_byte_err|]
  | |- context [readFull ?n ?b] =>
      let E := fresh "E" in
      destruct (readFull n b) as [[?|?] ?] eqn:E;
      [intros HP ex Hx; eapply Hfail; [|exact HP|exact Hx]; left; by eapply readFull_err|]
  end.
  case_bool_decide as Htag.
  { intros HP ex Hx. eapply Hfail; [|exact HP|exact Hx]. by right. }
  cbn [Legacy.rows Legacy.cols Legacy.set_rows Legacy.set_cols
       Legacy.set_solution Legacy.set_state].
  match goal with
  | |- context [readMatrix ?b ?r ?c] =>
      destruct (readMatrix b r c) as [[e1|sol] b14] eqn:E14
  end.
  { intros HP ex Hx. eapply Hfail; [|exact HP|exact Hx]. left. by eapply readMatrix_err. }
  cbn [Legacy.rows Legacy.cols Legacy.set_rows Legacy.set_cols
       Legacy.set_solution Legacy.set_state].
  match goal with
  | |- context [readMatrix ?b ?r ?c] =>
      destruct (readMatrix b r c) as [[e1|st] b15] eqn:E15
  end.
  { intros HP ex Hx. eapply Hfail; [|exact HP|exact Hx]. left. by eapply readMatrix_err. }
  destruct (readString b15) as [[title err] b16] eqn:E16. destruct err as [e1|].
  { intros HP ex Hx. eapply Hfail; [|exact HP|exact Hx]. left. left.
    by eapply readString_err. }
  destruct (readString b16) as [[author err] b17] eqn:E17. destruct err as [e1|].
  { intros HP ex Hx. eapply Hfail; [|exact HP|exact Hx]. left. left.
    by eapply readString_err. }
  destruct (readString b17) as [[copyright err] b18] eqn:E18. destruct err as [e1|].
  { intros HP ex Hx. eapply Hfail; [|exact HP|exact Hx]. left. left.
    by eapply readString_err. }
  match goal with
  | |- context [Legacy.readClues ?i ?q b18] =>
      destruct (Legacy.readClues i q b18) as [[err p1] b19] eqn:E19
  end.
  destruct err as [e1|].
  { apply Legacy_readClues_err in E19 as ->.
    intros HP ex Hx. eapply Hfail; [|exact HP|exact Hx]. left. by left. }
  destruct (readString b19) as [[notes err] b20] eqn:E20.
  destruct err as [e1|].
  - pose proof (readString_err _ _ _ _ E20) as ->.
    rewrite (bool_decide_eq_false_2 (Some EOF ≠ Some EOF)), andb_false_r
      by (intros HN; by apply HN).
    by intros [= <- <-] ex.
  - rewrite (bool_decide_eq_false_2 (None ≠ None)) by (intros HN; by apply HN).
    by intros [= <- <-] ex.
Qed.

Lemma Legacy_Load_error p data e p' :
  Legacy.Load p data = Some (Some e, p') ->
  (exists sum, Legacy.loadFields p data = (Some e, (p', sum))) \/ e = ErrChecksums.
Proof.
  unfold Legacy.Load.
  destruct (Legacy.loadFields p data) as [[e1|] [p1 sum]].
  - intros [= <- <-]. left. by exists sum.
  - destruct (Legacy.verify p1 data sum) as [[|]|]; cbn; [done| |done].
    intros [= <- <-]. by right.
Qed.

(** X19: On a buffer of at least 14 bytes, Load of package puzzle returns
    ErrNotAcrossLite exactly when Sniff of package xwd returns false on the
    buffer, and on a shorter buffer it returns io.EOF or io.ErrUnexpectedEOF.
    In both cases the puzzle is left as it was. *)
Theorem Legacy_Load_checks_the_magic (p : Legacy.t) (data : slice) :
  (14 <= len (elems data) ->
   (AcrossLite.Sniff data = false <->
    Legacy.Load p data = Some (Some ErrNotAcrossLite, p)) /\
   (forall p', Legacy.Load p data = Some (Some ErrNotAcrossLite, p') -> p' = p)) /\
  (len (elems data) < 14 ->
   exists e, Legacy.Load p data = Some (Some e, p) /\ eofError e).
Proof.
  split.
  - intros Hlen. rewrite Sniff_long by done.
    rewrite bool_decide_eq_false.
    assert (forall p', Legacy.Load p data = Some (Some ErrNotAcrossLite, p') ->
              take 12 (drop 2 (elems data)) <> magic /\ p' = p) as Hback.
    { intros p' H. apply Legacy_Load_error in H as [[sum H]|?]; [|done].
      apply loadFields_magic in H
        as [(_ & _ & Hm & Hp)|[[(e & [= <-] & [?|?]) _]|[He _]]]; try done.
      destruct (He _ eq_refl) as [[?|?]|?]; done. }
    split; [split|].
    + intros Hm. unfold Legacy.Load.
      destruct (Legacy.loadFields p data) as [x [p1 sum]] eqn:E.
      apply loadFields_magic in E as [(-> & _ & _ & Hp)|[(_ & ? & _)|(_ & _ & ?)]];
        [|lia|done].
      cbn in Hp. by subst p1.
    + intros H. by apply Hback in H as [? _].
    + intros p' H. by apply Hback in H as [_ ?].
  - intros Hlen. unfold Legacy.Load.
    destruct (Legacy.loadFields p data) as [x [p1 sum]] eqn:E.
    apply loadFields_magic in E as [(_ & ? & _)|[((e & -> & He) & _ & Hp)|(_ & ? & _)]];
      [lia| |lia].
    cbn in Hp. subst p1. by exists e.
Qed.

(** ** The two decoders side by side *)

Lemma versionLoop_prefix rest : forall i version cur,
  (exists pre, version = pre ++ rest /\ length pre = i /\ nulFree pre) ->
  rest <> [] ->
  exists k, (i <= k <= length version)%nat /\
    Legacy.versionLoop i rest version cur = take k version /\
    nulFree (take k version) /\
    (k = length version \/ version !! k = Some NUL).
Proof.
  induction rest as [|x rest IH]; intros i version cur (pre & Hv & Hi & Hpre) Hne;
    [done|].
  cbn [Legacy.versionLoop]. case_bool_decide as Hx.
  - exists i. subst version i. rewrite length_app. split; [simpl; lia|].
    split; [done|]. rewrite take_app_length. split; [done|]. right.
    rewrite lookup_app_r, Nat.sub_diag by lia. by subst x.
  - assert (exists pre', version = pre' ++ rest /\ length pre' = S i /\ nulFree pre')
      as Hex.
    { exists (pre ++ [x]). rewrite <- app_assoc. split; [done|].
      rewrite length_app. split; [simpl; lia|]. unfold nulFree.
      rewrite elem_of_app. intros [?|Hin]; [done|].
      apply elem_of_cons in Hin as [Hin|Hin]; [|by apply elem_of_nil in Hin].
      apply Hx. by symmetry. }
    destruct rest as [|y rest'].
    + exists (length version). cbn [Legacy.versionLoop].
      subst version. rewrite length_app. simpl. split; [lia|].
      rewrite take_ge by (rewrite length_app; simpl; lia).
      split; [done|]. split; [|by left].
      destruct Hex as (pre' & Hv' & _ & Hn). rewrite app_nil_r in Hv'. by rewrite Hv'.
    + destruct (IH (S i) version version Hex) as (k & Hk & Hres & Hn & Hend); [done|].
      exists k. split; [lia|]. done.
Qed.

(** X20: Whenever Load of package puzzle returns on a well-formed file with
    the magic (given without spare capacity when its notes are unterminated),
    the version it has stored is the 4-byte version field cut at its first
    NUL, all four bytes if there is none, and holds no NUL. *)
Theorem Legacy_Load_reads_the_version
    (p : Legacy.t) (L : layout) (sp : list byte) (r : option error) (p' : Legacy.t) :
  wellFormed L -> lyMagic L = magic -> (lyRest L = None -> sp = []) ->
  Legacy.Load p (mkSlice (encode L) sp) = Some (r, p') ->
  exists k, (k <= 4)%nat /\
    Legacy.version p' = take k (lyVersion L) /\
    nulFree (Legacy.version p') /\
    (k = 4%nat \/ lyVersion L !! k = Some NUL).
Proof.
  intros Hwf Hmagic Hsp H. rewrite Legacy_Load_layout in H by done.
  assert (p' = loaded L) as ->.
  { case_bool_decide; [congruence|].
    destruct (_ && bool_decide (lyRest L = None)); [done|].
    destruct (_ && _); congruence. }
  cbn [loaded Legacy.version]. unfold versionOf.
  pose proof (wfVersion L Hwf) as Hlen.
  destruct (versionLoop_prefix (lyVersion L) 0 (lyVersion L) [])
    as (k & Hk & -> & Hn & Hend).
  - exists []. split; [done|]. split; [done|]. apply not_elem_of_nil.
  - intros E. by rewrite E in Hlen.
  - exists k. rewrite Hlen in Hk, Hend. split; [lia|]. done.
Qed.

Lemma Legacy_Load_reads_the_version_witness :
  wellFormed layoutV12Notes /\ lyMagic layoutV12Notes = magic /\
  exists r p',
    Legacy.Load Legacy.zero (mkSlice (encode layoutV12Notes) []) = Some (r, p') /\
    exists k, (k <= 4)%nat /\
      Legacy.version p' = take k (lyVersion layoutV12Notes) /\
      nulFree (Legacy.version p').
Proof.
  split; [exact layoutV12Notes_wf|]. split; [reflexivity|].
  destruct (Legacy.Load Legacy.zero (mkSlice (encode layoutV12Notes) []))
    as [[r p']|] eqn:E; [|by vm_compute in E].
  exists r, p'. split; [reflexivity|].
  destruct (Legacy_Load_reads_the_version Legacy.zero layoutV12Notes [] r p'
              layoutV12Notes_wf eq_refl (fun _ => eq_refl) E)
    as (k & Hk & Hv & Hn & _).
  exists k. exact (conj Hk (conj Hv Hn)).
Defined.

(** X21: On a well-formed file with the magic (given without spare capacity
    when its notes are unterminated) whose notes are empty, or for which the
    version rule of package puzzle and the checksum rule of package xwd decide
    alike about the notes, Parse of package xwd and Load of package puzzle
    return the same error or nil, or both panic; on success both hold the same
    dimensions, solution, title, author, copyright, clues and notes. *)
Theorem decoders_agree (a : AcrossLite.t) (p : Legacy.t) (L : layout) (sp : list byte) :
  wellFormed L -> lyMagic L = magic -> (lyRest L = None -> sp = []) ->
  lyNotes L = [] \/ notesEnter L = notesEnterLegacy L ->
  fst <$> AcrossLite.Parse a (mkSlice (encode L) sp)
  = fst <$> Legacy.Load p (mkSlice (encode L) sp) /\
  (forall a' p',
     AcrossLite.Parse a (mkSlice (encode L) sp) = Some (None, a') ->
     Legacy.Load p (mkSlice (encode L) sp) = Some (None, p') ->
     AcrossLite.Cols a' = Legacy.cols p' /\ AcrossLite.Rows a' = Legacy.rows p' /\
     AcrossLite.Solution a' = Legacy.solution p' /\
     AcrossLite.Title a' = Legacy.title p' /\ AcrossLite.Author a' = Legacy.author p' /\
     AcrossLite.Copyright a' = Legacy.copyright p' /\
     AcrossLite.Clues a' = Legacy.clues p' /\ AcrossLite.Notes a' = Legacy.notes p').
Proof.
  intros Hwf Hmagic Hsp Hnotes.
  assert (notesEnter L = notesEnterLegacy L) as Heq.
  { destruct Hnotes as [Hn|?]; [|done]. unfold notesEnter, notesEnterLegacy.
    rewrite Hn. rewrite (bool_decide_eq_false_2 ([] ≠ [])) by (intros H; by apply H).
    by rewrite !andb_false_r. }
  rewrite Parse_layout, Legacy_Load_layout, Heq by done. split.
  - case_bool_decide; [done|].
    destruct (_ && bool_decide (lyRest L = None)); [done|].
    by destruct (_ && _).
  - intros a' p' Ha Hp.
    assert (a' = parsed a L) as ->.
    { revert Ha. case_bool_decide; [congruence|].
      destruct (_ && bool_decide (lyRest L = None)); [done|].
      destruct (_ && _); congruence. }
    assert (p' = loaded L) as ->.
    { revert Hp. case_bool_decide; [congruence|].
      destruct (_ && bool_decide (lyRest L = None)); [done|].
      destruct (_ && _); congruence. }
    done.
Qed.

Lemma decoders_agree_witness :
  wellFormed layoutPets /\ lyMagic layoutPets = magic /\
  notesEnter layoutPets = notesEnterLegacy layoutPets /\
  fst <$> AcrossLite.Parse AcrossLite.zero (mkSlice (encode layoutPets) [])
  = fst <$> Legacy.Load Legacy.zero (mkSlice (encode layoutPets) []).
Proof.
  assert (notesEnter layoutPets = notesEnterLegacy layoutPets) as H by (by vm_compute).
  exact (conj layoutPets_wf (conj eq_refl (conj H
    (proj1 (decoders_agree AcrossLite.zero Legacy.zero layoutPets [] layoutPets_wf
              eq_refl (fun _ => eq_refl) (or_intror H)))))).
Defined.

(** ** Load of package xwd: all outcomes *)

Lemma Parse_inv a data r a' :
  AcrossLite.Parse a data = Some (r, a') ->
  match r with
  | Some e =>
      (eofError e \/ e = ErrScrambled) /\ AcrossLite.parseFields a data = (Some e, a') \/
      e = ErrChecksums /\
      exists L, wellFormed L /\ elems data = encode L /\ a' = parsed a L
  | None => exists L, wellFormed L /\ elems data = encode L /\ a' = parsed a L
  end.
Proof.
  unfold AcrossLite.Parse.
  destruct (AcrossLite.parseFields a data) as [[e|] a1] eqn:E.
  - intros [= <- <-]. left. split; [|done].
    apply parseFields_err in E as (_ & _ & [[? _]|[? _]]); tauto.
  - apply parseFields_inv in E as (L & Hwf & Henc & ->).
    destruct (AcrossLite.Verify _) as [[|]|]; [| |done]; cbn [negb];
      intros [= <- <-]; [|right; split; [done|]]; by exists L.
Qed.

(** X22: Whenever Load of package xwd returns an error, the puzzle is
    untouched and the error is NoProviderFound, io.EOF, io.ErrUnexpectedEOF,
    the scrambled-puzzle error or the checksum error. Whenever it returns nil,
    the buffer is a well-formed file with the magic and the puzzle is the one
    that file describes. *)
Theorem Puzzle_Load_outcomes
    (p : Puzzle.t) (data : slice) (r : option error) (p' : Puzzle.t) :
  Puzzle_Load p data = Some (r, p') ->
  match r with
  | Some e =>
      p' = p /\
      (e = NoProviderFound \/ eofError e \/ e = ErrScrambled \/ e = ErrChecksums)
  | None =>
      exists L, wellFormed L /\ lyMagic L = magic /\ elems data = encode L /\
                p' = loadedPuzzle L
  end.
Proof.
  unfold Puzzle_Load. destruct (AcrossLite.Sniff data) eqn:HS.
  2:{ intros [= <- <-]. split; [done|by left]. }
  destruct (AcrossLite.Parse AcrossLite.zero data) as [[[e|] a1]|] eqn:HP; [| |done].
  - intros [= <- <-]. split; [done|]. right.
    apply Parse_inv in HP as [[? _]|[? _]]; tauto.
  - apply Parse_inv in HP as (L & Hwf & Henc & ->).
    rewrite AcrossLite_Load_layout by done. case_bool_decide; [|done].
    intros [= <- <-]. exists L. split; [done|]. split; [|done].
    destruct data as [el sp]. cbn [elems] in Henc. subst el.
    rewrite Sniff_layout in HS by done. by apply bool_decide_eq_true in HS.
Qed.

Lemma Puzzle_Load_outcomes_witness :
  Puzzle_Load puzzle5 (mkSlice fileScrambled []) = Some (Some ErrScrambled, puzzle5) /\
  Puzzle_Load puzzle5 (mkSlice (encode layoutPets) [])
  = Some (None, loadedPuzzle layoutPets) /\
  exists L, wellFormed L /\ lyMagic L = magic /\
            elems (mkSlice (encode layoutPets) []) = encode L /\
            loadedPuzzle layoutPets = loadedPuzzle L.
Proof.
  assert (Puzzle_Load puzzle5 (mkSlice fileScrambled [])
          = Some (Some ErrScrambled, puzzle5)) as H1 by (by vm_compute).
  assert (Puzzle_Load puzzle5 (mkSlice (encode layoutPets) [])
          = Some (None, loadedPuzzle layoutPets)) as H2 by (by vm_compute).
  exact (conj H1 (conj H2 (Puzzle_Load_outcomes _ _ _ _ H2))).
Defined.

(** X23: Two well-formed files that differ only in the magic, the version, the
    two reserved areas and the scrambled checksum get the same verdict from
    Parse (the same error, nil, or a panic) and give the same dimensions,
    solution, title, author, copyright, clues and notes: Parse checks none of
    these fields. *)
Theorem Parse_skips_unchecked_fields
    (a : AcrossLite.t) (L L' : layout) (sp sp' : list byte) :
  wellFormed L -> wellFormed L' -> sameChecked L L' ->
  fst <$> AcrossLite.Parse a (mkSlice (encode L) sp)
  = fst <$> AcrossLite.Parse a (mkSlice (encode L') sp') /\
  (forall r a1 a2,
     AcrossLite.Parse a (mkSlice (encode L) sp) = Some (r, a1) ->
     AcrossLite.Parse a (mkSlice (encode L') sp') = Some (r, a2) ->
     AcrossLite.Cols a1 = AcrossLite.Cols a2 /\ AcrossLite.Rows a1 = AcrossLite.Rows a2 /\
     sameBody a1 a2).
Proof.
  intros Hwf Hwf' (HFil & HCib & HMsk & HCols & HRows & HNcl & HBmk & HSol & HSt &
                   HT & HA & HCo & HCl & HN & HR).
  assert (cibSum L = cibSum L') as EC
    by (unfold cibSum, cibBytes; by rewrite HCols, HRows, HNcl, HBmk).
  assert (fileSumBefore L = fileSumBefore L') as EB
    by (unfold fileSumBefore, textChain; by rewrite EC, HSol, HSt, HT, HA, HCo, HCl).
  assert (notesEnter L = notesEnter L') as EN
    by (unfold notesEnter; by rewrite EB, HFil, HN).
  assert (forall i, fileSum i L = fileSum i L') as EF
    by (intros i; unfold fileSum, notesChain; by rewrite EB, HN).
  assert (forall i, maskedSum i L = maskedSum i L') as EM.
  { intros i. unfold maskedSum, solSum, stateSum, partSum, textChain, notesChain.
    by rewrite EC, HSol, HSt, HT, HA, HCo, HCl, HN. }
  rewrite !Parse_layout by done.
  rewrite EC, EN, EF, EM, HCib, HFil, HMsk, HR.
  assert (AcrossLite.Cols (parsed a L) = AcrossLite.Cols (parsed a L') /\
          AcrossLite.Rows (parsed a L) = AcrossLite.Rows (parsed a L') /\
          sameBody (parsed a L) (parsed a L')) as Hsame.
  { cbn. rewrite HCols, HRows. split; [done|]. split; [done|].
    unfold sameBody. cbn. by rewrite HSol, HT, HA, HCo, HCl, HN. }
  split.
  - case_bool_decide; [done|].
    destruct (_ && bool_decide (lyRest L' = None)); [done|]. by destruct (_ && _).
  - intros r a1 a2.
    case_bool_decide; [by intros [= <- <-] [= <-]|].
    destruct (_ && bool_decide (lyRest L' = None)); [done|].
    destruct (_ && _); by intros [= <- <-] [= <-].
Qed.

Lemma Parse_skips_unchecked_fields_witness :
  wellFormed layoutV13Plain /\
  wellFormed (withVersion (bytesOf "9.9" ++ [x00]) layoutV13Plain) /\
  sameChecked layoutV13Plain (withVersion (bytesOf "9.9" ++ [x00]) layoutV13Plain) /\
  fst <$> AcrossLite.Parse AcrossLite.zero (mkSlice (encode layoutV13Plain) [])
  = fst <$> AcrossLite.Parse AcrossLite.zero
      (mkSlice (encode (withVersion (bytesOf "9.9" ++ [x00]) layoutV13Plain)) []).
Proof.
  assert (wellFormed (withVersion (bytesOf "9.9" ++ [x00]) layoutV13Plain)) as Hwf
    by (apply withVersion_wf; [reflexivity|exact layoutV13Plain_wf]).
  assert (sameChecked layoutV13Plain
            (withVersion (bytesOf "9.9" ++ [x00]) layoutV13Plain)) as Hs
    by (repeat split).
  exact (conj layoutV13Plain_wf (conj Hwf (conj Hs
    (proj1 (Parse_skips_unchecked_fields AcrossLite.zero _ _ [] []
              layoutV13Plain_wf Hwf Hs))))).
Defined.

(** ** The grid printer *)

Lemma cellText_textOf cell solution :
  cellText cell solution = Some (textOf cell solution).
Proof.
  unfold cellText, textOf. destruct (Puzzle.Black cell); [done|].
  destruct solution; [unfold Join; cbn; by rewrite ?app_nil_r|].
  by destruct (Puzzle.CellNum cell =? -1).
Qed.

Lemma dividerCell_loop b0 b1 b2 b3 (l : list Z) : forall out,
  forRange (fun _ => dividerCell [b0; b1; b2; b3]) l out
  = Some (out ++ replicate (length l) (b2 ++ Repeat b1 3)).
Proof.
  induction l as [|j l IH]; intros out; simpl.
  - by rewrite app_nil_r.
  - rewrite IH. unfold Join. simpl. rewrite app_nil_r, <- app_assoc. done.
Qed.

(** X24: boxDivider panics on a negative cell count. Otherwise it returns one
    line ending in a newline that draws max(nCells, 2) cells, so the divider
    for a grid of width 0 or 1 is two cells wide. *)
Theorem boxDivider_draws_at_least_two_cells (nCells : Z) (b0 b1 b2 b3 : list byte) :
  (nCells < 0 -> boxDivider nCells [b0; b1; b2; b3] = None) /\
  (0 <= nCells ->
   boxDivider nCells [b0; b1; b2; b3]
   = Some (b0 ++ Repeat b1 3 ++
           concat (replicate (Z.to_nat (Z.max nCells 2) - 2) (b2 ++ Repeat b1 3)) ++
           b2 ++ Repeat b1 3 ++ b3 ++ newline)).
Proof.
  unfold boxDivider. split; intros Hn.
  - by destruct (Z.ltb_spec nCells 0); [|lia].
  - destruct (Z.ltb_spec nCells 0); [lia|]. cbn [index Z.ltb]. 
    change (index [b0; b1; b2; b3] 0) with (Some b0).
    change (index [b0; b1; b2; b3] 1) with (Some b1).
    change (index [b0; b1; b2; b3] 2) with (Some b2).
    change (index [b0; b1; b2; b3] 3) with (Some b3).
    cbv beta iota zeta. unfold forZ. rewrite dividerCell_loop, length_seqZ.
    f_equal. unfold Join. rewrite !concat_app. simpl. rewrite !app_nil_r.
    rewrite <- ?app_assoc.
    replace (Z.to_nat (nCells - 1 - 1)) with (Z.to_nat (Z.max nCells 2) - 2)%nat by lia.
    done.
Qed.

Lemma boxRowCell_loop p i solution (c : Z -> Puzzle.Cell_t) n : forall k out,
  (forall j, k <= j < k + Z.of_nat n -> Puzzle.Cell p i j = Some (inl (c j))) ->
  forRange (boxRowCell p i solution) (seqZ k (Z.of_nat n)) out
  = Some (out ++ map (rowPiece (Puzzle.Cols p) (fun j => textOf (c j) solution))
                   (seqZ k (Z.of_nat n))).
Proof.
  induction n as [|n IH]; intros k out Hc.
  - rewrite seqZ_nil by done. simpl. by rewrite app_nil_r.
  - rewrite seqZ_S. cbn [forRange map]. unfold boxRowCell at 1.
    rewrite Hc by lia. rewrite cellText_textOf.
    change (index boxLin 0) with (Some bar). change (index boxLin 2) with (Some bar).
    change (index boxLin 3) with (Some bar). cbv beta iota.
    assert (forall x, (if k =? 0 then Some (out ++ [Join [bar; x; bar]])
                      else if k + 1 =? Puzzle.Cols p
                           then Some (out ++ [Join [x; bar; newline]])
                           else Some (out ++ [Join [x; bar]]))
                     = Some (out ++ [rowPiece (Puzzle.Cols p) (fun _ => x) k])) as ->.
    { intros x. unfold rowPiece, Join.
      destruct (k =? 0); [simpl; by rewrite ?app_nil_r|].
      destruct (k + 1 =? Puzzle.Cols p); simpl; by rewrite ?app_nil_r. }
    rewrite IH by (intros j Hj; apply Hc; lia).
    rewrite <- app_assoc. done.
Qed.

Lemma Cell_numbered p g i j :
  fits (Puzzle.Rows p) (Puzzle.Cols p) g ->
  0 <= i < Puzzle.Rows p -> 0 <= j < Puzzle.Cols p ->
  Puzzle.Cell (numberedState p g (scan (Puzzle.Rows p) (Puzzle.Cols p))).1 i j
  = Some (inl (cellOf g (Puzzle.Rows p) (Puzzle.Cols p) (i, j))).
Proof.
  intros Hfit Hi Hj.
  set (p' := (numberedState p g (scan (Puzzle.Rows p) (Puzzle.Cols p))).1).
  assert (fits (Puzzle.Rows p') (Puzzle.Cols p') (Puzzle.solution p')) as Hfit'
    by exact Hfit.
  rewrite Cell_fits by exact Hfit'.
  assert (inGrid (Puzzle.Rows p') (Puzzle.Cols p') (i, j) = true) as ->
    by (unfold inGrid; cbn [fst snd]; change (Puzzle.Rows p') with (Puzzle.Rows p);
        change (Puzzle.Cols p') with (Puzzle.Cols p); lia).
  unfold p', numberedState. cbv zeta.
  cbn [fst Puzzle.Rows Puzzle.Cols Puzzle.solution Puzzle.cellCoords].
  rewrite lookup_coordsOf_scan.
  assert (inGrid (Puzzle.Rows p) (Puzzle.Cols p) (i, j) = true) as ->
    by (unfold inGrid; cbn [fst snd]; lia).
  unfold cellOf. cbn [fst snd andb]. by destruct (numbered _ _ _ (i, j)).
Qed.

Lemma rowPiece_concat cols (cs : Z -> list byte) :
  2 <= cols ->
  concat (map (rowPiece cols cs) (seqZ 0 cols))
  = bar ++ flat_map (fun j => cs j ++ bar) (seqZ 0 cols) ++ newline.
Proof.
  intros Hcols.
  assert (seqZ 0 cols = 0 :: seqZ 1 (cols - 2) ++ [cols - 1]) as ->.
  { rewrite seqZ_cons by lia. f_equal.
    replace (Z.pred cols) with ((cols - 2) + 1) by lia.
    rewrite seqZ_app by lia. f_equal.
    rewrite (seqZ_cons _ 1), seqZ_nil by lia. f_equal. lia. }
  cbn [map concat flat_map]. rewrite map_app, concat_app, flat_map_app.
  cbn [map concat flat_map]. rewrite !app_nil_r.
  unfold rowPiece at 1. cbn [Z.eqb]. rewrite <- !app_assoc. do 3 f_equal.
  f_equal.
  - rewrite flat_map_concat_map. f_equal. apply map_ext_in. intros j Hj.
    apply list_elem_of_In, elem_of_seqZ in Hj. unfold rowPiece.
    destruct (Z.eqb_spec j 0); [lia|]. by destruct (Z.eqb_spec (j + 1) cols); [lia|].
  - unfold rowPiece. destruct (Z.eqb_spec (cols - 1) 0); [lia|].
    destruct (Z.eqb_spec (cols - 1 + 1) cols); [|lia]. by rewrite <- ?app_assoc.
Qed.

(** X25: After a successful SetSolution, boxRow for a row of the grid with two
    or more columns returns a bar, then for each column the three-character
    text of its cell and a bar, then a newline; the text is three blocks for a
    black cell, the letter between blanks when the solution is shown, else the
    number of the cell plus one right-aligned in three characters, or three
    blanks for a cell without number. For a single column the line ends
    without a newline; for no column it is empty. *)
Theorem boxRow_after_SetSolution
    (p : Puzzle.t) (g : list (list byte)) (p' : Puzzle.t) (row : Z) (solution : bool) :
  Puzzle.SetSolution p g = Some (None, p') ->
  0 <= row < Puzzle.Rows p ->
  boxRow p' row solution =
  Some (let cs j := textOf (cellOf g (Puzzle.Rows p) (Puzzle.Cols p) (row, j)) solution in
        if Puzzle.Cols p =? 0 then []
        else if Puzzle.Cols p =? 1 then bar ++ cs 0 ++ bar
        else bar ++ flat_map (fun j => cs j ++ bar) (seqZ 0 (Puzzle.Cols p)) ++ newline).
Proof.
  intros H Hrow. apply SetSolution_inv in H as [(err & ? & _)|(_ & Hfit & ->)]; [done|].
  assert (0 <= Puzzle.Cols p) as Hcols.
  { destruct Hfit as [Hrows Hall]. destruct g as [|r g].
    - unfold len in Hrows. simpl in Hrows. lia.
    - apply Forall_cons in Hall as [Hr _]. pose proof (len_nonneg r). lia. }
  unfold boxRow. cbv zeta.
  change (Puzzle.Cols (numberedState p g _).1) with (Puzzle.Cols p).
  unfold forZ. rewrite Z.sub_0_r.
  assert (seqZ 0 (Puzzle.Cols p) = seqZ 0 (Z.of_nat (Z.to_nat (Puzzle.Cols p))))
    as Hm by (by rewrite Z2Nat.id).
  rewrite Hm.
  rewrite (boxRowCell_loop _ row solution
             (fun j => cellOf g (Puzzle.Rows p) (Puzzle.Cols p) (row, j))).
  2:{ intros j Hj. apply Cell_numbered; [done|lia|lia]. }
  rewrite <- Hm. cbn [app]. unfold Join. f_equal.
  change (Puzzle.Cols (numberedState p g _).1) with (Puzzle.Cols p).
  destruct (Z.eqb_spec (Puzzle.Cols p) 0) as [->|H0]; [done|].
  destruct (Z.eqb_spec (Puzzle.Cols p) 1) as [->|H1].
  - change (seqZ 0 1) with [0]. cbn [map concat]. unfold rowPiece. cbn [Z.eqb].
    by rewrite app_nil_r.
  - apply rowPiece_concat. lia.
Qed.

Lemma boxRow_after_SetSolution_witness :
  exists p', Puzzle.SetSolution puzzle5 grid5 = Some (None, p') /\
    0 <= 1 < Puzzle.Rows puzzle5 /\
    boxRow p' 1 false = Some (rowLine grid5 5 5 1 false).
Proof.
  assert (0 <= 1 < Puzzle.Rows puzzle5) as H by (by vm_compute).
  exists (numberedState puzzle5 grid5 (scan 5 5)).1.
  split; [exact SetSolution_puzzle5|]. split; [exact H|].
  exact (boxRow_after_SetSolution puzzle5 grid5 _ 1 false SetSolution_puzzle5 H).
Defined.





















